(** * GQCP: the spin-unresolved ONV basis and the DIIS step of the RHF SCF solver

    A shallow embedding of
      - [gqcp/src/ONVBasis/SpinUnresolvedONVBasis.cpp]
        (vertex-weight table, addressing scheme, next-permutation bit trick,
        coupling counts, one-electron couplings, iteration, dense evaluation
        guards), and
      - [src/RHF/DIISRHFSCFSolver.cpp] (one DIIS update of the Fock matrix),
    together with the properties stated about them.

    Conventions.  A [size_t] / [unsigned long] is a [Z] in [0, 2^64); every
    arithmetic operation of the source on such a value is written with its
    wrap-around ([wrap]).  An [int] is a [Z] in [-2^31, 2^31).  A
    [std::vector] is a [list]; indexing one out of range, shifting by at
    least the width of the type and counting the trailing zeros of 0 have no
    defined behaviour in C++ and are modelled by the outcome [Undefined]. *)

From Stdlib Require Import ZArith Lia List Bool.
From Stdlib Require Import Floats.SpecFloat.
From stdpp Require Import base tactics option list numbers.

Local Open Scope Z_scope.

(** ** Machine integers *)

Definition word_modulus : Z := 2 ^ 64.

(** Reduction of a mathematical integer to a [size_t]. *)
Definition wrap (z : Z) : Z := z mod word_modulus.

(** ** Outcomes of a call: a value, a thrown exception, or no defined behaviour *)

Inductive exn : Type :=
  | InvalidArgument   (* std::invalid_argument *)
  | OverflowError     (* std::overflow_error *)
  | BadNumericCast    (* boost::numeric::bad_numeric_cast *)
  | OtherError        (* any other exception of a library routine *)
  | OutOfRounds.      (* not an exception of the program: a loop of the model
                         was given fewer rounds than it needs *)

Inductive outcome (A : Type) : Type :=
  | Ok (a : A)
  | Throw (e : exn)
  | Undefined.

Arguments Ok {A} a.
Arguments Throw {A} e.
Arguments Undefined {A}.

#[global] Instance outcome_ret : MRet outcome := fun A a => Ok a.

#[global] Instance outcome_bind : MBind outcome := fun A B f x =>
  match x with
  | Ok a => f a
  | Throw e => Throw e
  | Undefined => Undefined
  end.

(** [for (size_t i = lo; i < hi; i++) body], threading the state [s]. *)
Fixpoint for_loop {St : Type} (n : nat) (i : Z) (body : Z -> St -> outcome St) (s : St)
  : outcome St :=
  match n with
  | O => Ok s
  | S n' =>
      match body i s with
      | Ok s' => for_loop n' (i + 1) body s'
      | Throw e => Throw e
      | Undefined => Undefined
      end
  end.

Definition for_range {St : Type} (lo hi : Z) (body : Z -> St -> outcome St) (s : St)
  : outcome St :=
  for_loop (Z.to_nat (hi - lo)) lo body s.

(** ** Binomial coefficients *)

(** Pascal's triangle; [binom n k] is the number of [k]-subsets of an [n]-set. *)
Fixpoint binom (n k : nat) : Z :=
  match k, n with
  | O, _ => 1
  | S _, O => 0
  | S k', S n' => binom n' k + binom n' k'
  end.

Fixpoint factorial (n : nat) : Z :=
  match n with
  | O => 1
  | S n' => Z.of_nat n * factorial n'
  end.

(** The closed form [n! / (k! (n-k)!)], which evaluates quickly. *)
Definition binomial_closed (n k : nat) : Z :=
  factorial n / (factorial k * factorial (n - k)).

(** [binomC] lifts [binom] to the integers that index the table. *)
Definition binomC (n k : Z) : Z := binom (Z.to_nat n) (Z.to_nat k).

(** ** The ONV basis: [gqcp/src/ONVBasis/SpinUnresolvedONVBasis.cpp] *)

(** The data members of [SpinUnresolvedONVBasis]: the number of orbitals [M],
    the number of electrons [N] and the vertex weights
    ([std::vector<std::vector<size_t>>]). *)
Record SpinUnresolvedONVBasis : Type := mkONVBasis {
  numberOfOrbitals : Z;
  numberOfElectrons : Z;
  vertex_weights : list (list Z)
}.

(** [vertex_weights[p][m]] read through [operator[]]: no defined behaviour
    outside the vector. *)
Definition read_weight (t : list (list Z)) (p m : Z) : outcome Z :=
  match t !! Z.to_nat p with
  | Some row =>
      match row !! Z.to_nat m with
      | Some w => Ok w
      | None => Undefined
      end
  | None => Undefined
  end.

(** [vertex_weights[p][m] = w]. *)
Definition write_weight (p m w : Z) (t : list (list Z)) : outcome (list (list Z)) :=
  match t !! Z.to_nat p with
  | Some row =>
      if decide (Z.to_nat m < length row)%nat
      then Ok (<[Z.to_nat p := <[Z.to_nat m := w]> row]> t)
      else Undefined
  | None => Undefined
  end.

(** The constructor [SpinUnresolvedONVBasis(M, N)] (lines 35-88). *)
Definition construct (M N : Z) : outcome SpinUnresolvedONVBasis :=
  (* a zero matrix of dimensions (M+1)x(N+1) *)
  let zero := replicate (Z.to_nat (wrap (M + 1))) (replicate (Z.to_nat (wrap (N + 1))) 0) in
  (* for (size_t p = 0; p < M - N + 1; p++) vertex_weights[p][0] = 1; *)
  t1 ← for_range 0 (wrap (M - N + 1)) (fun p t => write_weight p 0 1 t) zero;
  (* for (size_t m = 1; m < N + 1; m++)
       for (size_t p = m; p < (M - N + m) + 1; p++)
         vertex_weights[p][m] = vertex_weights[p - 1][m] + vertex_weights[p - 1][m - 1]; *)
  t2 ← for_range 1 (wrap (N + 1)) (fun m t =>
          for_range m (wrap (M - N + m + 1)) (fun p t =>
            a ← read_weight t (p - 1) m;
            b ← read_weight t (p - 1) (m - 1);
            write_weight p m (wrap (a + b)) t) t) t1;
  Ok (mkONVBasis M N t2).

(** The entry of a table at row [p], column [m]; 0 outside the table. *)
Definition table_lookup (t : list (list Z)) (p m : Z) : Z :=
  match t !! Z.to_nat p with
  | Some row => default 0 (row !! Z.to_nat m)
  | None => 0
  end.

(** Modelled from the spec: [vertexWeight(p, m)], declared in the header
    [ONVBasis/SpinUnresolvedONVBasis.hpp], which is not among the sources.
    "read-only lookup, returns 0 for out-of-table indices consistent with the
    table shape (p in [0,M], m in [0,N])". *)
Definition vertexWeight (b : SpinUnresolvedONVBasis) (p m : Z) : Z :=
  table_lookup (vertex_weights b) p m.

(** The vertex weights in closed form: inside the band [p - m <= M - N] of
    the table the weight is a binomial coefficient, reduced to a [size_t]. *)
Definition weight_spec (M N p m : Z) : Z :=
  if (p <=? M) && (m <=? N) && (p - m <=? M - N) then wrap (binomC p m) else 0.

(** A table of [R] rows of [C] columns each. *)
Definition table_shape (R C : nat) (t : list (list Z)) : Prop :=
  length t = R /\ forall i row, t !! i = Some row -> length row = C.

(** [arcWeight(p, n)] (lines 126-130). *)
Definition arcWeight (b : SpinUnresolvedONVBasis) (p n : Z) : Z :=
  vertexWeight b p (wrap (n + 1)).

(** Modelled from the spec: [dimension()], declared in the missing header.
    "dimension = C(M,N)"; "fails with an overflow condition if the exact
    integer result does not fit the chosen address width". *)
Definition dimension (b : SpinUnresolvedONVBasis) : outcome Z :=
  let c := binomial_closed (Z.to_nat (numberOfOrbitals b)) (Z.to_nat (numberOfElectrons b)) in
  if c <? word_modulus then Ok c else Throw OverflowError.

(** *** Bit operations of the source *)

Fixpoint trailing_zeros (x : positive) : Z :=
  match x with
  | xO y => Z.succ (trailing_zeros y)
  | _ => 0
  end.

(** [__builtin_ctzl(x)] for [x != 0] (the builtin has no defined result at 0;
    the callers below guard that case themselves). *)
Definition ctzl (x : Z) : Z :=
  match x with
  | Zpos y => trailing_zeros y
  | _ => 0
  end.

(** [~x] on an [unsigned long]. *)
Definition lnot64 (x : Z) : Z := wrap (Z.lnot x).

(** [(1) << s] where [1] is an [int] (32 bits) and [s] a [size_t]:
    for [s < 31] the value is [2^s]; [1 << 31] is [INT_MIN]; a shift by 32 or
    more has no defined behaviour. *)
Definition int_one_shl (s : Z) : outcome Z :=
  if s <? 31 then Ok (2 ^ s)
  else if s =? 31 then Ok (- 2 ^ 31)
  else Undefined.

(** [addressOf(representation)] (lines 140-153).  Every round of the loop
    clears one bit of [copy], so 64 rounds exhaust any [size_t]; [None] means
    that the rounds allowed were not enough. *)
Fixpoint addressOf_loop (b : SpinUnresolvedONVBasis) (rounds : nat)
    (copy address electron_count : Z) : option Z :=
  if copy =? 0 then Some address
  else
    match rounds with
    | O => None
    | S rounds' =>
        let p := ctzl copy in
        let electron_count := wrap (electron_count + 1) in
        let address := wrap (address + vertexWeight b p electron_count) in
        let copy := Z.lxor copy (Z.land copy (wrap (- copy))) in
        addressOf_loop b rounds' copy address electron_count
    end.

Definition addressOf (b : SpinUnresolvedONVBasis) (representation : Z) : option Z :=
  addressOf_loop b 64 representation 0 0.

(** [nextPermutationOf(representation)] (lines 167-175). *)
Definition nextPermutationOf (representation : Z) : outcome Z :=
  if representation =? 0 then Undefined            (* __builtin_ctzl(0) *)
  else
    let t := Z.lor representation (wrap (representation - 1)) in
    let s := wrap (ctzl representation + 1) in
    if 64 <=? s then Undefined                     (* unsigned long >> 64 *)
    else Ok (Z.lor (wrap (t + 1))
                   (Z.shiftr (wrap (Z.land (lnot64 t) (wrap (t + 1)) - 1)) s)).

(** [representationOf(address)] (lines 185-206); [p] counts down from [M]. *)
Fixpoint representationOf_loop (b : SpinUnresolvedONVBasis) (p : nat)
    (m address representation : Z) : outcome Z :=
  match p with
  | O => Ok representation
  | S p' =>
      let weight := vertexWeight b (Z.of_nat p') m in
      if weight <=? address then
        bit ← int_one_shl (Z.of_nat p');
        let address := wrap (address - weight) in
        let representation := Z.lor representation (wrap bit) in
        let m := wrap (m - 1) in
        if m =? 0 then Ok representation
        else representationOf_loop b p' m address representation
      else representationOf_loop b p' m address representation
  end.

Definition representationOf (b : SpinUnresolvedONVBasis) (address : Z) : outcome Z :=
  if numberOfElectrons b =? 0 then Ok 0
  else representationOf_loop b (Z.to_nat (numberOfOrbitals b))
         (numberOfElectrons b) address 0.

(** *** The ONV *)

(** Modelled from the spec: [SpinUnresolvedONV], whose sources are missing.
    "Represents one electronic configuration as a bitstring of length M";
    "an unsigned integer bit representation; derived accessors give
    occupied-orbital indices in ascending order". *)
Record SpinUnresolvedONV : Type := mkONV {
  onv_M : Z;
  onv_N : Z;
  unsignedRepresentation : Z
}.

Fixpoint set_bits_from (x : positive) (i : Z) : list Z :=
  match x with
  | xH => [i]
  | xO y => set_bits_from y (i + 1)
  | xI y => i :: set_bits_from y (i + 1)
  end.

(** The indices of the set bits, in ascending order. *)
Definition set_bits (x : Z) : list Z :=
  match x with
  | Zpos y => set_bits_from y 0
  | _ => []
  end.

(** Modelled from the spec: [occupationIndexOf(electron_index)], the orbital
    occupied by the given electron, electrons being numbered from 0 in
    ascending orbital order.  Asking for an electron that is not there is
    outside the contract. *)
Definition occupationIndexOf (onv : SpinUnresolvedONV) (e : Z) : outcome Z :=
  match set_bits (unsignedRepresentation onv) !! Z.to_nat e with
  | Some p => Ok p
  | None => Undefined
  end.

(** Modelled from the spec: [replaceRepresentationWith]. *)
Definition replaceRepresentationWith (onv : SpinUnresolvedONV) (r : Z) : SpinUnresolvedONV :=
  mkONV (onv_M onv) (onv_N onv) r.

(** [transformONVCorrespondingToAddress] (lines 241-244). *)
Definition transformONVCorrespondingToAddress (b : SpinUnresolvedONVBasis)
    (onv : SpinUnresolvedONV) (address : Z) : outcome SpinUnresolvedONV :=
  r ← representationOf b address;
  Ok (replaceRepresentationWith onv r).

(** [constructONVFromAddress] (lines 216-221). *)
Definition constructONVFromAddress (b : SpinUnresolvedONVBasis) (address : Z)
  : outcome SpinUnresolvedONV :=
  transformONVCorrespondingToAddress b
    (mkONV (numberOfOrbitals b) (numberOfElectrons b) 0) address.

(** [transformONVToNextPermutation] (lines 229-232). *)
Definition transformONVToNextPermutation (onv : SpinUnresolvedONV)
  : outcome SpinUnresolvedONV :=
  r ← nextPermutationOf (unsignedRepresentation onv);
  Ok (replaceRepresentationWith onv r).

(** *** Iteration *)

(** [forEach(callback)] (lines 415-430).  The callback is an arbitrary
    function of the caller; the model records the arguments of its successive
    invocations. *)
Definition forEach (b : SpinUnresolvedONVBasis) : outcome (list (SpinUnresolvedONV * Z)) :=
  dim ← dimension b;
  onv ← constructONVFromAddress b 0;
  st ← for_range 0 dim (fun I (st : SpinUnresolvedONV * list (SpinUnresolvedONV * Z)) =>
          let calls := st.2 ++ [(st.1, I)] in
          if I <? wrap (dim - 1)
          then onv' ← transformONVToNextPermutation st.1; Ok (onv', calls)
          else Ok (st.1, calls)) (onv, []);
  Ok st.2.

(** *** Coupling counts *)

(** [countOneElectronCouplings(onv)] (lines 259-270). *)
Definition countOneElectronCouplings (b : SpinUnresolvedONVBasis)
    (onv : SpinUnresolvedONV) : outcome Z :=
  let V := wrap (numberOfOrbitals b - numberOfElectrons b) in
  for_range 0 (numberOfElectrons b) (fun e1 coupling_count =>
    p ← occupationIndexOf onv e1;
    Ok (wrap (coupling_count + wrap (V + e1 - p)))) 0.

(** [countTotalOneElectronCouplings()] (lines 276-282). *)
Definition countTotalOneElectronCouplings (b : SpinUnresolvedONVBasis) : outcome Z :=
  let M := numberOfOrbitals b in
  let N := numberOfElectrons b in
  dim ← dimension b;
  Ok (wrap (wrap (M - N) * N * dim)).

(** *** The configurations of a basis, written out *)

(** All bitstrings with [N] bits set among the lowest [M], in increasing
    order: first those without bit [M-1], then those with it. *)
Fixpoint all_onvs (M N : nat) {struct M} : list Z :=
  match N, M with
  | O, _ => [0]
  | S _, O => []
  | S N', S M' => all_onvs M' N ++ (Z.add (2 ^ Z.of_nat M') <$> all_onvs M' N')
  end.

(** The number of set bits. *)
Definition popcount (x : Z) : nat := length (set_bits x).

(** The sum of the weights [W(p, e)] met along a configuration whose
    occupied orbitals are [l], the first of them being electron number
    [e + 1]. *)
Fixpoint address_sum (W : Z -> Z -> Z) (e : Z) (l : list Z) : Z :=
  match l with
  | [] => 0
  | p :: l' => W p (e + 1) + address_sum W (e + 1) l'
  end.

(** The invocations of the callback that a full sweep over the basis is
    expected to make: the [i]-th listed configuration, with address [i]. *)
Definition enumeration (M N : Z) : list (SpinUnresolvedONV * Z) :=
  imap (fun i x => (mkONV M N x, Z.of_nat i)) (all_onvs (Z.to_nat M) (Z.to_nat N)).

(** The count of [countOneElectronCouplings] over the integers: for every
    electron [e] (numbered from [e0]) in orbital [p], the [V + e - p] virtual
    orbitals above [p]. *)
Fixpoint coupling_sum (V e0 : Z) (l : list Z) : Z :=
  match l with
  | [] => 0
  | p :: l' => (V + e0 - p) + coupling_sum V (e0 + 1) l'
  end.

Definition sum_Z (l : list Z) : Z := foldr Z.add 0 l.

(** *** The dimension, computed in double precision *)

(** An IEEE 754 binary64 number, as specified by the standard library. *)
Definition double : Type := spec_float.

Definition is_double (d : double) : bool := valid_binary 53 1024 d.

(** The integer part of a double, rounding toward zero; [None] for the
    infinities and NaN. *)
Definition double_trunc (d : double) : option Z :=
  match d with
  | S754_zero _ => Some 0
  | S754_finite s m e =>
      let magnitude := if 0 <=? e then Z.pos m * 2 ^ e else Z.pos m / 2 ^ (- e) in
      Some (if s then - magnitude else magnitude)
  | _ => None
  end.

(** The double [d] is exactly the integer [z]. *)
Definition double_is (d : double) (z : Z) : Prop :=
  match d with
  | S754_zero _ => z = 0
  | S754_finite s m e =>
      (if s then - z else z) * 2 ^ (- Z.min e 0) = Z.pos m * 2 ^ (Z.max e 0)
  | _ => False
  end.

(** [boost::numeric::converter<size_t, double>::convert], a routine of the
    Boost library with its default policies: the argument is range-checked
    ([d <= -1] and [d >= 2^64] raise [bad_numeric_cast]) and otherwise
    truncated toward zero.  A NaN passes the range check, and its conversion
    has no defined behaviour. *)
Definition converter_convert (d : double) : outcome Z :=
  match d with
  | S754_nan => Undefined
  | S754_infinity _ => Throw BadNumericCast
  | _ =>
      match double_trunc d with
      | Some v =>
          if (v <=? -1) || (word_modulus <=? v) then Throw BadNumericCast else Ok v
      | None => Undefined
      end
  end.

Section Dimension.
(** [boost::math::binomial_coefficient<double>(n, k)], a routine of the
    Boost library: some double, or an exception of its own. *)
Variable binomial_coefficient : Z -> Z -> outcome double.

(** [calculateDimension(M, N)] (lines 103-110); [static_cast<unsigned>]
    keeps the low 32 bits of its argument. *)
Definition calculateDimension (M N : Z) : outcome Z :=
  dim_double ← binomial_coefficient (M mod 2 ^ 32) (N mod 2 ^ 32);
  match converter_convert dim_double with
  | Throw BadNumericCast => Throw OverflowError     (* catch ... throw *)
  | r => r
  end.
End Dimension.

(** *** Two-electron coupling counts *)

Section TwoElectronCounts.
Variable binomial_coefficient : Z -> Z -> outcome double.

(** [countTotalTwoElectronCouplings()] (lines 286-297).  The two calls in
    the product, [calculateDimension] and [dimension()], raise the same
    kind of error, so that the order in which the compiler evaluates them
    does not show. *)
Definition countTotalTwoElectronCouplings (b : SpinUnresolvedONVBasis) : outcome Z :=
  let M := numberOfOrbitals b in
  let N := numberOfElectrons b in
  two_electron_permutation ←
    (if 2 <=? wrap (M - N) then
       c ← calculateDimension binomial_coefficient (wrap (M - N)) 2;
       dim ← dimension b;
       Ok (wrap (wrap (wrap (c * N) * wrap (N - 1)) * dim) / 2)
     else Ok 0);
  one_electron ← countTotalOneElectronCouplings b;
  Ok (wrap (two_electron_permutation + one_electron)).

(** [countTwoElectronCouplings(onv)] (lines 308-335). *)
Definition countTwoElectronCouplings (b : SpinUnresolvedONVBasis)
    (onv : SpinUnresolvedONV) : outcome Z :=
  let M := numberOfOrbitals b in
  let N := numberOfElectrons b in
  let V := wrap (M - N) in
  for_range 0 N (fun e1 coupling_count =>
    p ← occupationIndexOf onv e1;
    let coupling_count := wrap (coupling_count + wrap (wrap (V + e1) - p)) in
    for_range (wrap (e1 + 1)) N (fun e2 coupling_count =>
      q ← occupationIndexOf onv e2;
      let coupling_count2 := wrap (wrap (V + e2) - q) in
      let coupling_count :=
        wrap (coupling_count + wrap (wrap (V - coupling_count2) * coupling_count2)) in
      if 1 <? coupling_count2 then
        c ← calculateDimension binomial_coefficient coupling_count2 2;
        Ok (wrap (coupling_count + c))
      else Ok coupling_count) coupling_count) 0.
End TwoElectronCounts.

(** The binomial routine returns [C(n,2)] exactly, as a double, for the
    arguments [2 <= n <= 64]; nothing is asked of it elsewhere. *)
Definition exact_pairs (binomial_coefficient : Z -> Z -> outcome double) : Prop :=
  forall n, 2 <= n <= 64 ->
    exists d, binomial_coefficient n 2 = Ok d /\ double_is d (binomC n 2).

(** A routine to run the counts with: the nearest double of [C(n,k)] for
    [k <= n], and the library's domain error otherwise. *)
Definition rounded_binomial (n k : Z) : outcome double :=
  if (0 <=? k) && (k <=? n)
  then Ok (binary_normalize 53 1024 (binomC n k) 0 false)
  else Throw OtherError.

(** The number of pairs among [c] orbitals. *)
Definition pairs_among (c : Z) : Z := c * (c - 1) / 2.

(** What the inner loop of [countTwoElectronCouplings] adds for the electron
    [e] in orbital [q], which has [c = V + e - q] virtual orbitals above
    it. *)
Definition pair_term (V e q : Z) : Z :=
  let c := V + e - q in (V - c) * c + pairs_among c.

(** The sum of [pair_term] over the electrons in the orbitals [l], numbered
    from [e]: what one inner loop adds. *)
Fixpoint inner_sum (V e : Z) (l : list Z) : Z :=
  match l with
  | [] => 0
  | q :: l' => pair_term V e q + inner_sum V (e + 1) l'
  end.

(** The count of [countTwoElectronCouplings] over the integers, for the
    electrons in the orbitals [l], numbered from [e]. *)
Fixpoint two_coupling_sum (V e : Z) (l : list Z) : Z :=
  match l with
  | [] => 0
  | p :: l' => (V + e - p) + inner_sum V (e + 1) l' + two_coupling_sum V (e + 1) l'
  end.

(** What [countTwoElectronCouplings] has counted after [k] rounds of its
    outer loop. *)
Fixpoint two_coupling_rounds (V e : Z) (l : list Z) (k : nat) {struct k} : Z :=
  match k, l with
  | S k', p :: l' =>
      (V + e - p) + inner_sum V (e + 1) l' + two_coupling_rounds V (e + 1) l' k'
  | _, _ => 0
  end.

(** *** One-electron couplings *)

(** [Eigen::Triplet<double>(row, col, value)]; the values recorded here are
    the signs [1] and [-1]. *)
Record Triplet : Type := mkTriplet {
  triplet_row : Z;
  triplet_col : Z;
  triplet_value : Z
}.

(** [Eigen::SparseMatrix<double>], seen through its dimensions and the
    triplets it was set from. *)
Record SparseMatrix : Type := mkSparseMatrix {
  sparse_rows : Z;
  sparse_cols : Z;
  sparse_triplets : list Triplet
}.

(** [matrix.setFromTriplets(begin, end)]. *)
Definition setFromTriplets (m : SparseMatrix) (ts : list Triplet) : SparseMatrix :=
  mkSparseMatrix (sparse_rows m) (sparse_cols m) ts.

(** [sparse_entries[k].emplace_back(row, col, value)]. *)
Definition emplace_back (k : Z) (t : Triplet) (entries : list (list Triplet))
  : outcome (list (list Triplet)) :=
  match entries !! Z.to_nat k with
  | Some l => Ok (<[Z.to_nat k := l ++ [t]]> entries)
  | None => Undefined
  end.

(** The triplet that mirrors [(row, col, value)] across the diagonal. *)
Definition mirror (t : Triplet) : Triplet :=
  mkTriplet (triplet_col t) (triplet_row t) (triplet_value t).

(** Every off-diagonal triplet of [l] is in [l] together with its mirror
    image, which carries the same value. *)
Definition hermitian (l : list Triplet) : Prop :=
  forall t, t ∈ l -> triplet_row t <> triplet_col t -> mirror t ∈ l.

(** The position [p * (K + K + 1 - p) / 2 + q - p] of the pair [(p, q)], in
    [size_t] arithmetic. *)
Definition pair_index (K p q : Z) : Z :=
  wrap (wrap (wrap (p * wrap (K + K + 1 - p)) / 2 + q) - p).

(** The triplets [(I, I, 1)] of the configurations of [onvs] that have the
    orbital [p] occupied, [I] being the position in [onvs], counted from the
    given one. *)
Fixpoint diagonal_triplets (p I : Z) (onvs : list Z) : list Triplet :=
  match onvs with
  | [] => []
  | x :: onvs' =>
      (if Z.testbit x p then [mkTriplet I I 1] else [])
        ++ diagonal_triplets p (I + 1) onvs'
  end.

(** The variables that [shiftUntilNextUnoccupiedOrbital] updates by
    reference. *)
Record ShiftState : Type := mkShiftState {
  shift_address : Z;
  shift_q : Z;
  shift_e : Z;
  shift_sign : Z
}.

(** Modelled from the spec: [shiftUntilNextUnoccupiedOrbital<1>(onv, address,
    q, e, sign)], a template of the missing header.  "scan candidate creation
    orbitals q starting just above p, skipping already-occupied orbitals and
    tracking a running sign (±1) that flips with each occupied orbital passed
    over"; the electron passed over moves down by one electron index, so that
    its weight [W(q, e + 1)] in the address is replaced by [W(q, e)].
    [remaining] is [N - e], the number of electrons not yet passed: the loop
    [while (e < N && q == onv.occupationIndexOf(e))] stops when it is 0. *)
Fixpoint shiftUntilNextUnoccupiedOrbital_loop (b : SpinUnresolvedONVBasis)
    (onv : SpinUnresolvedONV) (remaining : nat) (s : ShiftState) : outcome ShiftState :=
  match remaining with
  | O => Ok s
  | S remaining' =>
      occ ← occupationIndexOf onv (shift_e s);
      if shift_q s =? occ then
        let address :=
          wrap (shift_address s
                + wrap (vertexWeight b (shift_q s) (shift_e s)
                        - vertexWeight b (shift_q s) (wrap (shift_e s + 1)))) in
        shiftUntilNextUnoccupiedOrbital_loop b onv remaining'
          (mkShiftState address (wrap (shift_q s + 1)) (wrap (shift_e s + 1))
             (- shift_sign s))
      else Ok s
  end.

Definition shiftUntilNextUnoccupiedOrbital (b : SpinUnresolvedONVBasis)
    (onv : SpinUnresolvedONV) (s : ShiftState) : outcome ShiftState :=
  shiftUntilNextUnoccupiedOrbital_loop b onv
    (Z.to_nat (numberOfElectrons b - shift_e s)) s.

(** The creation loop [while (q < K) { ... }] of lines 380-389, for a given
    number of rounds; being short of rounds is reported as [OutOfRounds]. *)
Fixpoint creation_loop (b : SpinUnresolvedONVBasis) (onv : SpinUnresolvedONV)
    (K I p : Z) (rounds : nat) (s : ShiftState) (entries : list (list Triplet))
  : outcome (list (list Triplet)) :=
  if shift_q s <? K then
    match rounds with
    | O => Throw OutOfRounds
    | S rounds' =>
        let J := wrap (shift_address s + vertexWeight b (shift_q s) (shift_e s)) in
        entries ← emplace_back (pair_index K p (shift_q s))
                     (mkTriplet I J (shift_sign s)) entries;
        entries ← emplace_back (pair_index K p (shift_q s))
                     (mkTriplet J I (shift_sign s)) entries;
        s' ← shiftUntilNextUnoccupiedOrbital b onv
               (mkShiftState (shift_address s) (wrap (shift_q s + 1)) (shift_e s)
                  (shift_sign s));
        creation_loop b onv K I p rounds' s' entries
    end
  else Ok entries.

Section Couplings.
Variable binomial_coefficient : Z -> Z -> outcome double.

(** The annihilation loop over [e1] (lines 367-390) for the ONV of address
    [I]. *)
Definition annihilation_loop (b : SpinUnresolvedONVBasis) (onv : SpinUnresolvedONV)
    (I : Z) (entries : list (list Triplet)) : outcome (list (list Triplet)) :=
  let K := numberOfOrbitals b in
  let N := numberOfElectrons b in
  for_range 0 N (fun e1 entries =>
    p ← occupationIndexOf onv e1;
    let address := wrap (I - vertexWeight b p (wrap (e1 + 1))) in
    entries ← emplace_back (pair_index K p p) (mkTriplet I I 1) entries;
    s ← shiftUntilNextUnoccupiedOrbital b onv
          (mkShiftState address (wrap (p + 1)) (wrap (e1 + 1)) 1);
    creation_loop b onv K I p (Z.to_nat (K - shift_q s)) s entries) entries.

(** The triplets collected by [calculateOneElectronCouplings] before they
    are handed to [setFromTriplets] (lines 365-396). *)
Definition collectOneElectronCouplings (b : SpinUnresolvedONVBasis) (dim : Z)
    (sparse_entries : list (list Triplet)) : outcome (list (list Triplet)) :=
  onv ← constructONVFromAddress b 0;
  st ← for_range 0 dim
         (fun I (st : SpinUnresolvedONV * list (list Triplet)) =>
            entries ← annihilation_loop b st.1 I st.2;
            if I <? wrap (dim - 1)
            then onv' ← transformONVToNextPermutation st.1; Ok (onv', entries)
            else Ok (st.1, entries))
         (onv, sparse_entries);
  Ok st.2.

(** [calculateOneElectronCouplings()] (lines 343-403).  The calls of
    [reserve] change capacities only and are left out, but for the call of
    [calculateDimension] that sizes them, which may throw. *)
Definition calculateOneElectronCouplings (b : SpinUnresolvedONVBasis)
  : outcome (list SparseMatrix) :=
  let K := numberOfOrbitals b in
  let N := numberOfElectrons b in
  dim ← dimension b;
  let pairs := Z.to_nat (wrap (K * wrap (K + 1)) / 2) in
  let sparse_entries := replicate pairs ([] : list Triplet) in
  let sparse_matrices := replicate pairs (mkSparseMatrix dim dim []) in
  if N =? 0 then Ok sparse_matrices
  else
    reservation_size ← calculateDimension binomial_coefficient (wrap (K - 1)) (wrap (N - 1));
    sparse_entries ← collectOneElectronCouplings b dim sparse_entries;
    Ok (zip_with setFromTriplets sparse_matrices sparse_entries).
End Couplings.

(** *** Dense evaluation *)

(** What a dense evaluation does that can be observed from outside, in
    order. *)
Inductive evaluation_event : Type :=
  | ContainerInitialized (dim : Z)   (* the zero [dim x dim] matrix is allocated *)
  | ElementsEvaluated.               (* [evaluate] has filled the container *)

Section DenseEvaluation.
(** The operator ([ScalarGSQOneElectronOperator<double>] or
    [GSQHamiltonian<double>]) and the dense matrix type are those of the
    numeric library. *)
Context {Operator SquareMatrix : Type}.
Variable operator_numberOfOrbitals : Operator -> Z.
(** Modelled from the spec: [evaluate<SquareMatrix<double>>(f, container)]
    followed by [container.evaluation()], a template of the missing header:
    "allocate a square matrix; for every configuration and every
    one-electron excitation ... accumulate" into it. *)
Variable evaluate : SpinUnresolvedONVBasis -> Operator -> Z -> SquareMatrix.

(** [evaluateOperatorDense(f)] (lines 444-455 and 512-523): the events that
    took place and the outcome. *)
Definition evaluateOperatorDense (b : SpinUnresolvedONVBasis) (f : Operator)
  : list evaluation_event * outcome SquareMatrix :=
  if negb (operator_numberOfOrbitals f =? numberOfOrbitals b)
  then ([], Throw InvalidArgument)
  else
    match dimension b with
    | Ok dim => ([ContainerInitialized dim; ElementsEvaluated], Ok (evaluate b f dim))
    | Throw e => ([], Throw e)
    | Undefined => ([], Undefined)
    end.
End DenseEvaluation.

(** ** The DIIS step of the RHF SCF solver *)

(** The doubles [1], [-1] and [0], and the product of doubles. *)
Definition double_one : double := S754_finite false 4503599627370496 (-52).
Definition double_minus_one : double := S754_finite true 4503599627370496 (-52).
Definition double_zero : double := S754_zero false.
Definition double_mul : double -> double -> double := SFmul 53 1024.

(** What [DIISRHFSCFSolver.cpp] takes from elsewhere: the matrices of the AO
    basis ([OneElectronOperator<double>], [OneRDM<double>]) with the
    operations of the numeric library on them, its linear solver
    ([Eigen::HouseholderQR<MatrixXd>(B).solve(b)], on a dense matrix given by
    its rows), and the Hamiltonian parameters with [get_S] and
    [calculateRHFAOFockMatrix], which other files of the repository define. *)
Class DIISEnvironment (Matrix HamiltonianParameters : Type) : Type := {
  mat_mul : Matrix -> Matrix -> Matrix;
  mat_sub : Matrix -> Matrix -> Matrix;
  mat_add : Matrix -> Matrix -> Matrix;
  mat_scale : double -> Matrix -> Matrix;
  mat_transpose : Matrix -> Matrix;
  mat_trace : Matrix -> double;
  mat_zero : Z -> Z -> Matrix;
  mat_cols : Matrix -> Z;
  householderQR_solve : list (list double) -> list double -> list double;
  get_S : HamiltonianParameters -> Matrix;
  calculateRHFAOFockMatrix : Matrix -> HamiltonianParameters -> Matrix
}.

(** [B(i, j) = v] on a dense matrix kept as the list of its rows; there is no
    defined behaviour outside the matrix. *)
Definition dense_set (i j : Z) (v : double) (B : list (list double))
  : outcome (list (list double)) :=
  match B !! Z.to_nat i with
  | Some row =>
      if decide (Z.to_nat j < length row)%nat
      then Ok (<[Z.to_nat i := <[Z.to_nat j := v]> row]> B)
      else Undefined
  | None => Undefined
  end.

(** A dense matrix of [R] rows of [C] entries. *)
Definition dense_shape (R C : nat) (B : list (list double)) : Prop :=
  length B = R /\ forall i row, B !! i = Some row -> length row = C.

(** The entry [(i, j)] of a dense matrix, if there is one. *)
Definition dense_at (B : list (list double)) (i j : Z) : option double :=
  match B !! Z.to_nat i with
  | Some row => row !! Z.to_nat j
  | None => None
  end.

(** [b(i) = v] on a vector. *)
Definition vector_set (i : Z) (v : double) (b : list double) : outcome (list double) :=
  if decide (Z.to_nat i < length b)%nat then Ok (<[Z.to_nat i := v]> b) else Undefined.

(** [container[i]] and [y(i)], read without a range check. *)
Definition at_index {A : Type} (l : list A) (i : Z) : outcome A :=
  match l !! Z.to_nat i with
  | Some x => Ok x
  | None => Undefined
  end.

Section DIIS.
Context {Matrix HamiltonianParameters : Type}.
Context {env : DIISEnvironment Matrix HamiltonianParameters}.

(** The data members of [DIISRHFSCFSolver] that the step uses. *)
Record DIISRHFSCFSolver : Type := mkDIISRHFSCFSolver {
  ham_par : HamiltonianParameters;
  minimum_subspace_dimension : Z;
  maximum_subspace_dimension : Z;
  fock_matrix_deque : list Matrix;
  error_matrix_deque : list Matrix
}.

(** What a call of [calculateNewFockMatrix] leaves: the matrix returned, the
    solver object with its updated deques, and the linear systems [(B, b)]
    handed to the linear solver on the way. *)
Record DIISStep : Type := mkDIISStep {
  new_fock_matrix : Matrix;
  solver_after : DIISRHFSCFSolver;
  systems_solved : list (list (list double) * list double)
}.

(** [f_AO * D_AO * S - S * D_AO * f_AO]. *)
Definition error_matrix_of (f_AO D_AO S : Matrix) : Matrix :=
  mat_sub (mat_mul (mat_mul f_AO D_AO) S) (mat_mul (mat_mul S D_AO) f_AO).

(** The augmented matrix [B] of lines 54-61. *)
Definition build_B (errors : list Matrix) (n : Z) : outcome (list (list double)) :=
  let B := replicate (Z.to_nat (wrap (n + 1)))
             (replicate (Z.to_nat (wrap (n + 1))) (double_mul double_minus_one double_one)) in
  B ← dense_set n n double_zero B;
  for_range 0 n (fun i B =>
    for_range 0 n (fun j B =>
      e_i ← at_index errors i;
      e_j ← at_index errors j;
      dense_set i j (mat_trace (mat_mul (mat_transpose e_i) e_j)) B) B) B.

(** The right-hand side [b] of lines 64-65. *)
Definition build_b (n : Z) : outcome (list double) :=
  vector_set n double_minus_one (replicate (Z.to_nat (wrap (n + 1))) double_zero).

(** The accumulation of lines 74-77. *)
Definition combine_focks (y : list double) (focks : list Matrix) (n : Z) (zero : Matrix)
  : outcome Matrix :=
  for_range 0 n (fun i f_AO =>
    y_i ← at_index y i;
    F_i ← at_index focks i;
    Ok (mat_add f_AO (mat_scale y_i F_i))) zero.

(** [calculateNewFockMatrix(D_AO)] (lines 35-91). *)
Definition calculateNewFockMatrix (slv : DIISRHFSCFSolver) (D_AO : Matrix)
  : outcome DIISStep :=
  let S := get_S (ham_par slv) in
  let f_AO := calculateRHFAOFockMatrix D_AO (ham_par slv) in
  let focks := fock_matrix_deque slv ++ [f_AO] in
  let errors := error_matrix_deque slv ++ [error_matrix_of f_AO D_AO S] in
  let n := Z.of_nat (length errors) in
  '(f_AO, systems) ←
    (if minimum_subspace_dimension slv <=? n then
       B ← build_B errors n;
       b ← build_b n;
       let y := householderQR_solve B b in
       f_AO ← combine_focks y focks n (mat_zero (mat_cols S) (mat_cols S));
       Ok (f_AO, [(B, b)])
     else Ok (f_AO, []));
  let collapse := maximum_subspace_dimension slv <? n in
  let focks := if collapse then tail focks else focks in
  let errors := if collapse then tail errors else errors in
  Ok (mkDIISStep f_AO
        (mkDIISRHFSCFSolver (ham_par slv) (minimum_subspace_dimension slv)
           (maximum_subspace_dimension slv) focks errors)
        systems).

(** *** The step as the claim words it *)

(** The entry [(i, j)] of the augmented system, [0 <= i, j <= n]:
    [trace(e_i^T e_j)] for [i, j < n], 0 in the corner [(n, n)], and -1 in
    the rest of the border row and column. *)
Definition augmented_entry (errors : list Matrix) (n i j : Z) : option double :=
  if (i <? n) && (j <? n) then
    match errors !! Z.to_nat i, errors !! Z.to_nat j with
    | Some e_i, Some e_j => Some (mat_trace (mat_mul (mat_transpose e_i) e_j))
    | _, _ => None
    end
  else if (i =? n) && (j =? n) then Some double_zero
  else Some double_minus_one.

(** The entries of [B] when the loops of lines 56-61 have reached row [i],
    column [j]. *)
Definition entry_at_stage (errors : list Matrix) (n i j i' j' : Z) : option double :=
  if (i' <? n) && (j' <? n) && ((i' <? i) || ((i' =? i) && (j' <? j)))
  then augmented_entry errors n i' j'
  else if (i' =? n) && (j' =? n) then Some double_zero
  else Some double_minus_one.

(** The right-hand side: zero except for -1 in the last entry. *)
Definition rhs_entry (n i : Z) : double :=
  if i =? n then double_minus_one else double_zero.

(** The sum of [y_i * F_i] over the stored Fock matrices, added up in the
    order of [i] onto [zero]. *)
Definition linear_combination (y : list double) (focks : list Matrix) (zero : Matrix)
  : Matrix :=
  foldl (fun acc yF => mat_add acc (mat_scale yF.1 yF.2)) zero (zip y focks).

(** *** Runs of steps *)

(** [after_steps s0 k s]: [k] calls of [calculateNewFockMatrix] on the
    solver object [s0], with any densities, have returned and have left the
    object as [s]. *)
Inductive after_steps (s0 : DIISRHFSCFSolver) : nat -> DIISRHFSCFSolver -> Prop :=
| after_steps_0 : after_steps s0 0 s0
| after_steps_S (k : nat) (s : DIISRHFSCFSolver) (D_AO : Matrix) (step : DIISStep) :
    after_steps s0 k s ->
    calculateNewFockMatrix s D_AO = Ok step ->
    after_steps s0 (S k) (solver_after step).
End DIIS.

Arguments DIISRHFSCFSolver : clear implicits.
Arguments DIISStep : clear implicits.

(** An environment to run the step in: AO bases of a single function, whose
    matrices are 1 x 1, with [S = 1] and the density taken as Fock matrix.
    The solver is exact on the system that one stored error [e] gives,
    [t y0 - y1 = 0], [-y0 = -1] with [t = e e], and the identity elsewhere. *)
Definition scalar_environment : DIISEnvironment double unit := {|
  mat_mul := SFmul 53 1024;
  mat_sub := SFsub 53 1024;
  mat_add := SFadd 53 1024;
  mat_scale := SFmul 53 1024;
  mat_transpose := fun a => a;
  mat_trace := fun a => a;
  mat_zero := fun _ _ => double_zero;
  mat_cols := fun _ => 1;
  householderQR_solve := fun B b =>
    match B, b with
    | [t; _] :: _, [_; _] => [double_one; t]
    | _, _ => b
    end;
  get_S := fun _ => double_one;
  calculateRHFAOFockMatrix := fun D_AO _ => D_AO
|}.

(** A solver before its first step (empty deques), with subspace dimensions
    between 1 and 6, and the double [2]. *)
Definition fresh_solver : DIISRHFSCFSolver double unit :=
  mkDIISRHFSCFSolver tt 1 6 [] [].

Definition double_two : double := S754_finite false 4503599627370496 (-51).

(** * Properties *)

(** ** Machine integers, loops and binomial coefficients *)

Lemma word_modulus_pos : 0 < word_modulus.
Proof. reflexivity. Qed.

Lemma wrap_range z : 0 <= wrap z < word_modulus.
Proof. apply Z.mod_pos_bound, word_modulus_pos. Qed.

Lemma wrap_small z : 0 <= z < word_modulus -> wrap z = z.
Proof. apply Z.mod_small. Qed.

Lemma wrap_wrap z : wrap (wrap z) = wrap z.
Proof. apply Z.mod_mod. discriminate. Qed.

Lemma wrap_add a b : wrap (wrap a + wrap b) = wrap (a + b).
Proof. unfold wrap. symmetry. apply Z.add_mod. discriminate. Qed.

Lemma wrap_add_l a b : wrap (wrap a + b) = wrap (a + b).
Proof. unfold wrap. apply Z.add_mod_idemp_l. discriminate. Qed.

Lemma wrap_add_r a b : wrap (a + wrap b) = wrap (a + b).
Proof. unfold wrap. apply Z.add_mod_idemp_r. discriminate. Qed.

Lemma wrap_sub_l a b : wrap (wrap a - b) = wrap (a - b).
Proof. unfold wrap. apply Zminus_mod_idemp_l. Qed.

Lemma wrap_sub_r a b : wrap (a - wrap b) = wrap (a - b).
Proof. unfold wrap. apply Zminus_mod_idemp_r. Qed.

Lemma for_loop_invariant {St : Type} (Inv : Z -> St -> Prop) body n i (s : St) :
  Inv i s ->
  (forall j t, i <= j < i + Z.of_nat n -> Inv j t ->
     exists t', body j t = Ok t' /\ Inv (j + 1) t') ->
  exists s', for_loop n i body s = Ok s' /\ Inv (i + Z.of_nat n) s'.
Proof.
  revert i s. induction n as [|n IH]; intros i s Hi Hstep.
  - exists s. split; [reflexivity|]. now replace (i + Z.of_nat 0) with i by lia.
  - destruct (Hstep i s) as (t & Hb & Ht); [lia|assumption|].
    destruct (IH (i + 1) t Ht) as (s' & Hl & Hs').
    + intros j u Hj Hu. apply Hstep; [lia|assumption].
    + exists s'. split.
      * simpl. now rewrite Hb.
      * now replace (i + Z.of_nat (S n)) with (i + 1 + Z.of_nat n) by lia.
Qed.

Lemma for_range_invariant {St : Type} (Inv : Z -> St -> Prop) body lo hi (s : St) :
  lo <= hi ->
  Inv lo s ->
  (forall j t, lo <= j < hi -> Inv j t ->
     exists t', body j t = Ok t' /\ Inv (j + 1) t') ->
  exists s', for_range lo hi body s = Ok s' /\ Inv hi s'.
Proof.
  intros Hle Hi Hstep. unfold for_range.
  destruct (for_loop_invariant Inv body (Z.to_nat (hi - lo)) lo s Hi) as (s' & H1 & H2).
  - intros j t Hj. apply Hstep. lia.
  - exists s'. split; [assumption|]. now replace hi with (lo + Z.of_nat (Z.to_nat (hi - lo))) by lia.
Qed.

Lemma for_range_empty {St : Type} body lo hi (s : St) :
  hi <= lo -> for_range lo hi body s = Ok s.
Proof.
  intros H. unfold for_range. now replace (Z.to_nat (hi - lo)) with O by lia.
Qed.

Lemma binom_0_r n : binom n 0 = 1.
Proof. now destruct n. Qed.

Lemma binom_nonneg n k : 0 <= binom n k.
Proof.
  revert k. induction n as [|n IH]; intros [|k]; simpl; try lia.
  specialize (IH k) as H1. specialize (IH (S k)) as H2. lia.
Qed.

Lemma binom_gt n k : (n < k)%nat -> binom n k = 0.
Proof.
  revert k. induction n as [|n IH]; intros [|k] H; simpl; try lia.
  rewrite !IH by lia. reflexivity.
Qed.

Lemma binom_diag n : binom n n = 1.
Proof.
  induction n as [|n IH]; [reflexivity|]. simpl.
  rewrite IH, binom_gt by lia. reflexivity.
Qed.

Lemma binom_pos n k : (k <= n)%nat -> 0 < binom n k.
Proof.
  revert k. induction n as [|n IH]; intros [|k] H; simpl; try lia.
  assert (0 < binom n k) by (apply IH; lia).
  pose proof (binom_nonneg n (S k)). lia.
Qed.

Lemma binom_1_r n : binom n 1 = Z.of_nat n.
Proof.
  induction n as [|n IH]; [reflexivity|].
  change (binom (S n) 1) with (binom n 1 + binom n 0).
  rewrite IH, binom_0_r. lia.
Qed.

Lemma factorial_pos n : 0 < factorial n.
Proof. induction n as [|n IH]; simpl factorial; [lia|]. nia. Qed.

(** [binom n k * k! * (n-k)! = n!]. *)
Lemma binom_factorial n k :
  (k <= n)%nat -> binom n k * (factorial k * factorial (n - k)) = factorial n.
Proof.
  revert k. induction n as [|n IH]; intros k Hk.
  - assert (k = O) by lia. subst. reflexivity.
  - destruct k as [|k].
    + rewrite binom_0_r. simpl (factorial 0). rewrite Nat.sub_0_r. lia.
    + change (binom (S n) (S k)) with (binom n (S k) + binom n k).
      replace (S n - S k)%nat with (n - k)%nat by lia.
      destruct (decide (k = n)) as [->|Hne].
      * rewrite binom_gt by lia. rewrite binom_diag, Nat.sub_diag. simpl (factorial 0). lia.
      * assert (H1 := IH (S k) ltac:(lia)).
        assert (H2 := IH k ltac:(lia)).
        replace (n - k)%nat with (S (n - S k)) in * by lia.
        set (a := binom n (S k)) in *. set (b := binom n k) in *.
        change (factorial (S k)) with (Z.of_nat (S k) * factorial k) in *.
        change (factorial (S (n - S k)))
          with (Z.of_nat (S (n - S k)) * factorial (n - S k)) in *.
        change (factorial (S n)) with (Z.of_nat (S n) * factorial n).
        set (fk := factorial k) in *. set (fd := factorial (n - S k)) in *.
        replace (Z.of_nat (S n))
          with (Z.of_nat (S k) + Z.of_nat (S (n - S k))) by lia.
        set (x := Z.of_nat (S k)) in *.
        set (y := Z.of_nat (S (n - S k))) in *.
        transitivity (y * (a * (x * fk * fd)) + x * (b * (fk * (y * fd)))); [ring|].
        rewrite H1, H2. ring.
Qed.

Lemma binom_closed n k : (k <= n)%nat -> binom n k = binomial_closed n k.
Proof.
  intros H. unfold binomial_closed. rewrite <- (binom_factorial n k H).
  symmetry. apply Z.div_mul.
  pose proof (factorial_pos k). pose proof (factorial_pos (n - k)). nia.
Qed.

(** ** The vertex-weight table *)

Lemma table_shape_replicate R C :
  table_shape R C (replicate R (replicate C 0)).
Proof.
  split; [apply length_replicate|].
  intros i row H. apply lookup_replicate in H as [-> _]. apply length_replicate.
Qed.

Lemma table_lookup_replicate R C p m :
  table_lookup (replicate R (replicate C 0)) p m = 0.
Proof.
  unfold table_lookup.
  destruct (replicate R (replicate C 0) !! Z.to_nat p) as [row|] eqn:E; [|reflexivity].
  apply lookup_replicate in E as [-> _].
  destruct (replicate C 0 !! Z.to_nat m) as [w|] eqn:E'; [|reflexivity].
  now apply lookup_replicate in E' as [-> _].
Qed.

Lemma read_weight_ok R C t p m :
  table_shape R C t -> 0 <= p < Z.of_nat R -> 0 <= m < Z.of_nat C ->
  read_weight t p m = Ok (table_lookup t p m).
Proof.
  intros [HR HC] Hp Hm. unfold read_weight, table_lookup.
  destruct (lookup_lt_is_Some_2 t (Z.to_nat p)) as [row Hrow]; [lia|].
  rewrite Hrow. pose proof (HC _ _ Hrow) as Hlen.
  destruct (lookup_lt_is_Some_2 row (Z.to_nat m)) as [w Hw]; [lia|].
  now rewrite Hw.
Qed.

Lemma write_weight_ok R C t p m w :
  table_shape R C t -> 0 <= p < Z.of_nat R -> 0 <= m < Z.of_nat C ->
  exists t', write_weight p m w t = Ok t' /\ table_shape R C t' /\
    forall p' m', 0 <= p' -> 0 <= m' ->
      table_lookup t' p' m' = if (p' =? p) && (m' =? m) then w else table_lookup t p' m'.
Proof.
  intros [HR HC] Hp Hm. unfold write_weight.
  destruct (lookup_lt_is_Some_2 t (Z.to_nat p)) as [row Hrow]; [lia|].
  rewrite Hrow. pose proof (HC _ _ Hrow) as Hlen.
  destruct (decide (Z.to_nat m < length row)%nat) as [Hlt|]; [|lia].
  eexists. split; [reflexivity|]. split.
  - split; [now rewrite length_insert|].
    intros i r Hi. destruct (decide (i = Z.to_nat p)) as [->|Hne].
    + rewrite list_lookup_insert_eq in Hi by lia. inversion Hi; subst.
      now rewrite length_insert.
    + rewrite list_lookup_insert_ne in Hi by congruence. eauto.
  - intros p' m' Hp' Hm'. unfold table_lookup.
    destruct (Z.eqb_spec p' p) as [->|Hne]; simpl.
    + rewrite list_lookup_insert_eq by lia. rewrite Hrow.
      destruct (Z.eqb_spec m' m) as [->|Hne'].
      * now rewrite list_lookup_insert_eq by lia.
      * rewrite list_lookup_insert_ne by lia. reflexivity.
    + rewrite list_lookup_insert_ne by lia. reflexivity.
Qed.

Lemma binomC_pascal p m :
  1 <= p -> 1 <= m -> binomC p m = binomC (p - 1) m + binomC (p - 1) (m - 1).
Proof.
  intros Hp Hm. unfold binomC.
  replace (Z.to_nat p) with (S (Z.to_nat (p - 1))) by lia.
  replace (Z.to_nat m) with (S (Z.to_nat (m - 1))) at 1 by lia.
  simpl. replace (S (Z.to_nat (m - 1))) with (Z.to_nat m) by lia. reflexivity.
Qed.

Lemma binomC_0_r p : binomC p 0 = 1.
Proof. unfold binomC. apply binom_0_r. Qed.

Lemma binomC_gt p m : 0 <= p < m -> binomC p m = 0.
Proof. intros H. unfold binomC. apply binom_gt. lia. Qed.

Lemma binomC_nonneg p m : 0 <= binomC p m.
Proof. apply binom_nonneg. Qed.

Lemma weight_spec_column_0 M N p :
  0 <= N <= M -> 0 <= p ->
  weight_spec M N p 0 = if p <=? M - N then 1 else 0.
Proof.
  intros HN Hp. unfold weight_spec. rewrite binomC_0_r, Z.sub_0_r.
  destruct (Z.leb_spec p (M - N)); destruct (Z.leb_spec p M);
    destruct (Z.leb_spec 0 N); simpl; try reflexivity; lia.
Qed.

Lemma weight_spec_pascal M N p m :
  1 <= m <= N -> m <= p <= M - N + m ->
  weight_spec M N p m =
    wrap (weight_spec M N (p - 1) m + weight_spec M N (p - 1) (m - 1)).
Proof.
  intros Hm Hp. unfold weight_spec.
  repeat match goal with
  | |- context [?a <=? ?b] => destruct (Z.leb_spec a b); try lia
  end; simpl.
  rewrite wrap_add. f_equal. apply binomC_pascal; lia.
Qed.

Lemma weight_spec_outside_band M N p m :
  0 <= p -> 0 <= m -> p < m \/ M - N + m < p -> weight_spec M N p m = 0.
Proof.
  intros Hp Hm H. unfold weight_spec.
  destruct ((p <=? M) && (m <=? N) && (p - m <=? M - N)) eqn:E; [|reflexivity].
  apply andb_prop in E as [E E3]. apply andb_prop in E as [E1 E2].
  destruct H as [H|H]; [|lia]. rewrite binomC_gt by lia. reflexivity.
Qed.

(** The constructor fills the table with [weight_spec]. *)
Lemma construct_table M N :
  0 <= N <= M -> M + 1 < word_modulus ->
  exists t, construct M N = Ok (mkONVBasis M N t) /\
    table_shape (Z.to_nat (M + 1)) (Z.to_nat (N + 1)) t /\
    forall p m, 0 <= p -> 0 <= m -> table_lookup t p m = weight_spec M N p m.
Proof.
  intros HN HM. unfold construct.
  rewrite !(wrap_small (M + 1)), !(wrap_small (N + 1)), !(wrap_small (M - N + 1))
    by (unfold word_modulus in *; lia).
  set (R := Z.to_nat (M + 1)). set (C := Z.to_nat (N + 1)).
  (* first loop *)
  destruct (for_range_invariant
    (fun j t => table_shape R C t /\ forall p m, 0 <= p -> 0 <= m ->
       table_lookup t p m = if (m =? 0) && (p <? j) then 1 else 0)
    (fun p t => write_weight p 0 1 t) 0 (M - N + 1) (replicate R (replicate C 0)))
    as (t1 & Ht1 & Hs1 & Hl1).
  { lia. }
  { split; [apply table_shape_replicate|]. intros p m Hp Hm.
    rewrite table_lookup_replicate.
    destruct (Z.ltb_spec p 0); [lia|]. now rewrite andb_false_r. }
  { intros j t Hj [Hs Hl].
    destruct (write_weight_ok R C t j 0 1 Hs) as (t' & Hw & Hs' & Hl'); [lia|lia|].
    exists t'. split; [assumption|]. split; [assumption|].
    intros p m Hp Hm. rewrite Hl', Hl by assumption.
    destruct (Z.eqb_spec p j), (Z.eqb_spec m 0), (Z.ltb_spec p j), (Z.ltb_spec p (j + 1));
      simpl; try reflexivity; lia. }
  rewrite Ht1. cbn [mbind outcome_bind].
  (* second loop *)
  destruct (for_range_invariant
    (fun m0 t => table_shape R C t /\ forall p m, 0 <= p -> 0 <= m ->
       table_lookup t p m = if m <? m0 then weight_spec M N p m else 0)
    (fun m t => for_range m (wrap (M - N + m + 1)) (fun p t =>
            a ← read_weight t (p - 1) m;
            b ← read_weight t (p - 1) (m - 1);
            write_weight p m (wrap (a + b)) t) t) 1 (N + 1) t1)
    as (t2 & Ht2 & Hs2 & Hl2).
  { lia. }
  { split; [assumption|]. intros p m Hp Hm. rewrite Hl1 by assumption.
    destruct (Z.eqb_spec m 0) as [->|Hne]; simpl.
    - rewrite weight_spec_column_0 by lia.
      destruct (Z.ltb_spec p (M - N + 1)), (Z.leb_spec p (M - N)); try reflexivity; lia.
    - destruct (Z.ltb_spec m 1); [lia|reflexivity]. }
  { intros m0 t Hm0 [Hs Hl].
    rewrite (wrap_small (M - N + m0 + 1)) by (unfold word_modulus in *; lia).
    destruct (for_range_invariant
      (fun p0 t => table_shape R C t /\ forall p m, 0 <= p -> 0 <= m ->
         table_lookup t p m =
           if (m <? m0) || ((m =? m0) && (p <? p0)) then weight_spec M N p m else 0)
      (fun p t =>
            a ← read_weight t (p - 1) m0;
            b ← read_weight t (p - 1) (m0 - 1);
            write_weight p m0 (wrap (a + b)) t) m0 (M - N + m0 + 1) t)
      as (t' & Ht' & Hs' & Hl').
    { lia. }
    { split; [assumption|]. intros p m Hp Hm. rewrite Hl by assumption.
      destruct (Z.ltb_spec m m0); simpl; [reflexivity|].
      destruct (Z.eqb_spec m m0) as [->|]; simpl; [|reflexivity].
      destruct (Z.ltb_spec p m0); [|reflexivity].
      symmetry. apply weight_spec_outside_band; lia. }
    { intros p0 u Hp0 [Hsu Hlu].
      rewrite (read_weight_ok R C u (p0 - 1) m0 Hsu) by lia.
      cbn [mbind outcome_bind].
      rewrite (read_weight_ok R C u (p0 - 1) (m0 - 1) Hsu) by lia.
      cbn [mbind outcome_bind].
      destruct (write_weight_ok R C u p0 m0
                  (wrap (table_lookup u (p0 - 1) m0 + table_lookup u (p0 - 1) (m0 - 1))) Hsu)
        as (u' & Hw & Hsu' & Hlu'); [lia|lia|].
      exists u'. split; [assumption|]. split; [assumption|].
      intros p m Hp Hm. rewrite Hlu' by assumption.
      rewrite !Hlu by lia.
      destruct (Z.eqb_spec p p0) as [->|Hpne]; simpl.
      - destruct (Z.eqb_spec m m0) as [->|Hmne]; simpl.
        + replace (m0 <? m0) with false by (symmetry; apply Z.ltb_ge; lia).
          replace (m0 - 1 <? m0) with true by (symmetry; apply Z.ltb_lt; lia).
          replace (p0 - 1 <? p0) with true by (symmetry; apply Z.ltb_lt; lia).
          replace (p0 <? p0 + 1) with true by (symmetry; apply Z.ltb_lt; lia).
          rewrite Z.eqb_refl. simpl.
          symmetry. apply weight_spec_pascal; lia.
        + destruct (Z.ltb_spec m m0); simpl; reflexivity.
      - destruct (Z.ltb_spec m m0); simpl; [reflexivity|].
        destruct (Z.eqb_spec m m0); simpl; [|reflexivity].
        destruct (Z.ltb_spec p p0), (Z.ltb_spec p (p0 + 1)); try reflexivity; lia. }
    exists t'. split; [assumption|]. split; [assumption|].
    intros p m Hp Hm. rewrite Hl' by assumption.
    destruct (Z.ltb_spec m m0), (Z.ltb_spec m (m0 + 1)); simpl; try reflexivity; try lia.
    - destruct (Z.eqb_spec m m0) as [->|]; [|lia]. simpl.
      destruct (Z.ltb_spec p (M - N + m0 + 1)); [reflexivity|].
      symmetry. apply weight_spec_outside_band; lia.
    - destruct (Z.eqb_spec m m0); [lia|]. reflexivity. }
  rewrite Ht2. cbn [mbind outcome_bind].
  exists t2. split; [reflexivity|]. split; [assumption|].
  intros p m Hp Hm. rewrite Hl2 by assumption.
  destruct (Z.ltb_spec m (N + 1)); [reflexivity|].
  unfold weight_spec. destruct (Z.leb_spec m N); [lia|].
  now rewrite andb_false_r.
Qed.

Lemma binom_succ_l n k : binom n k <= binom (S n) k.
Proof.
  destruct k as [|k]; [rewrite !binom_0_r; lia|].
  change (binom (S n) (S k)) with (binom n (S k) + binom n k).
  pose proof (binom_nonneg n k). lia.
Qed.

Lemma binom_succ_both n k : binom n k <= binom (S n) (S k).
Proof.
  change (binom (S n) (S k)) with (binom n (S k) + binom n k).
  pose proof (binom_nonneg n (S k)). lia.
Qed.

Lemma binom_mono_l n n' k : (n <= n')%nat -> binom n k <= binom n' k.
Proof.
  induction 1 as [|n' _ IH]; [lia|]. pose proof (binom_succ_l n' k). lia.
Qed.

Lemma binom_shift n k d : binom n k <= binom (n + d) (k + d).
Proof.
  induction d as [|d IH]; [now rewrite !Nat.add_0_r|].
  rewrite !Nat.add_succ_r. pose proof (binom_succ_both (n + d) (k + d)). lia.
Qed.

(** Inside the band every weight is bounded by the corner weight. *)
Lemma binomC_band_bound M N p m :
  0 <= m <= N -> 0 <= p -> p - m <= M - N -> binomC p m <= binomC M N.
Proof.
  intros Hm Hp Hb. unfold binomC.
  pose proof (binom_shift (Z.to_nat p) (Z.to_nat m) (Z.to_nat (N - m))) as H1.
  replace (Z.to_nat m + Z.to_nat (N - m))%nat with (Z.to_nat N) in H1 by lia.
  pose proof (binom_mono_l (Z.to_nat p + Z.to_nat (N - m)) (Z.to_nat M) (Z.to_nat N)
                ltac:(lia)) as H2.
  lia.
Qed.

Lemma weight_spec_exact M N p m :
  binomC M N < word_modulus -> 0 <= m <= N -> 0 <= p <= M -> p - m <= M - N ->
  weight_spec M N p m = binomC p m.
Proof.
  intros Hdim Hm Hp Hb. unfold weight_spec.
  destruct (Z.leb_spec p M), (Z.leb_spec m N), (Z.leb_spec (p - m) (M - N)); try lia.
  simpl. apply wrap_small. split; [apply binomC_nonneg|].
  pose proof (binomC_band_bound M N p m). lia.
Qed.

Lemma weight_spec_corner M N :
  0 <= N <= M -> weight_spec M N M N = wrap (binomC M N).
Proof.
  intros H. unfold weight_spec.
  destruct (Z.leb_spec M M), (Z.leb_spec N N), (Z.leb_spec (M - N) (M - N)); try lia.
  reflexivity.
Qed.

(** C2 (as amended).  For [N <= M] (and [M + 1] a [size_t]) the constructor
    completes and leaves a table whose column 0 holds 1 in rows [0..M-N] and 0
    below, whose columns [m >= 1] satisfy, in rows [m..M-N+m], the recurrence
    [W(p,m) = W(p-1,m) + W(p-1,m-1)] in [size_t] arithmetic, that is modulo
    [2^64], and hold 0 in the other rows; the entry [(M,N)] is [C(M,N)] modulo
    [2^64].  Whenever [C(M,N)] itself is below [2^64], no reduction takes
    place: the recurrence holds over the integers and the entry [(M,N)] is
    exactly [C(M,N)]. *)
Theorem vertex_weights_construction (M N : Z) :
  0 <= N <= M -> M + 1 < word_modulus ->
  exists b, construct M N = Ok b /\
    numberOfOrbitals b = M /\ numberOfElectrons b = N /\
    (forall p, 0 <= p <= M -> vertexWeight b p 0 = if p <=? M - N then 1 else 0) /\
    (forall p m, 1 <= m <= N -> m <= p <= M - N + m ->
       vertexWeight b p m
         = wrap (vertexWeight b (p - 1) m + vertexWeight b (p - 1) (m - 1))) /\
    (forall p m, 1 <= m <= N -> 0 <= p <= M -> p < m \/ M - N + m < p ->
       vertexWeight b p m = 0) /\
    vertexWeight b M N = wrap (binomC M N) /\
    (binomC M N < word_modulus ->
       (forall p m, 1 <= m <= N -> m <= p <= M - N + m ->
          vertexWeight b p m = vertexWeight b (p - 1) m + vertexWeight b (p - 1) (m - 1)) /\
       vertexWeight b M N = binomC M N).
Proof.
  intros HN HM.
  destruct (construct_table M N HN HM) as (t & Hc & Hs & Hl).
  exists (mkONVBasis M N t). split; [assumption|].
  split; [reflexivity|]. split; [reflexivity|].
  unfold vertexWeight. cbn [vertex_weights].
  split; [|split; [|split; [|split]]].
  - intros p Hp. rewrite Hl by lia. apply weight_spec_column_0; lia.
  - intros p m Hm Hp. rewrite !Hl by lia. apply weight_spec_pascal; lia.
  - intros p m Hm Hp Hout. rewrite Hl by lia. apply weight_spec_outside_band; lia.
  - rewrite Hl by lia. apply weight_spec_corner; lia.
  - intros Hdim. split.
    + intros p m Hm Hp. rewrite !Hl by lia.
      rewrite !weight_spec_exact by lia. apply binomC_pascal; lia.
    + rewrite Hl by lia. apply weight_spec_exact; lia.
Qed.

(** C2 at 5 orbitals and 2 electrons. *)
Lemma vertex_weights_construction_witness :
  exists b, construct 5 2 = Ok b /\
    numberOfOrbitals b = 5 /\ numberOfElectrons b = 2 /\
    (forall p, 0 <= p <= 5 -> vertexWeight b p 0 = if p <=? 5 - 2 then 1 else 0) /\
    (forall p m, 1 <= m <= 2 -> m <= p <= 5 - 2 + m ->
       vertexWeight b p m
         = wrap (vertexWeight b (p - 1) m + vertexWeight b (p - 1) (m - 1))) /\
    (forall p m, 1 <= m <= 2 -> 0 <= p <= 5 -> p < m \/ 5 - 2 + m < p ->
       vertexWeight b p m = 0) /\
    vertexWeight b 5 2 = wrap (binomC 5 2) /\
    (binomC 5 2 < word_modulus ->
       (forall p m, 1 <= m <= 2 -> m <= p <= 5 - 2 + m ->
          vertexWeight b p m = vertexWeight b (p - 1) m + vertexWeight b (p - 1) (m - 1)) /\
       vertexWeight b 5 2 = binomC 5 2).
Proof.
  apply (vertex_weights_construction 5 2); [lia | reflexivity].
Defined.

Lemma binomC_closed n k :
  0 <= k <= n -> binomC n k = binomial_closed (Z.to_nat n) (Z.to_nat k).
Proof. intros H. unfold binomC. apply binom_closed. lia. Qed.

(** C2 as stated fails: with 68 orbitals and 34 electrons the entry [(M,N)]
    of the constructed table is not [C(68,34)], which exceeds [2^64]. *)
Lemma vertex_weights_wrap_68_34 :
  exists b, construct 68 34 = Ok b /\ vertexWeight b 68 34 <> binomC 68 34.
Proof.
  destruct (construct 68 34) as [b| |] eqn:E; try (vm_compute in E; discriminate).
  exists b. split; [reflexivity|].
  rewrite binomC_closed by lia.
  assert (Ok b = construct 68 34) as Hb by (symmetry; exact E).
  vm_compute in Hb. inversion Hb; subst. vm_compute. discriminate.
Qed.

(** ** Construction with more electrons than orbitals *)

Lemma for_loop_split {St : Type} (body : Z -> St -> outcome St) n1 n2 i (s : St) :
  for_loop (n1 + n2) i body s =
    (s' ← for_loop n1 i body s; for_loop n2 (i + Z.of_nat n1) body s').
Proof.
  revert i s. induction n1 as [|n1 IH]; intros i s.
  - simpl. now replace (i + Z.of_nat 0) with i by lia.
  - cbn [Nat.add for_loop]. destruct (body i s) as [s'| |]; try reflexivity.
    rewrite IH. now replace (i + 1 + Z.of_nat n1) with (i + Z.of_nat (S n1)) by lia.
Qed.

Lemma write_weight_outside t p m w :
  (length t <= Z.to_nat p)%nat -> write_weight p m w t = Undefined.
Proof.
  intros H. unfold write_weight. now rewrite lookup_ge_None_2.
Qed.

(** A column-0 sweep that runs past the last row of the table has no defined
    behaviour. *)
Lemma first_loop_overrun R C hi :
  (0 < C)%nat -> Z.of_nat R < hi ->
  for_range 0 hi (fun p t => write_weight p 0 1 t) (replicate R (replicate C 0))
    = Undefined.
Proof.
  intros HC Hhi. unfold for_range.
  replace (Z.to_nat (hi - 0)) with (R + S (Z.to_nat (hi - 1 - Z.of_nat R)))%nat by lia.
  rewrite for_loop_split.
  destruct (for_loop_invariant (fun _ t => table_shape R C t)
              (fun p t => write_weight p 0 1 t) R 0 (replicate R (replicate C 0)))
    as (t & Ht & Hs).
  - apply table_shape_replicate.
  - intros j u Hj Hu.
    destruct (write_weight_ok R C u j 0 1 Hu) as (u' & Hw & Hu' & _); [lia|lia|].
    exists u'. split; assumption.
  - rewrite Ht. cbn [mbind outcome_bind for_loop].
    rewrite write_weight_outside; [reflexivity|]. destruct Hs as [-> _]. lia.
Qed.

(** C9 (as amended).  The constructor does not compare [N] with [M] and never
    raises an invalid-argument error.  With [N = M + 1] the [size_t] loop
    bounds [M - N + 1] and [(M - N + m) + 1] wrap around to empty ranges and
    construction completes with an all-zero [(M+1)x(N+1)] table; with
    [N > M + 1] the first loop runs past the last row of the table, which has
    no defined behaviour. *)
Theorem construct_more_electrons_than_orbitals (M N : Z) :
  0 <= M < N -> N + 1 < word_modulus ->
  construct M N <> Throw InvalidArgument /\
  (N = M + 1 ->
     construct M N
       = Ok (mkONVBasis M N (replicate (Z.to_nat (M + 1)) (replicate (Z.to_nat (N + 1)) 0)))) /\
  (M + 1 < N -> construct M N = Undefined).
Proof.
  intros HM HN.
  assert (Hw1 : wrap (M + 1) = M + 1) by (apply wrap_small; unfold word_modulus in *; lia).
  assert (Hw2 : wrap (N + 1) = N + 1) by (apply wrap_small; unfold word_modulus in *; lia).
  assert (Hone : N = M + 1 ->
     construct M N
       = Ok (mkONVBasis M N (replicate (Z.to_nat (M + 1)) (replicate (Z.to_nat (N + 1)) 0)))).
  { intros ->. unfold construct. rewrite Hw1, Hw2.
    replace (M - (M + 1) + 1) with 0 by lia.
    rewrite for_range_empty by (vm_compute; discriminate).
    cbn [mbind outcome_bind].
    set (zero := replicate (Z.to_nat (M + 1)) (replicate (Z.to_nat (M + 1 + 1)) 0)).
    destruct (for_range_invariant (fun _ t => t = zero)
      (fun m t => for_range m (wrap (M - (M + 1) + m + 1)) (fun p t =>
            a ← read_weight t (p - 1) m;
            b ← read_weight t (p - 1) (m - 1);
            write_weight p m (wrap (a + b)) t) t) 1 (M + 1 + 1) zero)
      as (t & Ht & ->); [lia|reflexivity| |].
    - intros j t Hj ->. exists zero. split; [|reflexivity].
      replace (M - (M + 1) + j + 1) with j by lia.
      apply for_range_empty. rewrite wrap_small by (unfold word_modulus in *; lia). lia.
    - rewrite Ht. reflexivity. }
  assert (Hmany : M + 1 < N -> construct M N = Undefined).
  { intros Hlt. unfold construct. rewrite Hw1, Hw2.
    rewrite first_loop_overrun; [reflexivity|lia|].
    unfold wrap. replace (M - N + 1) with (M - N + 1 + word_modulus + (-1) * word_modulus) by lia.
    rewrite Z.mod_add by (vm_compute; discriminate).
    rewrite Z.mod_small by (unfold word_modulus in *; lia).
    unfold word_modulus in *; lia. }
  split; [|split; assumption].
  destruct (Z.eq_dec N (M + 1)) as [E|E].
  - rewrite (Hone E). discriminate.
  - rewrite Hmany by lia. discriminate.
Qed.

(** C9 at 2 orbitals and 3 electrons. *)
Lemma construct_more_electrons_than_orbitals_witness :
  construct 2 3 <> Throw InvalidArgument /\
  (3 = 2 + 1 ->
     construct 2 3
       = Ok (mkONVBasis 2 3 (replicate (Z.to_nat (2 + 1)) (replicate (Z.to_nat (3 + 1)) 0)))) /\
  (2 + 1 < 3 -> construct 2 3 = Undefined).
Proof.
  apply (construct_more_electrons_than_orbitals 2 3); [lia | reflexivity].
Defined.

(** C9 as stated fails: constructing a basis of 2 orbitals and 3 electrons
    raises no error; it completes, with an all-zero table. *)
Lemma construct_2_3_completes :
  construct 2 3
    = Ok (mkONVBasis 2 3 [[0; 0; 0; 0]; [0; 0; 0; 0]; [0; 0; 0; 0]]) /\
  construct 2 3 <> Throw InvalidArgument.
Proof.
  split; [vm_compute; reflexivity | vm_compute; discriminate].
Qed.

(** ** Bit-level facts *)

(** A number written as a high part [h] above [n] low bits [r]. *)
Lemma testbit_join h r n i :
  0 <= n -> 0 <= r < 2 ^ n -> 0 <= i ->
  Z.testbit (h * 2 ^ n + r) i = if i <? n then Z.testbit r i else Z.testbit h (i - n).
Proof.
  intros Hn Hr Hi. destruct (Z.ltb_spec i n) as [Hlt|Hge].
  - rewrite <- (Z.mod_pow2_bits_low (h * 2 ^ n + r) n i Hlt).
    rewrite Z.add_comm, Z.mod_add by lia. now rewrite Z.mod_small.
  - replace i with ((i - n) + n) at 1 by lia.
    rewrite <- Z.div_pow2_bits by lia.
    rewrite Z.div_add_l by lia. rewrite (Z.div_small r) by lia.
    now rewrite Z.add_0_r.
Qed.

Lemma testbit_small_high r n i :
  0 <= n -> 0 <= r < 2 ^ n -> n <= i -> Z.testbit r i = false.
Proof.
  intros Hn Hr Hi. rewrite <- (Z.mod_small r (2 ^ n)) by lia.
  apply Z.mod_pow2_bits_high. lia.
Qed.

Lemma bounded_by_bits x n :
  0 <= n -> 0 <= x -> (forall i, n <= i -> Z.testbit x i = false) -> x < 2 ^ n.
Proof.
  intros Hn Hx H.
  destruct (Z.eq_dec x 0) as [->|Hne]; [lia|].
  apply Z.log2_lt_pow2; [lia|].
  destruct (Z.lt_ge_cases (Z.log2 x) n) as [|Hge]; [assumption|].
  pose proof (Z.bit_log2 x ltac:(lia)) as Hb.
  rewrite H in Hb by assumption. discriminate.
Qed.

Section Join.
Variables (h h' r r' n : Z).
Hypothesis Hn : 0 <= n.
Hypothesis Hr : 0 <= r < 2 ^ n.
Hypothesis Hr' : 0 <= r' < 2 ^ n.

Lemma lor_small : 0 <= Z.lor r r' < 2 ^ n.
Proof.
  split; [apply Z.lor_nonneg; lia|].
  apply bounded_by_bits; [lia|apply Z.lor_nonneg; lia|].
  intros i Hi. rewrite Z.lor_spec, !(testbit_small_high _ n) by lia. reflexivity.
Qed.

Lemma land_small : 0 <= Z.land r r' < 2 ^ n.
Proof.
  split; [apply Z.land_nonneg; lia|].
  apply bounded_by_bits; [lia|apply Z.land_nonneg; lia|].
  intros i Hi. rewrite Z.land_spec, !(testbit_small_high _ n) by lia. reflexivity.
Qed.

Lemma lxor_small : 0 <= Z.lxor r r' < 2 ^ n.
Proof.
  split; [apply Z.lxor_nonneg; lia|].
  apply bounded_by_bits; [lia|apply Z.lxor_nonneg; lia|].
  intros i Hi. rewrite Z.lxor_spec, !(testbit_small_high _ n) by lia. reflexivity.
Qed.

Lemma lor_join :
  Z.lor (h * 2 ^ n + r) (h' * 2 ^ n + r') = Z.lor h h' * 2 ^ n + Z.lor r r'.
Proof.
  apply Z.bits_inj'. intros i Hi.
  rewrite Z.lor_spec, !testbit_join by (lia || apply lor_small).
  destruct (i <? n); now rewrite Z.lor_spec.
Qed.

Lemma land_join :
  Z.land (h * 2 ^ n + r) (h' * 2 ^ n + r') = Z.land h h' * 2 ^ n + Z.land r r'.
Proof.
  apply Z.bits_inj'. intros i Hi.
  rewrite Z.land_spec, !testbit_join by (lia || apply land_small).
  destruct (i <? n); now rewrite Z.land_spec.
Qed.

Lemma lxor_join :
  Z.lxor (h * 2 ^ n + r) (h' * 2 ^ n + r') = Z.lxor h h' * 2 ^ n + Z.lxor r r'.
Proof.
  apply Z.bits_inj'. intros i Hi.
  rewrite Z.lxor_spec, !testbit_join by (lia || apply lxor_small).
  destruct (i <? n); now rewrite Z.lxor_spec.
Qed.

Lemma shiftr_join : Z.shiftr (h * 2 ^ n + r) n = h.
Proof.
  rewrite Z.shiftr_div_pow2 by lia.
  rewrite Z.div_add_l by lia. rewrite Z.div_small by lia. lia.
Qed.
End Join.

(** Only the low 64 bits of the other operand matter to a [size_t]. *)
Lemma land_wrap_r x y :
  0 <= x < word_modulus -> Z.land x (wrap y) = Z.land x y.
Proof.
  intros Hx. apply Z.bits_inj'. intros i Hi.
  rewrite !Z.land_spec. unfold wrap, word_modulus.
  rewrite Z.testbit_mod_pow2 by lia.
  destruct (Z.ltb_spec i 64); [reflexivity|].
  rewrite (testbit_small_high x 64) by (unfold word_modulus in Hx; lia). reflexivity.
Qed.

Lemma land_wrap_l x y :
  0 <= x < word_modulus -> Z.land (wrap y) x = Z.land y x.
Proof. intros Hx. rewrite !(Z.land_comm _ x). now apply land_wrap_r. Qed.

Lemma pow2_pos n : 0 <= n -> 0 < 2 ^ n.
Proof. intros. apply Z.pow_pos_nonneg; lia. Qed.

Ltac small_bits :=
  solve [ lia
        | split; [lia | apply pow2_pos; lia]
        | match goal with |- context [2 ^ ?n] => pose proof (pow2_pos n ltac:(lia)); lia end ].

(** *** Trailing zeros and the lowest set bit *)

Lemma ctzl_double x : 0 < x -> ctzl (2 * x) = ctzl x + 1.
Proof.
  destruct x as [|p|p]; try lia. intros _.
  change (2 * Z.pos p) with (Z.pos p~0). cbn [ctzl trailing_zeros]. lia.
Qed.

Lemma ctzl_odd x : 0 <= x -> ctzl (2 * x + 1) = 0.
Proof. destruct x; try lia; reflexivity. Qed.

Lemma ctzl_nonneg x : 0 <= ctzl x.
Proof.
  destruct x as [|p|p]; simpl; try lia.
  induction p; simpl; lia.
Qed.

Lemma ctzl_shift a j : 0 <= a -> 0 <= j -> ctzl ((2 * a + 1) * 2 ^ j) = j.
Proof.
  intros Ha Hj. revert j Hj. apply natlike_ind.
  - rewrite Z.mul_1_r. now apply ctzl_odd.
  - intros j Hj IH. rewrite Z.pow_succ_r by lia.
    replace ((2 * a + 1) * (2 * 2 ^ j)) with (2 * ((2 * a + 1) * 2 ^ j)) by ring.
    rewrite ctzl_double by nia. lia.
Qed.

(** [x & -x] isolates the lowest set bit. *)
Lemma land_opp_odd a : Z.land (2 * a + 1) (- (2 * a + 1)) = 1.
Proof.
  replace (- (2 * a + 1)) with (2 * Z.lnot a + 1) by (rewrite Z.lnot_eq_pred_opp; lia).
  apply Z.bits_inj'. intros i Hi. rewrite Z.land_spec.
  destruct (Z.eq_dec i 0) as [->|Hne].
  - rewrite !Z.testbit_odd_0. reflexivity.
  - replace i with (Z.succ (i - 1)) by lia.
    rewrite !Z.testbit_odd_succ by lia.
    rewrite Z.lnot_spec by lia.
    change 1 with (2 * 0 + 1). rewrite Z.testbit_odd_succ by lia.
    rewrite Z.testbit_0_l. apply andb_negb_r.
Qed.

Lemma land_opp_shift a j :
  0 <= j -> Z.land ((2 * a + 1) * 2 ^ j) (- ((2 * a + 1) * 2 ^ j)) = 2 ^ j.
Proof.
  intros Hj.
  replace ((2 * a + 1) * 2 ^ j) with ((2 * a + 1) * 2 ^ j + 0) by lia.
  replace (- ((2 * a + 1) * 2 ^ j + 0)) with ((- (2 * a + 1)) * 2 ^ j + 0) by ring.
  rewrite land_join by small_bits. rewrite land_opp_odd, Z.land_0_l. lia.
Qed.

(** Every positive number is an odd number times a power of two. *)
Lemma odd_shift_decomposition x :
  0 < x -> exists a j, 0 <= a /\ 0 <= j /\ x = (2 * a + 1) * 2 ^ j.
Proof.
  destruct x as [|p|p]; try lia. intros _.
  induction p as [p IH|p IH|].
  - exists (Z.pos p), 0. split; [lia|]. split; [lia|]. rewrite Z.mul_1_r. lia.
  - destruct IH as (a & j & Ha & Hj & E).
    exists a, (j + 1). split; [lia|]. split; [lia|].
    rewrite Z.pow_add_r by lia. rewrite Pos2Z.inj_xO, E. ring.
  - exists 0, 0. split; [lia|]. split; [lia|]. reflexivity.
Qed.

Lemma land_opp_lowbit x : 0 < x -> Z.land x (- x) = 2 ^ ctzl x.
Proof.
  intros Hx. destruct (odd_shift_decomposition x Hx) as (a & j & Ha & Hj & ->).
  rewrite land_opp_shift, ctzl_shift by lia. reflexivity.
Qed.

(** Clearing the lowest set bit, as [addressOf] does. *)
Lemma clear_lowbit x :
  0 < x < word_modulus ->
  Z.lxor x (Z.land x (wrap (- x))) = x - 2 ^ ctzl x.
Proof.
  intros Hx. rewrite land_wrap_r by lia. rewrite land_opp_lowbit by lia.
  destruct (odd_shift_decomposition x ltac:(lia)) as (a & j & Ha & Hj & ->).
  rewrite ctzl_shift by lia.
  replace ((2 * a + 1) * 2 ^ j) with ((2 * a + 1) * 2 ^ j + 0) at 1 by lia.
  replace (2 ^ j) with (1 * 2 ^ j + 0) at 2 by lia.
  rewrite lxor_join by small_bits.
  replace (Z.lxor (2 * a + 1) 1) with (2 * a).
  - rewrite Z.lxor_0_l. ring.
  - replace 1 with (0 * 2 ^ 1 + 1) at 2 by reflexivity.
    replace (2 * a + 1) with (a * 2 ^ 1 + 1) by lia.
    rewrite lxor_join by lia. rewrite Z.lxor_0_r, Z.lxor_nilpotent. lia.
Qed.

(** ** The next-permutation bit trick *)

Lemma pow2_lt_inv a b : 0 <= a -> 0 <= b -> 2 ^ a < 2 ^ b -> a < b.
Proof. intros Ha Hb H. apply (Z.pow_lt_mono_r_iff 2); lia. Qed.

Lemma pow2_le_mono a b : 0 <= a <= b -> 2 ^ a <= 2 ^ b.
Proof. intros H. apply Z.pow_le_mono_r; lia. Qed.

Lemma pow2_word n : 0 <= n < 64 -> 0 < 2 ^ n < word_modulus.
Proof.
  intros H. split; [apply pow2_pos; lia|].
  pose proof (pow2_le_mono n 63 ltac:(lia)).
  assert (2 ^ 63 < word_modulus) by reflexivity. lia.
Qed.

Lemma lor_odd_pred a : Z.lor (2 * a + 1) (2 * a) = 2 * a + 1.
Proof.
  replace (2 * a + 1) with (a * 2 ^ 1 + 1) by lia.
  replace (2 * a) with (a * 2 ^ 1 + 0) by lia.
  rewrite lor_join by lia. rewrite Z.lor_diag, Z.lor_0_r. reflexivity.
Qed.

(** A representation whose lowest run of ones has length [k] and starts at bit
    [j], below the bits [h]: the next permutation moves the top bit of the run
    up by one and drops the other [k - 1] ones to the bottom. *)
Lemma nextPermutationOf_run h j k :
  0 <= h -> 0 <= j -> 1 <= k ->
  h * 2 ^ (j + k + 1) + 2 ^ (j + k) < word_modulus ->
  nextPermutationOf (h * 2 ^ (j + k + 1) + (2 ^ k - 1) * 2 ^ j)
    = Ok (h * 2 ^ (j + k + 1) + 2 ^ (j + k) + (2 ^ (k - 1) - 1)).
Proof.
  intros Hh Hj Hk Hlt.
  set (x := h * 2 ^ (j + k + 1) + (2 ^ k - 1) * 2 ^ j).
  set (P := 2 ^ j). set (Q := 2 ^ (k - 1)).
  assert (HP : 0 < P) by (apply pow2_pos; lia).
  assert (HQ : 0 < Q) by (apply pow2_pos; lia).
  assert (Ek : 2 ^ k = 2 * Q).
  { unfold Q. replace k with (k - 1 + 1) at 1 by lia. rewrite Z.pow_add_r by lia. lia. }
  assert (Ejk : 2 ^ (j + k) = 2 * (P * Q)).
  { rewrite Z.pow_add_r, Ek by lia. unfold P. ring. }
  assert (Ejk1 : 2 ^ (j + k + 1) = 4 * (P * Q)).
  { rewrite Z.pow_add_r, Ejk by lia. lia. }
  assert (Ej1 : 2 ^ (j + 1) = 2 * P).
  { rewrite Z.pow_add_r by lia. unfold P. lia. }
  assert (Hjk : j + k < 64).
  { apply pow2_lt_inv; [lia|lia|]. unfold word_modulus in Hlt.
    assert (0 <= h * 2 ^ (j + k + 1)) by (rewrite Ejk1; nia). lia. }
  set (a := h * (2 * Q) + Q - 1).
  assert (Ex : x = (2 * a + 1) * 2 ^ j).
  { unfold x, a. rewrite Ejk1, Ek. fold P. ring. }
  assert (Er : h * 2 ^ (j + k + 1) + 2 ^ (j + k) + (Q - 1)
               = h * (4 * (P * Q)) + 2 * (P * Q) + (Q - 1)) by (rewrite Ejk1, Ejk; ring).
  clearbody x.
  assert (Ha : 0 <= a) by (unfold a; nia).
  assert (Hx : 0 < x) by (rewrite Ex; fold P; nia).
  assert (HxM : x + P < word_modulus).
  { rewrite Ex. fold P. unfold a. rewrite Ejk1, Ejk in Hlt. nia. }
  unfold nextPermutationOf.
  destruct (Z.eqb_spec x 0) as [E0|_]; [lia|].
  assert (Hctz : ctzl x = j) by (rewrite Ex; apply ctzl_shift; lia).
  rewrite Hctz.
  rewrite (wrap_small (j + 1)) by (unfold word_modulus; lia).
  destruct (Z.leb_spec 64 (j + 1)) as [|_]; [lia|].
  f_equal.
  rewrite (wrap_small (x - 1)) by lia.
  (* t = x | (x - 1) *)
  assert (Et : Z.lor x (x - 1) = x + P - 1).
  { rewrite Ex. fold P.
    replace ((2 * a + 1) * P) with ((2 * a + 1) * 2 ^ j + 0) at 1 by (fold P; lia).
    replace ((2 * a + 1) * P - 1) with ((2 * a) * 2 ^ j + (P - 1)) by (fold P; ring).
    rewrite lor_join by (unfold P in *; lia).
    rewrite lor_odd_pred, Z.lor_0_l. fold P. ring. }
  rewrite Et.
  replace (x + P - 1 + 1) with (x + P) by lia.
  rewrite (wrap_small (x + P)) by lia.
  (* ~t & (t + 1) *)
  assert (Exp : x + P = (2 * h + 1) * 2 ^ (j + k)).
  { rewrite Ex. fold P. unfold a. rewrite Ejk. ring. }
  assert (El : Z.land (lnot64 (x + P - 1)) (x + P) = 2 ^ (j + k)).
  { unfold lnot64. rewrite land_wrap_l by lia.
    rewrite Z.lnot_pred, Z.land_comm, Exp. apply land_opp_shift. lia. }
  rewrite El.
  rewrite (wrap_small (2 ^ (j + k) - 1)).
  2:{ pose proof (pow2_le_mono (j + k) 64 ltac:(lia)).
      pose proof (pow2_pos (j + k) ltac:(lia)). unfold word_modulus. lia. }
  (* the shift *)
  assert (Es : Z.shiftr (2 ^ (j + k) - 1) (j + 1) = Q - 1).
  { replace (2 ^ (j + k) - 1) with ((Q - 1) * 2 ^ (j + 1) + (2 * P - 1))
      by (rewrite Ejk, Ej1; ring).
    apply shiftr_join; [lia|]. rewrite Ej1. lia. }
  rewrite Es.
  (* the final or *)
  rewrite Exp.
  replace ((2 * h + 1) * 2 ^ (j + k)) with ((2 * h + 1) * 2 ^ (j + k) + 0) by lia.
  replace (Q - 1) with (0 * 2 ^ (j + k) + (Q - 1)) at 1 by lia.
  assert (HPQ : Q <= P * Q) by (replace Q with (1 * Q) at 1 by lia; apply Z.mul_le_mono_nonneg_r; lia).
  rewrite (lor_join (2 * h + 1) 0 0 (Q - 1) (j + k));
    [| lia | rewrite Ejk; lia | rewrite Ejk; lia ].
  rewrite Z.lor_0_r, Z.lor_0_l. rewrite Ejk1, Ejk. ring.
Qed.

(** Every positive number has a lowest run of ones. *)
Lemma lowest_run_decomposition x :
  0 < x -> exists h j k, 0 <= h /\ 0 <= j /\ 1 <= k /\
    x = h * 2 ^ (j + k + 1) + (2 ^ k - 1) * 2 ^ j.
Proof.
  destruct x as [|p|p]; try lia. intros _.
  induction p as [p IH|p IH|].
  - (* 2p + 1 *)
    destruct p as [q|q|].
    + (* p odd: extend its run, which starts at bit 0 *)
      destruct IH as (h & j & k & Hh & Hj & Hk & E).
      assert (j = 0).
      { destruct (Z.eq_dec j 0) as [|Hne]; [assumption|exfalso].
        assert (E2 : 2 ^ j = 2 * 2 ^ (j - 1)).
        { replace j with (j - 1 + 1) at 1 by lia. rewrite Z.pow_add_r by lia. lia. }
        assert (E3 : 2 ^ (j + k + 1) = 2 * 2 ^ (j + k)).
        { rewrite Z.pow_add_r by lia. lia. }
        rewrite E2, E3, Pos2Z.inj_xI in E.
        set (u := h * (2 * 2 ^ (j + k))) in E.
        assert (Eu : u = 2 * (h * 2 ^ (j + k))) by (unfold u; ring).
        set (v := (2 ^ k - 1) * (2 * 2 ^ (j - 1))) in E.
        assert (Ev : v = 2 * ((2 ^ k - 1) * 2 ^ (j - 1))) by (unfold v; ring).
        lia. }
      subst j. exists h, 0, (k + 1). repeat split; try lia.
      rewrite Pos2Z.inj_xI, E.
      replace (0 + (k + 1) + 1) with (0 + k + 1 + 1) by lia.
      rewrite (Z.pow_add_r 2 (0 + k + 1) 1), (Z.pow_add_r 2 k 1) by lia. ring.
    + (* p even: a run of one bit *)
      exists (Z.pos q), 0, 1. repeat split; try lia.
    + exists 0, 0, 2. repeat split; try lia.
  - destruct IH as (h & j & k & Hh & Hj & Hk & E).
    exists h, (j + 1), k. repeat split; try lia.
    rewrite Pos2Z.inj_xO, E. rewrite !Z.pow_add_r by lia. ring.
  - exists 0, 0, 1. repeat split; try lia.
Qed.

(** The bit trick ignores the bits above the run it rearranges: a high bit
    [2^n] that lies above the argument and the result is carried along. *)
Lemma nextPermutationOf_high_bit x y n :
  0 <= n < 64 -> 0 <= x < 2 ^ n -> y < 2 ^ n ->
  nextPermutationOf x = Ok y ->
  nextPermutationOf (2 ^ n + x) = Ok (2 ^ n + y).
Proof.
  intros Hn Hx Hy Hnext.
  destruct (Z.eq_dec x 0) as [->|Hne]; [discriminate|].
  destruct (lowest_run_decomposition x ltac:(lia)) as (h & j & k & Hh & Hj & Hk & E).
  assert (H64 : 2 ^ n <= 2 ^ 63) by (apply pow2_le_mono; lia).
  assert (HP : 0 < 2 ^ j) by (apply pow2_pos; lia).
  assert (HQ : 0 < 2 ^ (k - 1)) by (apply pow2_pos; lia).
  assert (Ek : 2 ^ k = 2 * 2 ^ (k - 1)).
  { replace k with (k - 1 + 1) at 1 by lia. rewrite Z.pow_add_r by lia. lia. }
  assert (Ejk : 2 ^ (j + k) = 2 ^ j * 2 ^ k) by (rewrite Z.pow_add_r by lia; lia).
  assert (E1 : 2 ^ (j + k + 1) = 2 * 2 ^ (j + k)) by (rewrite Z.pow_add_r by lia; lia).
  assert (Hsm : h * 2 ^ (j + k + 1) + 2 ^ (j + k) < word_modulus).
  { unfold word_modulus. change (2 ^ 64) with (2 * 2 ^ 63). nia. }
  rewrite E, nextPermutationOf_run in Hnext by assumption.
  inversion Hnext as [Ey]. clear Hnext.
  assert (Hjkn : j + k < n).
  { apply pow2_lt_inv; [lia|lia|]. nia. }
  assert (En : 2 ^ n = 2 ^ (n - (j + k + 1)) * 2 ^ (j + k + 1)).
  { rewrite <- Z.pow_add_r by lia. f_equal. lia. }
  assert (HR : 0 < 2 ^ (n - (j + k + 1))) by (apply pow2_pos; lia).
  rewrite E.
  replace (2 ^ n + (h * 2 ^ (j + k + 1) + (2 ^ k - 1) * 2 ^ j))
    with ((2 ^ (n - (j + k + 1)) + h) * 2 ^ (j + k + 1) + (2 ^ k - 1) * 2 ^ j)
    by (rewrite En; ring).
  rewrite nextPermutationOf_run; [f_equal; rewrite En; ring|lia|lia|lia|].
  unfold word_modulus. change (2 ^ 64) with (2 * 2 ^ 63).
  replace ((2 ^ (n - (j + k + 1)) + h) * 2 ^ (j + k + 1))
    with (2 ^ n + h * 2 ^ (j + k + 1)) by (rewrite En; ring).
  nia.
Qed.

(** ** The set bits of a representation *)

Lemma set_bits_from_shift x i d :
  set_bits_from x (i + d) = (Z.add d <$> set_bits_from x i).
Proof.
  revert i. induction x as [x IH|x IH|]; intros i; simpl.
  - f_equal; [lia|]. replace (i + d + 1) with (i + 1 + d) by lia. apply IH.
  - replace (i + d + 1) with (i + 1 + d) by lia. apply IH.
  - f_equal. lia.
Qed.

Lemma set_bits_double x : 0 <= x -> set_bits (2 * x) = (Z.succ <$> set_bits x).
Proof.
  destruct x as [|p|p]; try lia; intros _; [reflexivity|].
  change (2 * Z.pos p) with (Z.pos p~0). cbn [set_bits set_bits_from].
  rewrite (set_bits_from_shift p 0 1).
  apply list_fmap_ext. intros ? a ?. lia.
Qed.

Lemma set_bits_odd x : 0 <= x -> set_bits (2 * x + 1) = 0 :: (Z.succ <$> set_bits x).
Proof.
  destruct x as [|p|p]; try lia; intros _; [reflexivity|].
  change (2 * Z.pos p + 1) with (Z.pos p~1). cbn [set_bits set_bits_from].
  f_equal. rewrite (set_bits_from_shift p 0 1).
  apply list_fmap_ext. intros ? a ?. lia.
Qed.

(** Halving: every natural number is [2 * y] or [2 * y + 1]. *)
Lemma half_cases x : 0 <= x -> exists y, 0 <= y /\ (x = 2 * y \/ x = 2 * y + 1).
Proof.
  intros Hx. exists (x / 2). split; [apply Z.div_pos; lia|].
  pose proof (Z.div_mod x 2 ltac:(lia)). pose proof (Z.mod_pos_bound x 2 ltac:(lia)). lia.
Qed.

Lemma set_bits_high n y :
  0 <= n -> 0 <= y < 2 ^ n -> set_bits (2 ^ n + y) = set_bits y ++ [n].
Proof.
  intros Hn. revert n Hn y. apply (natlike_ind (fun n => forall y, 0 <= y < 2 ^ n ->
    set_bits (2 ^ n + y) = set_bits y ++ [n])).
  - intros y Hy. assert (y = 0) by (simpl in Hy; lia). subst. reflexivity.
  - intros n Hn IH y Hy. rewrite Z.pow_succ_r in * by lia.
    destruct (half_cases y ltac:(lia)) as (z & Hz & [->| ->]).
    + replace (2 * 2 ^ n + 2 * z) with (2 * (2 ^ n + z)) by ring.
      pose proof (pow2_pos n Hn).
      rewrite !set_bits_double by lia. rewrite IH by lia.
      rewrite fmap_app. reflexivity.
    + replace (2 * 2 ^ n + (2 * z + 1)) with (2 * (2 ^ n + z) + 1) by ring.
      pose proof (pow2_pos n Hn).
      rewrite !set_bits_odd by lia. rewrite IH by lia.
      rewrite fmap_app. reflexivity.
Qed.

Lemma set_bits_range n x :
  0 <= n -> 0 <= x < 2 ^ n -> Forall (fun p => 0 <= p < n) (set_bits x).
Proof.
  intros Hn. revert n Hn x. apply (natlike_ind (fun n => forall x, 0 <= x < 2 ^ n ->
    Forall (fun p => 0 <= p < n) (set_bits x))).
  - intros x Hx. assert (x = 0) by (simpl in Hx; lia). subst. constructor.
  - intros n Hn IH x Hx. rewrite Z.pow_succ_r in * by lia.
    destruct (half_cases x ltac:(lia)) as (z & Hz & [->| ->]).
    + rewrite set_bits_double by lia. apply Forall_fmap. specialize (IH z ltac:(lia)).
      rewrite Forall_forall in *. intros p Hp. specialize (IH p Hp). simpl. lia.
    + rewrite set_bits_odd by lia. constructor; [lia|]. apply Forall_fmap. specialize (IH z ltac:(lia)).
      rewrite Forall_forall in *. intros p Hp. specialize (IH p Hp). simpl. lia.
Qed.

Lemma popcount_le n x : 0 <= n -> 0 <= x < 2 ^ n -> Z.of_nat (popcount x) <= n.
Proof.
  intros Hn. revert n Hn x. unfold popcount.
  apply (natlike_ind (fun n => forall x, 0 <= x < 2 ^ n ->
    Z.of_nat (length (set_bits x)) <= n)).
  - intros x Hx. assert (x = 0) by (simpl in Hx; lia). subst. simpl. lia.
  - intros n Hn IH x Hx. rewrite Z.pow_succ_r in * by lia.
    destruct (half_cases x ltac:(lia)) as (z & Hz & [->| ->]).
    + rewrite set_bits_double by lia. rewrite length_fmap.
      specialize (IH z ltac:(lia)). lia.
    + rewrite set_bits_odd by lia. cbn [length]. rewrite length_fmap.
      specialize (IH z ltac:(lia)). lia.
Qed.

Lemma popcount_high n y :
  0 <= n -> 0 <= y < 2 ^ n -> popcount (2 ^ n + y) = S (popcount y).
Proof.
  intros Hn Hy. unfold popcount. rewrite set_bits_high by assumption.
  rewrite length_app. simpl. lia.
Qed.

(** The lowest set bit is the first one listed; clearing it leaves the rest. *)
Lemma set_bits_lowest x :
  0 < x -> set_bits x = ctzl x :: set_bits (x - 2 ^ ctzl x).
Proof.
  intros Hx. destruct (odd_shift_decomposition x Hx) as (a & j & Ha & Hj & ->).
  rewrite ctzl_shift by lia. clear Hx.
  revert j Hj. apply natlike_ind.
  - rewrite Z.pow_0_r, Z.mul_1_r. rewrite set_bits_odd by lia.
    replace (2 * a + 1 - 1) with (2 * a) by lia. now rewrite set_bits_double.
  - intros j Hj IH. rewrite Z.pow_succ_r by lia.
    pose proof (pow2_pos j Hj).
    replace ((2 * a + 1) * (2 * 2 ^ j)) with (2 * ((2 * a + 1) * 2 ^ j)) by ring.
    replace (2 * ((2 * a + 1) * 2 ^ j) - 2 * 2 ^ j)
      with (2 * ((2 * a + 1) * 2 ^ j - 2 ^ j)) by ring.
    rewrite !set_bits_double by nia. rewrite IH. reflexivity.
Qed.

Lemma lowbit_le x : 0 < x -> 2 ^ ctzl x <= x.
Proof.
  intros Hx. destruct (odd_shift_decomposition x Hx) as (a & j & Ha & Hj & ->).
  rewrite ctzl_shift by lia. pose proof (pow2_pos j Hj). nia.
Qed.

(** ** [addressOf] as a sum of vertex weights *)

Lemma address_sum_app W e l1 l2 :
  address_sum W e (l1 ++ l2)
    = address_sum W e l1 + address_sum W (e + Z.of_nat (length l1)) l2.
Proof.
  revert e. induction l1 as [|p l1 IH]; intros e.
  - simpl. now rewrite Z.add_0_r.
  - cbn [app address_sum length]. rewrite IH.
    replace (e + 1 + Z.of_nat (length l1)) with (e + Z.of_nat (S (length l1))) by lia.
    lia.
Qed.

Lemma address_sum_ext W W' e l :
  (forall i p, l !! i = Some p -> W p (e + Z.of_nat i + 1) = W' p (e + Z.of_nat i + 1)) ->
  address_sum W e l = address_sum W' e l.
Proof.
  revert e. induction l as [|p l IH]; intros e H; [reflexivity|].
  cbn [address_sum]. f_equal.
  - specialize (H O p eq_refl). now rewrite Z.add_0_r in H.
  - apply IH. intros i q Hq. specialize (H (S i) q Hq).
    now replace (e + 1 + Z.of_nat i + 1) with (e + Z.of_nat (S i) + 1) by lia.
Qed.

Lemma addressOf_loop_sum b rounds copy address e :
  0 <= copy < word_modulus ->
  0 <= address < word_modulus ->
  0 <= e -> e + Z.of_nat (popcount copy) < word_modulus ->
  (popcount copy <= rounds)%nat ->
  addressOf_loop b rounds copy address e
    = Some (wrap (address + address_sum (vertexWeight b) e (set_bits copy))).
Proof.
  revert copy address e. induction rounds as [|rounds IH]; intros copy address e Hc Ha He Hpc Hr.
  - destruct (Z.eq_dec copy 0) as [->|Hne].
    + simpl. now rewrite Z.add_0_r, wrap_small.
    + exfalso. unfold popcount in Hr. rewrite set_bits_lowest in Hr by lia. simpl in Hr. lia.
  - cbn [addressOf_loop]. destruct (Z.eqb_spec copy 0) as [->|Hne].
    + simpl. now rewrite Z.add_0_r, wrap_small.
    + unfold popcount in *. rewrite set_bits_lowest in Hpc, Hr |- * by lia.
      cbn [length address_sum] in *.
      rewrite clear_lowbit by lia.
      pose proof (lowbit_le copy ltac:(lia)).
      pose proof (pow2_pos (ctzl copy) (ctzl_nonneg copy)).
      rewrite (wrap_small (e + 1)) by lia.
      rewrite IH; [| lia | apply wrap_range | lia | lia | lia].
      f_equal. rewrite wrap_add_l. f_equal. lia.
Qed.

Lemma addressOf_sum b x :
  0 <= x < word_modulus ->
  addressOf b x = Some (wrap (address_sum (vertexWeight b) 0 (set_bits x))).
Proof.
  intros Hx. unfold addressOf.
  pose proof (popcount_le 64 x ltac:(lia) Hx).
  rewrite addressOf_loop_sum; [reflexivity| assumption | unfold word_modulus; lia | lia | | lia].
  unfold word_modulus. lia.
Qed.

(** ** The list of all configurations *)

Lemma all_onvs_0 M : all_onvs M 0 = [0].
Proof. now destruct M. Qed.

Lemma all_onvs_succ M N :
  all_onvs (S M) (S N)
    = all_onvs M (S N) ++ (Z.add (2 ^ Z.of_nat M) <$> all_onvs M N).
Proof. reflexivity. Qed.

Lemma all_onvs_length M N : Z.of_nat (length (all_onvs M N)) = binom M N.
Proof.
  revert N. induction M as [|M IH]; intros [|N]; try reflexivity.
  rewrite all_onvs_succ, length_app, length_fmap, Nat2Z.inj_add, !IH. reflexivity.
Qed.

Lemma all_onvs_gt M N : (M < N)%nat -> all_onvs M N = [].
Proof.
  intros H. apply length_zero_iff_nil.
  pose proof (all_onvs_length M N) as E. rewrite binom_gt in E by assumption. lia.
Qed.

Lemma all_onvs_lookup_succ M N i x :
  all_onvs (S M) (S N) !! i = Some x <->
    all_onvs M (S N) !! i = Some x \/
    ((length (all_onvs M (S N)) <= i)%nat /\
     exists y, all_onvs M N !! (i - length (all_onvs M (S N)))%nat = Some y /\
               x = 2 ^ Z.of_nat M + y).
Proof.
  rewrite all_onvs_succ, lookup_app_Some, list_lookup_fmap_Some.
  split; (intros [H|[H1 (y & H2 & H3)]]; [now left|right; split; [assumption|]]);
    exists y; split; assumption.
Qed.

Lemma all_onvs_range M N x :
  x ∈ all_onvs M N -> 0 <= x < 2 ^ Z.of_nat M.
Proof.
  revert N x. induction M as [|M IH]; intros [|N] x Hx.
  - apply list_elem_of_singleton in Hx. subst. simpl. lia.
  - inversion Hx.
  - rewrite all_onvs_0 in Hx. apply list_elem_of_singleton in Hx. subst.
    split; [lia|]. apply pow2_pos. lia.
  - apply list_elem_of_lookup in Hx as [i Hi].
    rewrite Nat2Z.inj_succ, Z.pow_succ_r by lia.
    apply all_onvs_lookup_succ in Hi as [Hi|[_ (y & Hy & ->)]].
    + specialize (IH (S N) x (proj2 (list_elem_of_lookup _ _) (ex_intro _ i Hi))). lia.
    + specialize (IH N y (proj2 (list_elem_of_lookup _ _) (ex_intro _ _ Hy))). lia.
Qed.

Lemma all_onvs_popcount M N x :
  x ∈ all_onvs M N -> popcount x = N.
Proof.
  revert N x. induction M as [|M IH]; intros [|N] x Hx.
  - apply list_elem_of_singleton in Hx. subst. reflexivity.
  - inversion Hx.
  - rewrite all_onvs_0 in Hx. apply list_elem_of_singleton in Hx. subst. reflexivity.
  - apply list_elem_of_lookup in Hx as [i Hi].
    apply all_onvs_lookup_succ in Hi as [Hi|[_ (y & Hy & ->)]].
    + apply IH. apply list_elem_of_lookup. eauto.
    + assert (Hin : y ∈ all_onvs M N) by (apply list_elem_of_lookup; eauto).
      rewrite popcount_high; [|lia|now apply all_onvs_range with N].
      f_equal. now apply IH.
Qed.

(** Every bitstring with [N] bits set below bit [M] is listed. *)
Lemma all_onvs_complete M N x :
  0 <= x < 2 ^ Z.of_nat M -> popcount x = N -> x ∈ all_onvs M N.
Proof.
  revert N x. induction M as [|M IH]; intros N x Hx Hp.
  - assert (x = 0) by (simpl in Hx; lia). subst. cbn. left.
  - rewrite Nat2Z.inj_succ, Z.pow_succ_r in Hx by lia.
    destruct (Z.lt_ge_cases x (2 ^ Z.of_nat M)) as [Hlo|Hhi].
    + destruct N as [|N].
      * rewrite all_onvs_0. destruct (Z.eq_dec x 0) as [->|Hne]; [now left|].
        unfold popcount in Hp. rewrite set_bits_lowest in Hp by lia. discriminate.
      * rewrite all_onvs_succ. apply elem_of_app. left. apply IH; [lia|assumption].
    + assert (Ex : x = 2 ^ Z.of_nat M + (x - 2 ^ Z.of_nat M)) by lia.
      rewrite Ex in Hp. rewrite popcount_high in Hp by lia.
      destruct N as [|N]; [discriminate|]. injection Hp as Hp.
      rewrite all_onvs_succ. apply elem_of_app. right.
      rewrite Ex. apply list_elem_of_fmap_2. apply IH; [lia|assumption].
Qed.

(** The list is strictly increasing. *)
Lemma all_onvs_increasing M N i j x y :
  (i < j)%nat -> all_onvs M N !! i = Some x -> all_onvs M N !! j = Some y -> x < y.
Proof.
  revert N i j x y. induction M as [|M IH]; intros [|N] i j x y Hij Hi Hj.
  - apply lookup_lt_Some in Hj. simpl in Hj. lia.
  - discriminate.
  - rewrite all_onvs_0 in Hj. apply lookup_lt_Some in Hj. simpl in Hj. lia.
  - apply all_onvs_lookup_succ in Hi as [Hi|[Hi1 (x' & Hi2 & ->)]];
    apply all_onvs_lookup_succ in Hj as [Hj|[Hj1 (y' & Hj2 & ->)]].
    + eapply IH; eassumption.
    + assert (x ∈ all_onvs M (S N)) by (apply list_elem_of_lookup; eauto).
      assert (y' ∈ all_onvs M N) by (apply list_elem_of_lookup; eauto).
      pose proof (all_onvs_range _ _ _ H). pose proof (all_onvs_range _ _ _ H0). lia.
    + apply lookup_lt_Some in Hj. lia.
    + assert (x' < y'); [|lia]. eapply (IH N); [|eassumption..]. lia.
Qed.

Lemma all_onvs_NoDup M N : NoDup (all_onvs M N).
Proof.
  apply NoDup_alt. intros i j x Hi Hj.
  destruct (Nat.lt_trichotomy i j) as [H|[H|H]]; [|assumption|].
  - pose proof (all_onvs_increasing _ _ _ _ _ _ H Hi Hj). lia.
  - pose proof (all_onvs_increasing _ _ _ _ _ _ H Hj Hi). lia.
Qed.

(** The first configuration occupies the [N] lowest orbitals. *)
Lemma all_onvs_first M N :
  (N <= M)%nat -> all_onvs M N !! O = Some (2 ^ Z.of_nat N - 1).
Proof.
  revert N. induction M as [|M IH]; intros [|N] H; try reflexivity; try lia.
  apply all_onvs_lookup_succ.
  destruct (decide (S N <= M)%nat) as [Hle|Hgt].
  - left. now apply IH.
  - right. assert (N = M) by lia. subst N.
    rewrite all_onvs_gt by lia. split; [simpl; lia|].
    exists (2 ^ Z.of_nat M - 1). split; [apply IH; lia|].
    rewrite Nat2Z.inj_succ, Z.pow_succ_r by lia. lia.
Qed.

(** The last configuration occupies the [N] highest orbitals. *)
Lemma all_onvs_last M N i :
  (N <= M)%nat -> length (all_onvs M N) = S i ->
  all_onvs M N !! i = Some (2 ^ Z.of_nat M - 2 ^ Z.of_nat (M - N)).
Proof.
  revert N i. induction M as [|M IH]; intros [|N] i H Hlen.
  - simpl in Hlen. assert (i = O) by lia. subst. reflexivity.
  - lia.
  - rewrite all_onvs_0 in *. simpl in Hlen. assert (i = O) by lia. subst.
    rewrite Nat.sub_0_r. simpl. f_equal. lia.
  - apply all_onvs_lookup_succ. right.
    rewrite all_onvs_succ, length_app, length_fmap in Hlen.
    assert (Hpos : (0 < length (all_onvs M N))%nat).
    { pose proof (all_onvs_length M N). pose proof (binom_pos M N ltac:(lia)). lia. }
    split; [lia|].
    exists (2 ^ Z.of_nat M - 2 ^ Z.of_nat (M - N)). split.
    + apply IH; lia.
    + replace (S M - S N)%nat with (M - N)%nat by lia.
      rewrite Nat2Z.inj_succ, Z.pow_succ_r by lia. lia.
Qed.

(** [nextPermutationOf] steps from each listed configuration to the next. *)
Lemma all_onvs_next M N i x y :
  (M <= 64)%nat ->
  all_onvs M N !! i = Some x -> all_onvs M N !! S i = Some y ->
  nextPermutationOf x = Ok y.
Proof.
  revert N i x y. induction M as [|M IH]; intros [|N] i x y HM Hi Hj.
  - apply lookup_lt_Some in Hj. simpl in Hj. lia.
  - discriminate.
  - rewrite all_onvs_0 in Hj. apply lookup_lt_Some in Hj. simpl in Hj. lia.
  - apply all_onvs_lookup_succ in Hi as [Hi|[Hi1 (x' & Hi2 & ->)]];
    apply all_onvs_lookup_succ in Hj as [Hj|[Hj1 (y' & Hj2 & ->)]].
    + eapply IH; [lia|eassumption..].
    + (* from the last configuration without bit M to the first one with it *)
      pose proof (lookup_lt_Some _ _ _ Hi) as Hlt.
      assert (Hlen : length (all_onvs M (S N)) = S i) by lia.
      assert (HN : (S N <= M)%nat).
      { destruct (decide (S N <= M)%nat); [assumption|].
        rewrite all_onvs_gt in Hlen by lia. discriminate. }
      rewrite (all_onvs_last M (S N) i HN Hlen) in Hi. injection Hi as <-.
      replace (S i - length (all_onvs M (S N)))%nat with O in Hj2 by lia.
      rewrite all_onvs_first in Hj2 by lia. injection Hj2 as <-.
      pose proof (nextPermutationOf_run 0 (Z.of_nat (M - S N)) (Z.of_nat (S N))
                    ltac:(lia) ltac:(lia) ltac:(lia)) as Hrun.
      replace (Z.of_nat (M - S N) + Z.of_nat (S N)) with (Z.of_nat M) in Hrun by lia.
      replace (Z.of_nat (S N) - 1) with (Z.of_nat N) in Hrun by lia.
      assert (E : 2 ^ Z.of_nat M = 2 ^ Z.of_nat (S N) * 2 ^ Z.of_nat (M - S N)).
      { rewrite <- Z.pow_add_r by lia. f_equal. lia. }
      replace (2 ^ Z.of_nat M - 2 ^ Z.of_nat (M - S N))
        with (0 * 2 ^ (Z.of_nat M + 1) + (2 ^ Z.of_nat (S N) - 1) * 2 ^ Z.of_nat (M - S N))
        by (rewrite E; ring).
      rewrite Hrun; [f_equal; lia|].
      pose proof (pow2_le_mono (Z.of_nat M) 63 ltac:(lia)).
      unfold word_modulus. change (2 ^ 64) with (2 * 2 ^ 63). lia.
    + apply lookup_lt_Some in Hj. lia.
    + assert (Hx : x' ∈ all_onvs M N) by (apply list_elem_of_lookup; eauto).
      assert (Hy : y' ∈ all_onvs M N) by (apply list_elem_of_lookup; eauto).
      apply all_onvs_range in Hx, Hy.
      apply nextPermutationOf_high_bit; [lia|assumption|lia|].
      apply (IH N (i - length (all_onvs M (S N)))%nat); [lia|assumption|].
      now replace (S (i - length (all_onvs M (S N))))
        with (S i - length (all_onvs M (S N)))%nat by lia.
Qed.

(** The address of the [i]-th listed configuration is [i]: the weights met
    along it add up to [i], modulo [2^64]. *)
Lemma all_onvs_address_sum M0 N0 M N i x :
  Z.of_nat M <= M0 -> Z.of_nat N <= N0 -> Z.of_nat M - Z.of_nat N <= M0 - N0 ->
  all_onvs M N !! i = Some x ->
  wrap (address_sum (weight_spec M0 N0) 0 (set_bits x)) = wrap (Z.of_nat i).
Proof.
  revert N i x. induction M as [|M IH]; intros [|N] i x HM HN Hband Hi.
  - apply list_lookup_singleton_Some in Hi as [-> <-]. reflexivity.
  - discriminate.
  - rewrite all_onvs_0 in Hi. apply list_lookup_singleton_Some in Hi as [-> <-]. reflexivity.
  - apply all_onvs_lookup_succ in Hi as [Hi|[Hi1 (y & Hi2 & ->)]].
    + apply (IH (S N)); [lia..|assumption].
    + assert (Hy : y ∈ all_onvs M N) by (apply list_elem_of_lookup; eauto).
      pose proof (all_onvs_range _ _ _ Hy) as Hr.
      pose proof (all_onvs_popcount _ _ _ Hy) as Hp. unfold popcount in Hp.
      rewrite set_bits_high by lia. rewrite address_sum_app, Hp.
      cbn [address_sum]. rewrite Z.add_0_r.
      assert (Ew : weight_spec M0 N0 (Z.of_nat M) (0 + Z.of_nat N + 1)
                   = wrap (Z.of_nat (length (all_onvs M (S N))))).
      { unfold weight_spec.
        destruct (Z.leb_spec (Z.of_nat M) M0); [|lia].
        destruct (Z.leb_spec (0 + Z.of_nat N + 1) N0); [|lia].
        destruct (Z.leb_spec (Z.of_nat M - (0 + Z.of_nat N + 1)) (M0 - N0)); [|lia].
        simpl. f_equal. rewrite all_onvs_length. unfold binomC. f_equal; lia. }
      rewrite Ew, wrap_add_r, <- wrap_add_l.
      rewrite (IH N _ y ltac:(lia) ltac:(lia) ltac:(lia) Hi2).
      rewrite wrap_add_l. f_equal. lia.
Qed.

(** ** A constructed basis *)

Lemma construct_weights M N b :
  0 <= N <= M -> M + 1 < word_modulus -> construct M N = Ok b ->
  numberOfOrbitals b = M /\ numberOfElectrons b = N /\
  forall p m, 0 <= p -> 0 <= m -> vertexWeight b p m = weight_spec M N p m.
Proof.
  intros HN HM Hc.
  destruct (construct_table M N HN HM) as (t & Ht & _ & Hl).
  rewrite Ht in Hc. injection Hc as <-. auto.
Qed.

Lemma binom_lt_pow2 n k : (1 <= n)%nat -> binom n k < 2 ^ Z.of_nat n.
Proof.
  induction 1 as [|n Hn IH] in k |- *.
  - destruct k as [|[|k]]; reflexivity.
  - rewrite Nat2Z.inj_succ, Z.pow_succ_r by lia.
    destruct k as [|k].
    + rewrite binom_0_r. pose proof (pow2_pos (Z.of_nat n) ltac:(lia)). lia.
    + change (binom (S n) (S k)) with (binom n (S k) + binom n k).
      pose proof (IH k). pose proof (IH (S k)). lia.
Qed.

Lemma binom_word M N : (M <= 64)%nat -> 0 <= binom M N < word_modulus.
Proof.
  intros HM. split; [apply binom_nonneg|].
  destruct M as [|M].
  - destruct N; reflexivity.
  - pose proof (binom_lt_pow2 (S M) N ltac:(lia)).
    pose proof (pow2_le_mono (Z.of_nat (S M)) 64 ltac:(lia)).
    unfold word_modulus. lia.
Qed.

Lemma dimension_binom b :
  0 <= numberOfElectrons b <= numberOfOrbitals b -> numberOfOrbitals b <= 64 ->
  dimension b = Ok (binom (Z.to_nat (numberOfOrbitals b)) (Z.to_nat (numberOfElectrons b))).
Proof.
  intros HN HM. unfold dimension.
  rewrite <- binom_closed by lia.
  pose proof (binom_word (Z.to_nat (numberOfOrbitals b)) (Z.to_nat (numberOfElectrons b))
                ltac:(lia)) as Hb.
  destruct (Z.ltb_spec (binom (Z.to_nat (numberOfOrbitals b)) (Z.to_nat (numberOfElectrons b)))
              word_modulus); [reflexivity|lia].
Qed.

Section Basis.
Variables (M N : Z) (b : SpinUnresolvedONVBasis).
Hypothesis HN : 0 <= N <= M.
Hypothesis HM : M <= 64.
Hypothesis Hb : construct M N = Ok b.

Let M_small : M + 1 < word_modulus.
Proof. unfold word_modulus. lia. Qed.

Lemma basis_orbitals : numberOfOrbitals b = M.
Proof. now destruct (construct_weights M N b HN M_small Hb). Qed.

Lemma basis_electrons : numberOfElectrons b = N.
Proof. now destruct (construct_weights M N b HN M_small Hb) as (_ & ? & _). Qed.

Lemma basis_weight p m :
  0 <= p -> 0 <= m -> vertexWeight b p m = weight_spec M N p m.
Proof. now destruct (construct_weights M N b HN M_small Hb) as (_ & _ & ?); auto. Qed.

Lemma basis_dimension : dimension b = Ok (binomC M N).
Proof.
  unfold binomC. rewrite <- basis_orbitals at 1. rewrite <- basis_electrons at 1.
  apply dimension_binom; rewrite ?basis_orbitals, ?basis_electrons; lia.
Qed.

Lemma binomC_word : 0 <= binomC M N < word_modulus.
Proof. apply binom_word. lia. Qed.

(** The address computed for the [i]-th listed configuration is [i]. *)
Lemma addressOf_all_onvs i x :
  all_onvs (Z.to_nat M) (Z.to_nat N) !! i = Some x ->
  addressOf b x = Some (Z.of_nat i).
Proof.
  intros Hi.
  assert (Hin : x ∈ all_onvs (Z.to_nat M) (Z.to_nat N)) by (apply list_elem_of_lookup; eauto).
  pose proof (all_onvs_range _ _ _ Hin) as Hr.
  pose proof (pow2_le_mono (Z.of_nat (Z.to_nat M)) 64 ltac:(lia)) as Hp.
  rewrite addressOf_sum by (unfold word_modulus; lia).
  f_equal.
  rewrite (address_sum_ext _ (weight_spec M N)).
  - rewrite (all_onvs_address_sum M N (Z.to_nat M) (Z.to_nat N) i x) by (lia || assumption).
    apply wrap_small.
    pose proof (lookup_lt_Some _ _ _ Hi) as Hlt.
    pose proof (all_onvs_length (Z.to_nat M) (Z.to_nat N)).
    pose proof binomC_word. unfold binomC in *. lia.
  - intros k p Hk. apply basis_weight; [|lia].
    pose proof (set_bits_range (Z.of_nat (Z.to_nat M)) x ltac:(lia) Hr) as HF.
    pose proof (Forall_lookup_1 _ _ _ _ HF Hk) as Hrange. simpl in Hrange. lia.
Qed.

(** *** The configuration of address 0 *)

Lemma representationOf_loop_skip (p : nat) r :
  1 <= N -> (Z.to_nat N <= p)%nat -> Z.of_nat p <= M ->
  representationOf_loop b p N 0 r = representationOf_loop b (Z.to_nat N) N 0 r.
Proof.
  intros HN1. induction p as [|p IH]; intros Hp HpM.
  - replace (Z.to_nat N) with O by lia. reflexivity.
  - destruct (decide (Z.to_nat N = S p)) as [->|Hne]; [reflexivity|].
    cbn [representationOf_loop].
    rewrite basis_weight by lia.
    assert (Hw : 0 < weight_spec M N (Z.of_nat p) N).
    { unfold weight_spec.
      destruct (Z.leb_spec (Z.of_nat p) M); [|lia].
      destruct (Z.leb_spec N N); [|lia].
      destruct (Z.leb_spec (Z.of_nat p - N) (M - N)); [|lia].
      simpl. unfold binomC.
      pose proof (binom_pos (Z.to_nat (Z.of_nat p)) (Z.to_nat N) ltac:(lia)).
      pose proof (binom_word (Z.to_nat (Z.of_nat p)) (Z.to_nat N) ltac:(lia)).
      rewrite wrap_small by lia. lia. }
    destruct (Z.leb_spec (weight_spec M N (Z.of_nat p) N) 0); [lia|].
    apply IH; lia.
Qed.

Lemma representationOf_loop_fill (p : nat) r :
  (1 <= p <= 31)%nat -> 0 <= r ->
  representationOf_loop b p (Z.of_nat p) 0 r = Ok (Z.lor r (2 ^ Z.of_nat p - 1)).
Proof.
  revert r. induction p as [|p IH]; intros r Hp Hr; [lia|].
  cbn [representationOf_loop].
  rewrite basis_weight by lia.
  rewrite weight_spec_outside_band by lia.
  change (0 <=? 0) with true. cbv iota.
  unfold int_one_shl.
  destruct (Z.ltb_spec (Z.of_nat p) 31); [|lia].
  cbn [mbind outcome_bind].
  pose proof (pow2_word (Z.of_nat p) ltac:(lia)).
  rewrite (wrap_small (2 ^ Z.of_nat p)) by lia.
  replace (wrap (Z.of_nat (S p) - 1)) with (Z.of_nat p)
    by (rewrite wrap_small; unfold word_modulus; lia).
  change (wrap (0 - 0)) with 0.
  assert (E : Z.lor (2 ^ Z.of_nat p) (2 ^ Z.of_nat p - 1) = 2 ^ Z.of_nat (S p) - 1).
  { replace (2 ^ Z.of_nat p) with (1 * 2 ^ Z.of_nat p + 0) at 1 by lia.
    replace (2 ^ Z.of_nat p - 1) with (0 * 2 ^ Z.of_nat p + (2 ^ Z.of_nat p - 1)) by lia.
    rewrite lor_join by lia. rewrite Z.lor_0_r, Z.lor_0_l.
    rewrite Nat2Z.inj_succ, Z.pow_succ_r by lia. lia. }
  destruct (Z.eqb_spec (Z.of_nat p) 0) as [E0|Hne].
  - f_equal. replace p with O by lia. reflexivity.
  - rewrite IH; [|lia|apply Z.lor_nonneg; lia].
    f_equal. rewrite <- Z.lor_assoc, E. reflexivity.
Qed.

Lemma representationOf_0 :
  1 <= N <= 31 -> representationOf b 0 = Ok (2 ^ N - 1).
Proof.
  intros HN1. unfold representationOf.
  rewrite basis_electrons, basis_orbitals.
  destruct (Z.eqb_spec N 0); [lia|].
  rewrite representationOf_loop_skip by lia.
  pose proof (representationOf_loop_fill (Z.to_nat N) 0 ltac:(lia) ltac:(lia)) as Hf.
  rewrite Z2Nat.id in Hf by lia. rewrite Hf, Z.lor_0_l. reflexivity.
Qed.

(** *** The sweep of [forEach] *)

Lemma enumeration_lookup i x :
  all_onvs (Z.to_nat M) (Z.to_nat N) !! i = Some x ->
  enumeration M N !! i = Some (mkONV M N x, Z.of_nat i).
Proof. intros H. unfold enumeration. now rewrite list_lookup_imap, H. Qed.

Lemma enumeration_length : Z.of_nat (length (enumeration M N)) = binomC M N.
Proof. unfold enumeration. rewrite length_imap. apply all_onvs_length. Qed.

Lemma forEach_enumeration :
  1 <= N <= 31 -> forEach b = Ok (enumeration M N).
Proof.
  intros HN1. unfold forEach.
  rewrite basis_dimension. cbn [mbind outcome_bind].
  unfold constructONVFromAddress, transformONVCorrespondingToAddress.
  rewrite representationOf_0 by assumption. cbn [mbind outcome_bind].
  rewrite basis_orbitals, basis_electrons.
  unfold replaceRepresentationWith. cbn [onv_M onv_N].
  set (L := all_onvs (Z.to_nat M) (Z.to_nat N)).
  set (dim := binomC M N).
  assert (Hlen : Z.of_nat (length L) = dim) by apply all_onvs_length.
  assert (Hdim : 1 <= dim < word_modulus).
  { pose proof binomC_word. unfold dim, binomC in *.
    pose proof (binom_pos (Z.to_nat M) (Z.to_nat N) ltac:(lia)). lia. }
  destruct (for_range_invariant
    (fun I (st : SpinUnresolvedONV * list (SpinUnresolvedONV * Z)) =>
       st.2 = take (Z.to_nat I) (enumeration M N) /\
       exists x, L !! Z.to_nat (Z.min I (dim - 1)) = Some x /\ st.1 = mkONV M N x)
    (fun I (st : SpinUnresolvedONV * list (SpinUnresolvedONV * Z)) =>
        let calls := st.2 ++ [(st.1, I)] in
        if I <? wrap (dim - 1)
        then onv' ← transformONVToNextPermutation st.1; Ok (onv', calls)
        else Ok (st.1, calls))
    0 dim (mkONV M N (2 ^ N - 1), []))
    as (st & Hst & Hcalls & _).
  - lia.
  - split; [reflexivity|]. exists (2 ^ N - 1). split; [|reflexivity].
    replace (Z.to_nat (Z.min 0 (dim - 1))) with O by lia.
    unfold L. rewrite all_onvs_first by lia. f_equal. f_equal. f_equal. lia.
  - intros I [onv calls] HI [Hc (x & Hx & Honv)]. cbn [fst snd] in *. subst onv calls.
    replace (Z.to_nat (Z.min I (dim - 1))) with (Z.to_nat I) in Hx by lia.
    rewrite (wrap_small (dim - 1)) by lia.
    assert (Htake : take (Z.to_nat I) (enumeration M N) ++ [(mkONV M N x, I)]
                    = take (Z.to_nat (I + 1)) (enumeration M N)).
    { replace (Z.to_nat (I + 1)) with (S (Z.to_nat I)) by lia.
      symmetry. replace I with (Z.of_nat (Z.to_nat I)) at 3 by lia.
      apply take_S_r. now apply enumeration_lookup. }
    destruct (Z.ltb_spec I (dim - 1)) as [Hlt|Hge].
    + destruct (lookup_lt_is_Some_2 L (S (Z.to_nat I)) ltac:(lia)) as [y Hy].
      unfold transformONVToNextPermutation. cbn [unsignedRepresentation].
      rewrite (all_onvs_next (Z.to_nat M) (Z.to_nat N) (Z.to_nat I) x y) by (lia || assumption).
      cbn [mbind outcome_bind]. eexists. split; [reflexivity|]. cbn [fst snd].
      split; [assumption|]. exists y. split; [|reflexivity].
      now replace (Z.to_nat (Z.min (I + 1) (dim - 1))) with (S (Z.to_nat I)) by lia.
    + eexists. split; [reflexivity|]. cbn [fst snd].
      split; [assumption|]. exists x. split; [|reflexivity].
      now replace (Z.to_nat (Z.min (I + 1) (dim - 1))) with (Z.to_nat I) by lia.
  - cbv zeta in Hst. rewrite Hst. cbn [mbind outcome_bind]. f_equal. rewrite Hcalls.
    apply take_ge. unfold enumeration. rewrite length_imap. fold L. lia.
Qed.
End Basis.

(** ** Decoding an address *)

Section Decode.
Variables (M N : Z) (b : SpinUnresolvedONVBasis).
Hypothesis HN : 0 <= N <= M.
Hypothesis HM : M <= 31.
Hypothesis Hb : construct M N = Ok b.

Lemma representationOf_loop_decode (p : nat) :
  forall (m : nat) (a : nat) r x,
  (1 <= m)%nat -> Z.of_nat p <= M -> Z.of_nat m <= N ->
  Z.of_nat p - Z.of_nat m <= M - N ->
  all_onvs p m !! a = Some x -> 0 <= r ->
  representationOf_loop b p (Z.of_nat m) (Z.of_nat a) r = Ok (Z.lor r x).
Proof.
  induction p as [|p IH]; intros m a r x Hm HpM HmN Hband Hx Hr.
  - destruct m; [lia|discriminate].
  - destruct m as [|m]; [lia|].
    cbn [representationOf_loop].
    rewrite (basis_weight M N b) by (lia || assumption).
    assert (Hw : weight_spec M N (Z.of_nat p) (Z.of_nat (S m))
                 = Z.of_nat (length (all_onvs p (S m)))).
    { unfold weight_spec.
      destruct (Z.leb_spec (Z.of_nat p) M); [|lia].
      destruct (Z.leb_spec (Z.of_nat (S m)) N); [|lia].
      destruct (Z.leb_spec (Z.of_nat p - Z.of_nat (S m)) (M - N)); [|lia].
      simpl andb. cbv iota. rewrite all_onvs_length. unfold binomC.
      rewrite !Nat2Z.id. apply wrap_small. apply binom_word. lia. }
    rewrite Hw.
    apply all_onvs_lookup_succ in Hx as [Hx|[Hge (y & Hy & ->)]].
    + pose proof (lookup_lt_Some _ _ _ Hx) as Hlt.
      destruct (Z.leb_spec (Z.of_nat (length (all_onvs p (S m)))) (Z.of_nat a)); [lia|].
      assert ((S m <= p)%nat).
      { destruct (decide (S m <= p)%nat); [assumption|].
        rewrite all_onvs_gt in Hlt by lia. simpl in Hlt. lia. }
      apply IH; (lia || assumption).
    + destruct (Z.leb_spec (Z.of_nat (length (all_onvs p (S m)))) (Z.of_nat a)); [|lia].
      unfold int_one_shl. destruct (Z.ltb_spec (Z.of_nat p) 31); [|lia].
      cbn [mbind outcome_bind].
      pose proof (pow2_word (Z.of_nat p) ltac:(lia)).
      rewrite (wrap_small (2 ^ Z.of_nat p)) by lia.
      replace (wrap (Z.of_nat (S m) - 1)) with (Z.of_nat m)
        by (rewrite wrap_small; unfold word_modulus; lia).
      assert (Hyin : y ∈ all_onvs p m) by (apply list_elem_of_lookup; eauto).
      pose proof (all_onvs_range _ _ _ Hyin) as Hyr.
      assert (E : Z.lor (2 ^ Z.of_nat p) y = 2 ^ Z.of_nat p + y).
      { replace (2 ^ Z.of_nat p) with (1 * 2 ^ Z.of_nat p + 0) at 1 by lia.
        replace y with (0 * 2 ^ Z.of_nat p + y) at 1 by lia.
        rewrite lor_join by lia. rewrite Z.lor_0_r, Z.lor_0_l. lia. }
      destruct (Z.eqb_spec (Z.of_nat m) 0) as [E0|Hne].
      * assert (m = O) by lia. subst m. rewrite all_onvs_0 in Hy.
        apply list_lookup_singleton_Some in Hy as [_ <-].
        now rewrite Z.add_0_r.
      * replace (wrap (Z.of_nat a - Z.of_nat (length (all_onvs p (S m)))))
          with (Z.of_nat (a - length (all_onvs p (S m)))).
        2:{ rewrite wrap_small; [lia|].
            pose proof (lookup_lt_Some _ _ _ Hy) as Hlt.
            pose proof (all_onvs_length p m).
            pose proof (binom_word p m ltac:(lia)). lia. }
        rewrite (IH m _ _ y); try (lia || assumption).
        -- f_equal. now rewrite <- Z.lor_assoc, E.
        -- apply Z.lor_nonneg. lia.
Qed.

Lemma representationOf_all_onvs a x :
  all_onvs (Z.to_nat M) (Z.to_nat N) !! a = Some x ->
  representationOf b (Z.of_nat a) = Ok x.
Proof.
  intros Hx. unfold representationOf.
  rewrite (basis_electrons M N b), (basis_orbitals M N b) by (lia || assumption).
  destruct (Z.eqb_spec N 0) as [->|Hne].
  - change (Z.to_nat 0) with O in Hx. rewrite all_onvs_0 in Hx.
    apply list_lookup_singleton_Some in Hx as [_ <-]. reflexivity.
  - pose proof (representationOf_loop_decode (Z.to_nat M) (Z.to_nat N) a 0 x
                  ltac:(lia) ltac:(lia) ltac:(lia) ltac:(lia) Hx ltac:(lia)) as Hd.
    rewrite Z2Nat.id in Hd by lia. rewrite Hd. now rewrite Z.lor_0_l.
Qed.

(** X1.  The addressing scheme is a bijection between the addresses below
    [C(M,N)] and the bitstrings with [N] bits set below bit [M], as long as
    no orbital index reaches 31. *)
Lemma round_trip_up_to_31_orbitals :
  (forall a, 0 <= a < binomC M N ->
     exists r, representationOf b a = Ok r /\ addressOf b r = Some a) /\
  (forall c, 0 <= c < 2 ^ M -> popcount c = Z.to_nat N ->
     exists a, addressOf b c = Some a /\ representationOf b a = Ok c).
Proof.
  split.
  - intros a Ha.
    destruct (lookup_lt_is_Some_2 (all_onvs (Z.to_nat M) (Z.to_nat N)) (Z.to_nat a)) as [x Hx].
    { pose proof (all_onvs_length (Z.to_nat M) (Z.to_nat N)). unfold binomC in Ha. lia. }
    exists x. split.
    + rewrite <- (representationOf_all_onvs _ _ Hx). f_equal. lia.
    + rewrite (addressOf_all_onvs M N b HN ltac:(lia) Hb _ _ Hx). f_equal. lia.
  - intros c Hc Hp.
    assert (Hin : c ∈ all_onvs (Z.to_nat M) (Z.to_nat N)).
    { apply all_onvs_complete; [|assumption]. rewrite Z2Nat.id by lia. assumption. }
    apply list_elem_of_lookup in Hin as [i Hi].
    exists (Z.of_nat i). split.
    + apply (addressOf_all_onvs M N b HN ltac:(lia) Hb _ _ Hi).
    + now apply representationOf_all_onvs.
Qed.
End Decode.

(** ** C1: the round trip beyond 31 orbitals *)

(** C1 (failing input).  With 32 orbitals and 1 electron, the representation
    [c = 2^31] (orbital 31 occupied) has address 31, but [representationOf(31)]
    is [0xFFFFFFFF80000000]: the [int] constant in [(1) << (p - 1)] makes
    [1 << 31] the negative [INT_MIN], which is sign-extended when it is or-ed
    into the 64-bit representation.  So [representationOf(addressOf(c)) != c]. *)
Theorem representationOf_sign_extends_bit_31 :
  exists b, construct 32 1 = Ok b /\
    popcount (2 ^ 31) = 1%nat /\
    addressOf b (2 ^ 31) = Some 31 /\
    representationOf b 31 = Ok 18446744071562067968 /\
    18446744071562067968 <> 2 ^ 31.
Proof.
  destruct (construct 32 1) as [b| |] eqn:E; try (vm_compute in E; discriminate).
  exists b. split; [reflexivity|].
  assert (Ok b = construct 32 1) as Hb by (symmetry; exact E).
  vm_compute in Hb. inversion Hb; subst. clear.
  repeat split; try (vm_compute; reflexivity). discriminate.
Qed.

(** ** C3: the sweep of [forEach] *)

(** C3 (as amended).  For a basis with [0 < N <= M <= 64] and [N <= 31],
    [forEach] invokes its callback exactly [C(M,N)] times; at invocation [i]
    the address passed is [i], the representation passed has address [i]
    under [addressOf], has exactly [N] bits set, all below bit [M]; and the
    representations of successive invocations strictly increase. *)
Theorem forEach_sweep (M N : Z) :
  0 < N <= M -> M <= 64 -> N <= 31 ->
  exists b calls, construct M N = Ok b /\ forEach b = Ok calls /\
    Z.of_nat (length calls) = binomC M N /\
    (forall i onv a, calls !! i = Some (onv, a) ->
       a = Z.of_nat i /\
       addressOf b (unsignedRepresentation onv) = Some (Z.of_nat i) /\
       popcount (unsignedRepresentation onv) = Z.to_nat N /\
       0 <= unsignedRepresentation onv < 2 ^ M) /\
    (forall i onv1 a1 onv2 a2,
       calls !! i = Some (onv1, a1) -> calls !! S i = Some (onv2, a2) ->
       unsignedRepresentation onv1 < unsignedRepresentation onv2).
Proof.
  intros HN HM HN31.
  destruct (construct_table M N ltac:(lia) ltac:(unfold word_modulus; lia)) as (t & Hb & _).
  set (b := mkONVBasis M N t) in *.
  exists b, (enumeration M N).
  split; [assumption|].
  split; [apply (forEach_enumeration M N b); (lia || assumption)|].
  split; [apply enumeration_length|].
  assert (Hlook : forall i onv a, enumeration M N !! i = Some (onv, a) ->
            exists x, all_onvs (Z.to_nat M) (Z.to_nat N) !! i = Some x /\
                      onv = mkONV M N x /\ a = Z.of_nat i).
  { intros i onv a H. unfold enumeration in H. rewrite list_lookup_imap in H.
    destruct (all_onvs (Z.to_nat M) (Z.to_nat N) !! i) as [x|]; [|discriminate].
    injection H as <- <-. eauto. }
  split.
  - intros i onv a H. destruct (Hlook _ _ _ H) as (x & Hx & -> & ->).
    cbn [unsignedRepresentation].
    assert (Hin : x ∈ all_onvs (Z.to_nat M) (Z.to_nat N)) by (apply list_elem_of_lookup; eauto).
    split; [reflexivity|].
    split; [apply (addressOf_all_onvs M N b); (lia || assumption)|].
    split; [now apply all_onvs_popcount with (Z.to_nat M)|].
    apply all_onvs_range in Hin. now rewrite Z2Nat.id in Hin by lia.
  - intros i onv1 a1 onv2 a2 H1 H2.
    destruct (Hlook _ _ _ H1) as (x & Hx & -> & _).
    destruct (Hlook _ _ _ H2) as (y & Hy & -> & _).
    cbn [unsignedRepresentation].
    apply (all_onvs_increasing (Z.to_nat M) (Z.to_nat N) i (S i) x y); (lia || assumption).
Qed.

(** C3 at 5 orbitals and 2 electrons. *)
Lemma forEach_sweep_witness :
  exists b calls, construct 5 2 = Ok b /\ forEach b = Ok calls /\
    Z.of_nat (length calls) = binomC 5 2 /\
    (forall i onv a, calls !! i = Some (onv, a) ->
       a = Z.of_nat i /\
       addressOf b (unsignedRepresentation onv) = Some (Z.of_nat i) /\
       popcount (unsignedRepresentation onv) = Z.to_nat 2 /\
       0 <= unsignedRepresentation onv < 2 ^ 5) /\
    (forall i onv1 a1 onv2 a2,
       calls !! i = Some (onv1, a1) -> calls !! S i = Some (onv2, a2) ->
       unsignedRepresentation onv1 < unsignedRepresentation onv2).
Proof.
  apply (forEach_sweep 5 2); lia.
Defined.

(** C3 as stated fails: with 65 orbitals and 1 electron the sweep reaches
    the representation [2^63], whose next permutation shifts an
    [unsigned long] by 64 bits: the 65 invocations promised do not happen. *)
Lemma forEach_65_orbitals :
  exists b, construct 65 1 = Ok b /\ forEach b = Undefined.
Proof.
  destruct (construct 65 1) as [b| |] eqn:E; try (vm_compute in E; discriminate).
  exists b. split; [reflexivity|].
  assert (Ok b = construct 65 1) as Hb by (symmetry; exact E).
  vm_compute in Hb. inversion Hb; subst. clear. vm_compute. reflexivity.
Qed.

(** X1 in the basis of 5 orbitals and 2 electrons. *)
Lemma round_trip_up_to_31_orbitals_witness :
  exists b, construct 5 2 = Ok b /\
    (forall a, 0 <= a < binomC 5 2 ->
       exists r, representationOf b a = Ok r /\ addressOf b r = Some a) /\
    (forall c, 0 <= c < 2 ^ 5 -> popcount c = Z.to_nat 2 ->
       exists a, addressOf b c = Some a /\ representationOf b a = Ok c).
Proof.
  destruct (construct_table 5 2 ltac:(lia) ltac:(reflexivity)) as (t & Ht & _).
  exists (mkONVBasis 5 2 t). split; [exact Ht|].
  apply (round_trip_up_to_31_orbitals 5 2 _); [lia|lia|exact Ht].
Defined.

(** ** Coupling counts *)

Lemma binom_absorb n k :
  (Z.of_nat k + 1) * binom n (S k) = (Z.of_nat n - Z.of_nat k) * binom n k.
Proof.
  revert k. induction n as [|n IH]; intros k.
  - destruct k as [|k]; simpl; lia.
  - destruct k as [|k].
    + rewrite binom_1_r, binom_0_r. lia.
    + change (binom (S n) (S (S k))) with (binom n (S (S k)) + binom n (S k)).
      change (binom (S n) (S k)) with (binom n (S k) + binom n k).
      pose proof (IH (S k)) as H1. pose proof (IH k) as H2.
      rewrite !Nat2Z.inj_succ in *.
      set (u := binom n (S k)) in *. set (v := binom n k) in *.
      set (w := binom n (S (S k))) in *.
      set (kk := Z.of_nat k) in *. set (nn := Z.of_nat n) in *.
      transitivity ((nn + 1) * u).
      * rewrite Z.mul_add_distr_l, H1. ring.
      * replace ((Z.succ nn - Z.succ kk) * (u + v))
          with ((nn - kk) * u + (nn - kk) * v) by ring.
        replace ((nn - kk) * v) with ((kk + 1) * u) by (rewrite <- H2; ring).
        ring.
Qed.

Lemma coupling_sum_app V e l1 l2 :
  coupling_sum V e (l1 ++ l2)
    = coupling_sum V e l1 + coupling_sum V (e + Z.of_nat (length l1)) l2.
Proof.
  revert e. induction l1 as [|p l1 IH]; intros e.
  - simpl. now rewrite Z.add_0_r.
  - cbn [app coupling_sum length]. rewrite IH.
    replace (e + 1 + Z.of_nat (length l1)) with (e + Z.of_nat (S (length l1))) by lia.
    lia.
Qed.

Lemma coupling_sum_more_virtuals V d e l :
  coupling_sum (V + d) e l = coupling_sum V e l + d * Z.of_nat (length l).
Proof.
  revert e. induction l as [|p l IH]; intros e.
  - simpl. lia.
  - cbn [coupling_sum length]. rewrite IH. lia.
Qed.

(** The loop of [countOneElectronCouplings], for any representation with
    [N] bits set. *)
Lemma countOneElectronCouplings_sum b M N x :
  numberOfOrbitals b = M -> numberOfElectrons b = N ->
  0 <= N <= M -> M < word_modulus -> popcount x = Z.to_nat N ->
  countOneElectronCouplings b (mkONV M N x)
    = Ok (wrap (coupling_sum (M - N) 0 (set_bits x))).
Proof.
  intros EM EN HN HM Hp. unfold countOneElectronCouplings. rewrite EM, EN.
  rewrite (wrap_small (M - N)) by lia.
  destruct (for_range_invariant
    (fun e c => c = wrap (coupling_sum (M - N) 0 (take (Z.to_nat e) (set_bits x))))
    (fun e1 coupling_count =>
       p ← occupationIndexOf (mkONV M N x) e1;
       Ok (wrap (coupling_count + wrap (M - N + e1 - p)))) 0 N 0)
    as (c & Hc & ->).
  - lia.
  - reflexivity.
  - intros e c He ->. unfold occupationIndexOf. cbn [unsignedRepresentation].
    destruct (lookup_lt_is_Some_2 (set_bits x) (Z.to_nat e)) as [p Hp'].
    { unfold popcount in Hp. lia. }
    rewrite Hp'. cbn [mbind outcome_bind]. eexists. split; [reflexivity|].
    replace (Z.to_nat (e + 1)) with (S (Z.to_nat e)) by lia.
    rewrite (take_S_r _ _ _ Hp'), coupling_sum_app.
    cbn [coupling_sum]. rewrite length_take.
    replace (Z.of_nat (Z.to_nat e `min` length (set_bits x))) with e
      by (unfold popcount in Hp; lia).
    rewrite wrap_add_r, wrap_add_l. f_equal. lia.
  - rewrite Hc. f_equal. f_equal. f_equal. apply take_ge. unfold popcount in Hp. lia.
Qed.

Lemma coupling_sum_range M N x :
  x ∈ all_onvs M N ->
  0 <= coupling_sum (Z.of_nat M - Z.of_nat N) 0 (set_bits x)
    <= Z.of_nat N * (Z.of_nat M - Z.of_nat N).
Proof.
  revert N x. induction M as [|M IH]; intros [|N] x Hx.
  - apply list_elem_of_singleton in Hx. subst. simpl. lia.
  - inversion Hx.
  - rewrite all_onvs_0 in Hx. apply list_elem_of_singleton in Hx. subst. simpl. lia.
  - apply list_elem_of_lookup in Hx as [i Hi].
    apply all_onvs_lookup_succ in Hi as [Hi|[_ (y & Hy & ->)]].
    + assert (Hin : x ∈ all_onvs M (S N)) by (apply list_elem_of_lookup; eauto).
      pose proof (IH _ _ Hin) as HI.
      pose proof (all_onvs_popcount _ _ _ Hin) as Hp. unfold popcount in Hp.
      replace (Z.of_nat (S M) - Z.of_nat (S N)) with (Z.of_nat M - Z.of_nat (S N) + 1) by lia.
      rewrite coupling_sum_more_virtuals, Hp. lia.
    + assert (Hin : y ∈ all_onvs M N) by (apply list_elem_of_lookup; eauto).
      pose proof (IH _ _ Hin) as HI.
      pose proof (all_onvs_popcount _ _ _ Hin) as Hp. unfold popcount in Hp.
      pose proof (all_onvs_range _ _ _ Hin) as Hr.
      rewrite set_bits_high by lia. rewrite coupling_sum_app, Hp.
      cbn [coupling_sum].
      replace (Z.of_nat (S M) - Z.of_nat (S N)) with (Z.of_nat M - Z.of_nat N) by lia.
      assert (N <= M)%nat.
      { destruct (decide (N <= M)%nat); [assumption|].
        rewrite all_onvs_gt in Hin by lia. inversion Hin. }
      nia.
Qed.

Lemma sum_Z_app l1 l2 : sum_Z (l1 ++ l2) = sum_Z l1 + sum_Z l2.
Proof. induction l1 as [|a l1 IH]; simpl; [reflexivity|]. unfold sum_Z in *. simpl. lia. Qed.

Lemma sum_Z_fmap_ext {A} (f g : A -> Z) (l : list A) (c : Z) :
  (forall x, x ∈ l -> f x = g x + c) ->
  sum_Z (f <$> l) = sum_Z (g <$> l) + c * Z.of_nat (length l).
Proof.
  induction l as [|a l IH]; intros H.
  - simpl. lia.
  - cbn [fmap list_fmap length]. unfold sum_Z in *. cbn [foldr].
    rewrite (H a) by left. rewrite IH by (intros; apply H; now right). lia.
Qed.

(** Twice the number of couplings counted over all configurations. *)
Lemma coupling_sum_total M N :
  2 * sum_Z ((fun x => coupling_sum (Z.of_nat M - Z.of_nat N) 0 (set_bits x))
               <$> all_onvs M N)
    = (Z.of_nat M - Z.of_nat N) * Z.of_nat N * binom M N.
Proof.
  revert N. induction M as [|M IH]; intros [|N].
  - simpl. lia.
  - simpl. lia.
  - rewrite all_onvs_0. simpl. lia.
  - rewrite all_onvs_succ, fmap_app, sum_Z_app.
    rewrite (sum_Z_fmap_ext _
      (fun x => coupling_sum (Z.of_nat M - Z.of_nat (S N)) 0 (set_bits x))
      (all_onvs M (S N)) (Z.of_nat (S N))).
    2:{ intros x Hx.
        pose proof (all_onvs_popcount _ _ _ Hx) as Hp. unfold popcount in Hp.
        replace (Z.of_nat (S M) - Z.of_nat (S N)) with (Z.of_nat M - Z.of_nat (S N) + 1) by lia.
        rewrite coupling_sum_more_virtuals, Hp. lia. }
    rewrite <- list_fmap_compose.
    rewrite (sum_Z_fmap_ext _
      (fun x => coupling_sum (Z.of_nat M - Z.of_nat N) 0 (set_bits x))
      (all_onvs M N) 0).
    2:{ intros y Hy. unfold compose.
        pose proof (all_onvs_popcount _ _ _ Hy) as Hp. unfold popcount in Hp.
        pose proof (all_onvs_range _ _ _ Hy) as Hr.
        rewrite set_bits_high by lia. rewrite coupling_sum_app, Hp.
        cbn [coupling_sum].
        replace (Z.of_nat (S M) - Z.of_nat (S N)) with (Z.of_nat M - Z.of_nat N) by lia.
        lia. }
    pose proof (IH (S N)) as H1. pose proof (IH N) as H2.
    pose proof (binom_absorb M N) as Habs.
    rewrite (all_onvs_length M (S N)).
    change (binom (S M) (S N)) with (binom M (S N) + binom M N).
    set (s1 := sum_Z (_ <$> all_onvs M (S N))) in *.
    set (s2 := sum_Z (_ <$> all_onvs M N)) in *.
    rewrite !Nat2Z.inj_succ in *.
    set (u := binom M (S N)) in *. set (v := binom M N) in *.
    set (m := Z.of_nat M) in *. set (n := Z.of_nat N) in *.
    replace (Z.succ m - Z.succ n) with (m - n) by lia.
    replace (Z.succ n) with (n + 1) in * by lia.
    transitivity (2 * s1 + 2 * s2 + 2 * (n + 1) * u); [ring|].
    rewrite H1, H2.
    replace ((m - n) * (n + 1) * (u + v))
      with ((m - n) * (n + 1) * u + (m - n) * n * v + (m - n) * v) by ring.
    rewrite <- Habs. ring.
Qed.

Lemma all_onvs_spec M N x :
  x ∈ all_onvs M N <-> 0 <= x < 2 ^ Z.of_nat M /\ popcount x = N.
Proof.
  split.
  - intros H. split; [now apply all_onvs_range with N|now apply all_onvs_popcount with M].
  - intros [H1 H2]. now apply all_onvs_complete.
Qed.

(** C5 (as amended).  For a basis with [N <= M <= 64],
    [countTotalOneElectronCouplings()] returns [(M-N) * N * C(M,N)] reduced
    modulo [2^64], hence that product itself whenever it is below [2^64]; and
    the product (over the integers) is twice the sum of
    [countOneElectronCouplings(onv)] over all configurations of the basis,
    which are the [C(M,N)] bitstrings with [N] bits set below bit [M], each
    listed once. *)
Theorem one_electron_coupling_counts (M N : Z) :
  0 <= N <= M -> M <= 64 ->
  exists b, construct M N = Ok b /\
    countTotalOneElectronCouplings b = Ok (wrap ((M - N) * N * binomC M N)) /\
    ((M - N) * N * binomC M N < word_modulus ->
       countTotalOneElectronCouplings b = Ok ((M - N) * N * binomC M N)) /\
    let onvs := all_onvs (Z.to_nat M) (Z.to_nat N) in
    NoDup onvs /\ Z.of_nat (length onvs) = binomC M N /\
    (forall x, x ∈ onvs <-> 0 <= x < 2 ^ M /\ popcount x = Z.to_nat N) /\
    exists counts,
      Forall2 (fun x c => countOneElectronCouplings b (mkONV M N x) = Ok c) onvs counts /\
      (M - N) * N * binomC M N = 2 * sum_Z counts.
Proof.
  intros HN HM.
  destruct (construct_table M N ltac:(lia) ltac:(unfold word_modulus; lia)) as (t & Hb & _).
  set (b := mkONVBasis M N t) in *.
  exists b. split; [assumption|].
  assert (Htot : countTotalOneElectronCouplings b = Ok (wrap ((M - N) * N * binomC M N))).
  { unfold countTotalOneElectronCouplings.
    rewrite (basis_dimension M N b) by (lia || assumption).
    cbn [mbind outcome_bind numberOfOrbitals numberOfElectrons b].
    rewrite (wrap_small (M - N)) by (unfold word_modulus; lia). reflexivity. }
  split; [assumption|].
  split.
  { intros Hlt. rewrite Htot. f_equal. apply wrap_small. split; [|assumption].
    apply Z.mul_nonneg_nonneg; [apply Z.mul_nonneg_nonneg; lia|apply binomC_nonneg]. }
  cbv zeta.
  split; [apply all_onvs_NoDup|].
  split; [apply all_onvs_length|].
  split.
  { intros x. rewrite all_onvs_spec. now rewrite Z2Nat.id by lia. }
  exists ((fun x => coupling_sum (M - N) 0 (set_bits x)) <$> all_onvs (Z.to_nat M) (Z.to_nat N)).
  split.
  - apply Forall2_fmap_r. apply Forall_Forall2_diag. apply Forall_forall.
    intros x Hx. apply list_elem_of_In in Hx.
    rewrite (countOneElectronCouplings_sum b M N x); try reflexivity; try lia.
    + f_equal. apply wrap_small.
      pose proof (coupling_sum_range _ _ _ Hx) as Hr.
      rewrite !Z2Nat.id in Hr by lia. unfold word_modulus.
      assert (N * (M - N) <= 64 * 64) by nia. lia.
    + unfold word_modulus. lia.
    + now apply all_onvs_popcount with (Z.to_nat M).
  - pose proof (coupling_sum_total (Z.to_nat M) (Z.to_nat N)) as Ht.
    rewrite !Z2Nat.id in Ht by lia. rewrite Ht. reflexivity.
Qed.

(** C5 at 5 orbitals and 2 electrons. *)
Lemma one_electron_coupling_counts_witness :
  exists b, construct 5 2 = Ok b /\
    countTotalOneElectronCouplings b = Ok (wrap ((5 - 2) * 2 * binomC 5 2)) /\
    ((5 - 2) * 2 * binomC 5 2 < word_modulus ->
       countTotalOneElectronCouplings b = Ok ((5 - 2) * 2 * binomC 5 2)) /\
    let onvs := all_onvs (Z.to_nat 5) (Z.to_nat 2) in
    NoDup onvs /\ Z.of_nat (length onvs) = binomC 5 2 /\
    (forall x, x ∈ onvs <-> 0 <= x < 2 ^ 5 /\ popcount x = Z.to_nat 2) /\
    exists counts,
      Forall2 (fun x c => countOneElectronCouplings b (mkONV 5 2 x) = Ok c) onvs counts /\
      (5 - 2) * 2 * binomC 5 2 = 2 * sum_Z counts.
Proof.
  apply (one_electron_coupling_counts 5 2); lia.
Defined.

(** C5 as stated fails: with 64 orbitals and 32 electrons the product
    [(M-N) * N * C(M,N)] exceeds [2^64] and the function returns it reduced. *)
Lemma one_electron_coupling_total_wraps_64_32 :
  exists b, construct 64 32 = Ok b /\
    countTotalOneElectronCouplings b <> Ok ((64 - 32) * 32 * binomC 64 32).
Proof.
  destruct (construct 64 32) as [b| |] eqn:E; try (vm_compute in E; discriminate).
  exists b. split; [reflexivity|].
  rewrite binomC_closed by lia.
  assert (Ok b = construct 64 32) as Hb by (symmetry; exact E).
  vm_compute in Hb. inversion Hb; subst. clear. vm_compute. discriminate.
Qed.

(** ** The dimension in double precision *)

Lemma digits2_pos_bounds m :
  2 ^ (Z.pos (digits2_pos m) - 1) <= Z.pos m < 2 ^ Z.pos (digits2_pos m).
Proof.
  induction m as [m IH|m IH|]; cbn [digits2_pos].
  - rewrite Pos2Z.inj_succ, Pos2Z.inj_xI.
    replace (Z.succ (Z.pos (digits2_pos m)) - 1) with (Z.succ (Z.pos (digits2_pos m) - 1)) by lia.
    rewrite !Z.pow_succ_r by lia. lia.
  - rewrite Pos2Z.inj_succ. change (Z.pos m~0) with (2 * Z.pos m).
    replace (Z.succ (Z.pos (digits2_pos m)) - 1) with (Z.succ (Z.pos (digits2_pos m) - 1)) by lia.
    rewrite !Z.pow_succ_r by lia. lia.
  - simpl. lia.
Qed.

(** A double that is at least [2^60] and below [2^61] is a multiple of 256. *)
Lemma double_spacing_at_2_60 s m e v :
  is_double (S754_finite s m e) = true ->
  double_trunc (S754_finite s m e) = Some v ->
  2 ^ 60 <= v < 2 ^ 61 -> v mod 256 = 0.
Proof.
  unfold is_double, valid_binary, bounded, canonical_mantissa, fexp, emin.
  intros Hv Ht Hr. apply andb_prop in Hv as [Hc He].
  apply Z.eqb_eq in Hc. apply Z.leb_le in He.
  pose proof (digits2_pos_bounds m) as Hd.
  set (dg := Z.pos (digits2_pos m)) in *.
  assert (Hdg : 1 <= dg) by (unfold dg; lia).
  cbn [double_trunc] in Ht. injection Ht as Ht.
  destruct s; cbv beta iota zeta in Ht.
  { (* negative *)
    exfalso. destruct (Z.leb_spec 0 e).
    - assert (0 <= Z.pos m * 2 ^ e) by (apply Z.mul_nonneg_nonneg; [lia|apply Z.pow_nonneg; lia]).
      assert (0 < 2 ^ 60) by reflexivity. lia.
    - assert (0 <= Z.pos m / 2 ^ (- e)) by (apply Z.div_pos; [lia|apply Z.pow_pos_nonneg; lia]).
      assert (0 < 2 ^ 60) by reflexivity. lia. }
  destruct (Z.leb_spec 0 e) as [Hpos|Hneg].
  - (* an integer mantissa shifted left *)
    assert (dg = 53) by lia.
    assert (Hm : 2 ^ 52 <= Z.pos m < 2 ^ 53) by (rewrite H in Hd; exact Hd).
    destruct (Z.lt_trichotomy e 8) as [Hlt|[->|Hgt]].
    + exfalso.
      assert (2 ^ e <= 2 ^ 7) by (apply pow2_le_mono; lia).
      assert (0 < 2 ^ e) by (apply pow2_pos; lia).
      assert (Z.pos m * 2 ^ e < 2 ^ 53 * 2 ^ 7); [|change (2 ^ 53 * 2 ^ 7) with (2 ^ 60) in *; lia].
      apply Z.lt_le_trans with (2 ^ 53 * 2 ^ e).
      * apply Z.mul_lt_mono_pos_r; lia.
      * apply Z.mul_le_mono_nonneg_l; [|assumption]. apply Z.pow_nonneg. lia.
    + subst v. change (2 ^ 8) with 256. apply Z.mod_mul. lia.
    + exfalso.
      assert (2 ^ 9 <= 2 ^ e) by (apply pow2_le_mono; lia).
      assert (2 ^ 52 * 2 ^ 9 <= Z.pos m * 2 ^ e); [|change (2 ^ 52 * 2 ^ 9) with (2 ^ 61) in *; lia].
      apply Z.le_trans with (2 ^ 52 * 2 ^ e).
      * apply Z.mul_le_mono_nonneg_l; [|assumption]. apply Z.pow_nonneg. lia.
      * apply Z.mul_le_mono_nonneg_r; [apply Z.pow_nonneg; lia|lia].
  - (* a mantissa shifted right: below 2^53 *)
    exfalso. assert (dg <= 53) by lia.
    assert (Z.pos m < 2 ^ 53).
    { apply Z.lt_le_trans with (2 ^ dg); [lia|]. apply pow2_le_mono. lia. }
    assert (Z.pos m / 2 ^ (- e) <= Z.pos m).
    { apply Z.div_le_upper_bound; [apply pow2_pos; lia|].
      pose proof (pow2_pos (- e) ltac:(lia)). nia. }
    assert (2 ^ 53 < 2 ^ 60) by reflexivity. lia.
Qed.

Lemma converter_convert_Ok d v :
  converter_convert d = Ok v -> double_trunc d = Some v /\ 0 <= v < word_modulus.
Proof.
  unfold converter_convert.
  destruct d as [s|s| |s m e]; try discriminate.
  - cbn [double_trunc]. simpl. intros [= <-]. split; [reflexivity|]. unfold word_modulus. lia.
  - destruct (double_trunc (S754_finite s m e)) as [w|]; [|discriminate].
    destruct (Z.leb_spec w (-1)); [discriminate|].
    destruct (Z.leb_spec word_modulus w); [discriminate|].
    simpl. intros [= <-]. split; [reflexivity|lia].
Qed.

Lemma double_is_trunc d c : double_is d c -> double_trunc d = Some c.
Proof.
  destruct d as [s|s| |s m e]; cbn [double_is double_trunc]; try tauto.
  - intros ->. reflexivity.
  - intros H. f_equal. destruct (Z.leb_spec 0 e) as [Hpos|Hneg].
    + rewrite Z.min_r, Z.max_l in H by lia. simpl (- 0) in H.
      rewrite Z.pow_0_r, Z.mul_1_r in H. destruct s; lia.
    + rewrite Z.min_l, Z.max_r in H by lia.
      rewrite Z.pow_0_r, Z.mul_1_r in H. rewrite <- H.
      rewrite Z.div_mul by (pose proof (pow2_pos (- e) ltac:(lia)); lia).
      destruct s; lia.
Qed.

(** C8 (as amended).  [calculateDimension(M, N)] converts the double [d] that
    the library's binomial routine computes: it returns the integer part of
    [d] whenever that lies in [[0, 2^64)], hence exactly [C(M,N)] whenever [d]
    is exactly [C(M,N)], and raises an overflow error whenever the integer
    part of [d] is [2^64] or more, or [d] is infinite. *)
Theorem calculateDimension_converts
    (binomial_coefficient : Z -> Z -> outcome double) (M N : Z) (d : double) :
  binomial_coefficient (M mod 2 ^ 32) (N mod 2 ^ 32) = Ok d ->
  (forall v, double_trunc d = Some v -> 0 <= v < word_modulus ->
     calculateDimension binomial_coefficient M N = Ok v) /\
  (double_is d (binomC M N) -> binomC M N < word_modulus ->
     calculateDimension binomial_coefficient M N = Ok (binomC M N)) /\
  (forall v, double_trunc d = Some v -> word_modulus <= v ->
     calculateDimension binomial_coefficient M N = Throw OverflowError) /\
  (forall s, d = S754_infinity s ->
     calculateDimension binomial_coefficient M N = Throw OverflowError).
Proof.
  intros Hd. unfold calculateDimension. rewrite Hd. cbn [mbind outcome_bind].
  assert (Hsmall : forall v, double_trunc d = Some v -> 0 <= v < word_modulus ->
            match converter_convert d with
            | Throw BadNumericCast => Throw OverflowError
            | r => r
            end = Ok v).
  { intros v Hv Hr. unfold converter_convert.
    destruct d as [s|s| |s m e]; try discriminate; rewrite Hv.
    - injection Hv as <-. reflexivity.
    - destruct (Z.leb_spec v (-1)); [lia|].
      destruct (Z.leb_spec word_modulus v); [lia|]. reflexivity. }
  split; [exact Hsmall|].
  split.
  { intros His Hlt. apply Hsmall; [now apply double_is_trunc|].
    split; [apply binomC_nonneg|assumption]. }
  split.
  - intros v Hv Hbig. unfold converter_convert.
    destruct d as [s|s| |s m e]; try discriminate; rewrite Hv.
    + injection Hv as <-. unfold word_modulus in Hbig. lia.
    + destruct (Z.leb_spec v (-1)); [reflexivity|].
      destruct (Z.leb_spec word_modulus v); [reflexivity|lia].
  - intros s ->. reflexivity.
Qed.

(** C8 for a binomial routine that returns the double 10 at (5, 2): the
    exact value [C(5,2) = 10] comes back. *)
Lemma calculateDimension_converts_witness :
  is_double (S754_finite false 5629499534213120 (-49)) = true /\
  double_is (S754_finite false 5629499534213120 (-49)) (binomC 5 2) /\
  calculateDimension (fun _ _ => Ok (S754_finite false 5629499534213120 (-49))) 5 2
  = Ok (binomC 5 2).
Proof.
  split; [reflexivity|]. split; [reflexivity|].
  apply (calculateDimension_converts
           (fun _ _ => Ok (S754_finite false 5629499534213120 (-49))) 5 2
           (S754_finite false 5629499534213120 (-49)) eq_refl);
    reflexivity.
Defined.

(** C8 as stated fails: [C(64,32) = 1832624140942590534] fits a [size_t], but
    it is not a multiple of 256 and so is not a double; whatever double the
    binomial routine returns, [calculateDimension(64, 32)] cannot return
    [C(64,32)], and it raises no error when it returns a neighbouring value. *)
Lemma calculateDimension_64_32_inexact :
  binomC 64 32 < word_modulus /\
  forall binomial_coefficient : Z -> Z -> outcome double,
    (forall n k d, binomial_coefficient n k = Ok d -> is_double d = true) ->
    calculateDimension binomial_coefficient 64 32 <> Ok (binomC 64 32).
Proof.
  rewrite binomC_closed by lia.
  assert (Ec : binomial_closed (Z.to_nat 64) (Z.to_nat 32) = 1832624140942590534)
    by (vm_compute; reflexivity).
  rewrite Ec. clear Ec. split; [reflexivity|].
  intros bc Hvalid Hcalc. unfold calculateDimension in Hcalc.
  destruct (bc (64 mod 2 ^ 32) (32 mod 2 ^ 32)) as [d| |] eqn:Hd; try discriminate.
  cbn [mbind outcome_bind] in Hcalc.
  assert (Hconv : converter_convert d = Ok 1832624140942590534).
  { destruct (converter_convert d) as [v|[]|]; try discriminate; assumption. }
  apply converter_convert_Ok in Hconv as [Ht _].
  destruct d as [s|s| |s m e]; try discriminate.
  pose proof (double_spacing_at_2_60 s m e _ (Hvalid _ _ _ Hd) Ht) as Hmod.
  assert (2 ^ 60 <= 1832624140942590534 < 2 ^ 61) by (split; [discriminate|reflexivity]).
  specialize (Hmod ltac:(assumption)). vm_compute in Hmod. discriminate.
Qed.

(** ** Dense evaluation *)

(** C7.  When the number of orbitals of the operator (a one-electron operator
    or a Hamiltonian) differs from that of the basis, [evaluateOperatorDense]
    raises an invalid-argument error and nothing has happened before: no
    container was allocated, no element evaluated.  When the numbers agree, no
    invalid-argument error is raised. *)
Theorem evaluateOperatorDense_checks_orbitals
    {Operator SquareMatrix : Type}
    (operator_numberOfOrbitals : Operator -> Z)
    (evaluate : SpinUnresolvedONVBasis -> Operator -> Z -> SquareMatrix)
    (b : SpinUnresolvedONVBasis) (f : Operator) :
  (operator_numberOfOrbitals f <> numberOfOrbitals b ->
     evaluateOperatorDense operator_numberOfOrbitals evaluate b f
       = ([], Throw InvalidArgument)) /\
  (operator_numberOfOrbitals f = numberOfOrbitals b ->
     (evaluateOperatorDense operator_numberOfOrbitals evaluate b f).2
       <> Throw InvalidArgument).
Proof.
  unfold evaluateOperatorDense. split.
  - intros Hne. destruct (Z.eqb_spec (operator_numberOfOrbitals f) (numberOfOrbitals b));
      [contradiction|reflexivity].
  - intros ->. rewrite Z.eqb_refl. cbn [negb].
    unfold dimension.
    destruct (_ <? word_modulus); cbn; discriminate.
Qed.

(** ** One-electron couplings: what a completed run leaves behind *)

Lemma outcome_bind_Ok {A B} (c : outcome A) (k : A -> outcome B) r :
  c ≫= k = Ok r -> exists a, c = Ok a /\ k a = Ok r.
Proof. destruct c as [a| |]; intros H; try discriminate. exists a. auto. Qed.

(** A property of the state that every completed round keeps is kept by the
    loop, when it completes. *)
Lemma for_loop_preserves {St} (P : St -> Prop) (body : Z -> St -> outcome St) n i s s' :
  (forall j t t', P t -> body j t = Ok t' -> P t') ->
  P s -> for_loop n i body s = Ok s' -> P s'.
Proof.
  intros Hstep. revert i s. induction n as [|n IH]; intros i s Hs Hl; simpl in Hl.
  - injection Hl as <-. assumption.
  - destruct (body i s) as [t| |] eqn:Hb; try discriminate.
    eapply IH; [|exact Hl]. eauto.
Qed.

Lemma mirror_involutive t : mirror (mirror t) = t.
Proof. now destruct t. Qed.

Lemma hermitian_nil : hermitian [].
Proof. intros t Ht. now apply elem_of_nil in Ht. Qed.

Lemma hermitian_snoc_diagonal l t :
  hermitian l -> triplet_row t = triplet_col t -> hermitian (l ++ [t]).
Proof.
  intros Hl Hd u Hu Hoff. apply elem_of_app in Hu as [Hu|Hu].
  - apply elem_of_app. left. now apply Hl.
  - apply list_elem_of_singleton in Hu. subst u. contradiction.
Qed.

Lemma hermitian_snoc_pair l t : hermitian l -> hermitian ((l ++ [t]) ++ [mirror t]).
Proof.
  intros Hl u Hu Hoff. rewrite !elem_of_app in Hu. rewrite !elem_of_app.
  destruct Hu as [[Hu|Hu]|Hu].
  - left. left. now apply Hl.
  - apply list_elem_of_singleton in Hu. subst u. right. apply list_elem_of_singleton. reflexivity.
  - apply list_elem_of_singleton in Hu. subst u. left. right.
    rewrite mirror_involutive. apply list_elem_of_singleton. reflexivity.
Qed.

Lemma emplace_back_Ok k t entries entries' :
  emplace_back k t entries = Ok entries' ->
  exists l, entries !! Z.to_nat k = Some l /\ entries' = <[Z.to_nat k := l ++ [t]]> entries.
Proof.
  unfold emplace_back. destruct (entries !! Z.to_nat k) as [l|]; intros H; try discriminate.
  injection H as <-. eauto.
Qed.

Lemma emplace_back_length k t entries entries' :
  emplace_back k t entries = Ok entries' -> length entries' = length entries.
Proof.
  intros H. apply emplace_back_Ok in H as (l & _ & ->). apply length_insert.
Qed.

Lemma emplace_back_diagonal k t entries entries' :
  Forall hermitian entries -> triplet_row t = triplet_col t ->
  emplace_back k t entries = Ok entries' -> Forall hermitian entries'.
Proof.
  intros HF Hd H. apply emplace_back_Ok in H as (l & Hl & ->).
  apply Forall_insert; [assumption|].
  apply hermitian_snoc_diagonal; [|assumption].
  exact (Forall_lookup_1 _ _ _ _ HF Hl).
Qed.

Lemma emplace_back_pair k t entries entries1 entries2 :
  Forall hermitian entries ->
  emplace_back k t entries = Ok entries1 ->
  emplace_back k (mirror t) entries1 = Ok entries2 ->
  Forall hermitian entries2.
Proof.
  intros HF H1 H2.
  apply emplace_back_Ok in H1 as (l & Hl & ->).
  apply emplace_back_Ok in H2 as (l' & Hl' & ->).
  rewrite list_lookup_insert_eq in Hl' by (eapply lookup_lt_Some; eassumption).
  injection Hl' as <-.
  rewrite list_insert_insert_eq. apply Forall_insert; [assumption|].
  apply hermitian_snoc_pair. exact (Forall_lookup_1 _ _ _ _ HF Hl).
Qed.

Lemma creation_loop_hermitian b onv K I p rounds s entries entries' :
  Forall hermitian entries ->
  creation_loop b onv K I p rounds s entries = Ok entries' ->
  Forall hermitian entries'.
Proof.
  revert s entries. induction rounds as [|rounds IH]; intros s entries HF H;
    cbn [creation_loop] in H;
    destruct (shift_q s <? K); try discriminate; try (injection H as <-; assumption).
  apply outcome_bind_Ok in H as (e1 & H1 & H).
  apply outcome_bind_Ok in H as (e2 & H2 & H).
  apply outcome_bind_Ok in H as (s' & _ & H).
  eapply IH; [|exact H].
  eapply emplace_back_pair; [exact HF|exact H1|exact H2].
Qed.

Lemma annihilation_loop_hermitian b onv I entries entries' :
  Forall hermitian entries ->
  annihilation_loop b onv I entries = Ok entries' ->
  Forall hermitian entries'.
Proof.
  intros HF H. unfold annihilation_loop, for_range in H.
  eapply for_loop_preserves; [|exact HF|exact H].
  intros e1 t t' Ht Hbody. cbv beta in Hbody.
  apply outcome_bind_Ok in Hbody as (p & _ & Hbody).
  apply outcome_bind_Ok in Hbody as (t1 & H1 & Hbody).
  apply outcome_bind_Ok in Hbody as (s & _ & Hbody).
  eapply creation_loop_hermitian; [|exact Hbody].
  refine (emplace_back_diagonal _ _ _ _ Ht _ H1). reflexivity.
Qed.

Lemma collectOneElectronCouplings_hermitian b dim entries entries' :
  Forall hermitian entries ->
  collectOneElectronCouplings b dim entries = Ok entries' ->
  Forall hermitian entries'.
Proof.
  intros HF H. unfold collectOneElectronCouplings in H.
  apply outcome_bind_Ok in H as (onv & _ & H).
  apply outcome_bind_Ok in H as (st & Hst & H).
  injection H as <-. unfold for_range in Hst.
  refine (for_loop_preserves
            (fun st : SpinUnresolvedONV * list (list Triplet) => Forall hermitian st.2)
            _ _ _ (onv, entries) st _ HF Hst).
  intros I [onv0 t] [onv1 t'] Ht Hbody. cbn [fst snd] in *.
  apply outcome_bind_Ok in Hbody as (t1 & H1 & Hbody).
  apply annihilation_loop_hermitian in H1; [|assumption].
  destruct (I <? wrap (dim - 1)).
  - apply outcome_bind_Ok in Hbody as (onv' & _ & Hbody). now injection Hbody as _ <-.
  - now injection Hbody as _ <-.
Qed.

Lemma calculateOneElectronCouplings_hermitian bc b mats :
  calculateOneElectronCouplings bc b = Ok mats ->
  Forall (fun m => hermitian (sparse_triplets m)) mats.
Proof.
  intros H. unfold calculateOneElectronCouplings in H.
  apply outcome_bind_Ok in H as (dim & _ & H). cbv zeta in H.
  destruct (numberOfElectrons b =? 0).
  - injection H as <-. apply Forall_replicate. apply hermitian_nil.
  - apply outcome_bind_Ok in H as (r & _ & H).
    apply outcome_bind_Ok in H as (entries & He & H). injection H as <-.
    apply collectOneElectronCouplings_hermitian in He;
      [|apply Forall_replicate, hermitian_nil].
    apply Forall_lookup_2. intros i m Hm.
    apply lookup_zip_with_Some in Hm as (m0 & l & -> & _ & Hl).
    cbn [setFromTriplets sparse_triplets].
    exact (Forall_lookup_1 _ _ _ _ He Hl).
Qed.

(** ** One-electron couplings: the run completes *)

Lemma pair_index_range K p q :
  0 <= p <= q -> q < K -> K <= 64 ->
  0 <= pair_index K p q < wrap (K * wrap (K + 1)) / 2.
Proof.
  intros Hp Hq HK. unfold pair_index.
  assert (Hw : 2 ^ 14 < word_modulus) by reflexivity.
  assert (HA : 0 <= p * (K + K + 1 - p) <= 64 * 129).
  { split; [apply Z.mul_nonneg_nonneg; lia|].
    apply Z.mul_le_mono_nonneg; lia. }
  assert (HB : 0 <= K * (K + 1) <= 64 * 65).
  { split; [apply Z.mul_nonneg_nonneg; lia|].
    apply Z.mul_le_mono_nonneg; lia. }
  rewrite (wrap_small (K + K + 1 - p)) by lia.
  rewrite (wrap_small (p * _)) by lia.
  rewrite (wrap_small (K + 1)) by lia.
  rewrite (wrap_small (K * _)) by lia.
  set (A := p * (K + K + 1 - p)) in *. set (B := K * (K + 1)) in *.
  assert (HAB : A + 2 * (K - p) <= B).
  { assert (0 <= (K - p) * (K - p - 1)) by (apply Z.mul_nonneg_nonneg; lia).
    replace B with (A + 2 * (K - p) + (K - p) * (K - p - 1)) by (unfold A, B; ring).
    lia. }
  assert (Hdiv : A / 2 + (K - p) <= B / 2).
  { rewrite <- Z.div_add by lia. apply Z.div_le_mono; lia. }
  assert (0 <= A / 2) by (apply Z.div_pos; lia).
  assert (B / 2 <= 64 * 65) by (apply Z.div_le_upper_bound; lia).
  rewrite (wrap_small (A / 2 + q)) by lia.
  rewrite wrap_small by lia. lia.
Qed.

Lemma emplace_back_total k t entries :
  (0 <= k < Z.of_nat (length entries)) ->
  exists entries', emplace_back k t entries = Ok entries' /\ length entries' = length entries.
Proof.
  intros Hk. unfold emplace_back.
  destruct (lookup_lt_is_Some_2 entries (Z.to_nat k) ltac:(lia)) as [l ->].
  eexists. split; [reflexivity|]. apply length_insert.
Qed.

Section CouplingsOfOneONV.
Variables (b : SpinUnresolvedONVBasis) (onv : SpinUnresolvedONV).
Let K := numberOfOrbitals b.
Let N := numberOfElectrons b.
Let pairs := wrap (K * wrap (K + 1)) / 2.
Hypothesis HK : K <= 64.
Hypothesis HN : N <= K.
Hypothesis Hcount : Z.of_nat (length (set_bits (unsignedRepresentation onv))) = N.
Hypothesis Hrange : Forall (fun p => 0 <= p < K) (set_bits (unsignedRepresentation onv)).

Lemma occupationIndexOf_total e :
  0 <= e < N -> exists p, occupationIndexOf onv e = Ok p /\ 0 <= p < K.
Proof.
  intros He. unfold occupationIndexOf.
  destruct (lookup_lt_is_Some_2 (set_bits (unsignedRepresentation onv)) (Z.to_nat e)
              ltac:(lia)) as [p Hp].
  rewrite Hp. exists p. split; [reflexivity|].
  exact (Forall_lookup_1 _ _ _ _ Hrange Hp).
Qed.

Lemma shiftUntilNextUnoccupiedOrbital_loop_total remaining s :
  shift_e s + Z.of_nat remaining = N -> 0 <= shift_e s -> 0 <= shift_q s ->
  exists s', shiftUntilNextUnoccupiedOrbital_loop b onv remaining s = Ok s' /\
    shift_q s <= shift_q s' /\ shift_e s <= shift_e s' <= N.
Proof.
  revert s. induction remaining as [|remaining IH]; intros s He He0 Hq.
  - exists s. split; [reflexivity|]. lia.
  - cbn [shiftUntilNextUnoccupiedOrbital_loop].
    destruct (occupationIndexOf_total (shift_e s) ltac:(lia)) as (p & -> & Hp).
    cbn [mbind outcome_bind].
    destruct (Z.eqb_spec (shift_q s) p) as [Heq|Hne].
    + assert (Hw : 2 ^ 14 < word_modulus) by reflexivity.
      pose proof HK. pose proof HN.
      destruct (IH (mkShiftState
                 (wrap (shift_address s
                        + wrap (vertexWeight b (shift_q s) (shift_e s)
                                - vertexWeight b (shift_q s) (wrap (shift_e s + 1)))))
                 (wrap (shift_q s + 1)) (wrap (shift_e s + 1)) (- shift_sign s)))
        as (s' & Hs' & Hq' & He'); cbn [shift_e shift_q].
      * rewrite wrap_small by lia. lia.
      * rewrite wrap_small by lia. lia.
      * rewrite wrap_small by lia. lia.
      * cbn [shift_e shift_q] in *. rewrite !(wrap_small (_ + 1)) in * by lia.
        exists s'. split; [assumption|]. lia.
    + exists s. split; [reflexivity|]. lia.
Qed.

Lemma shiftUntilNextUnoccupiedOrbital_total s :
  0 <= shift_e s <= N -> 0 <= shift_q s ->
  exists s', shiftUntilNextUnoccupiedOrbital b onv s = Ok s' /\
    shift_q s <= shift_q s' /\ shift_e s <= shift_e s' <= N.
Proof.
  intros He Hq. unfold shiftUntilNextUnoccupiedOrbital.
  apply shiftUntilNextUnoccupiedOrbital_loop_total; fold N; lia.
Qed.

Lemma creation_loop_total I p rounds s entries :
  K - shift_q s <= Z.of_nat rounds -> 0 <= p < shift_q s -> 0 <= shift_e s <= N ->
  Z.of_nat (length entries) = pairs ->
  exists entries', creation_loop b onv K I p rounds s entries = Ok entries' /\
    Z.of_nat (length entries') = pairs.
Proof.
  revert s entries. induction rounds as [|rounds IH]; intros s entries Hr Hp He Hlen;
    cbn [creation_loop]; destruct (Z.ltb_spec (shift_q s) K) as [Hlt|Hge];
    try (exists entries; split; [reflexivity|assumption]); [lia|].
  pose proof (pair_index_range K p (shift_q s) ltac:(lia) Hlt HK) as Hidx.
  fold pairs in Hidx. cbv zeta.
  set (J := wrap (shift_address s + vertexWeight b (shift_q s) (shift_e s))).
  destruct (emplace_back_total (pair_index K p (shift_q s))
              (mkTriplet I J (shift_sign s)) entries ltac:(lia)) as (e1 & H1 & Hl1).
  rewrite H1. cbn [mbind outcome_bind].
  destruct (emplace_back_total (pair_index K p (shift_q s))
              (mkTriplet J I (shift_sign s)) e1 ltac:(lia)) as (e2 & H2 & Hl2).
  rewrite H2. cbn [mbind outcome_bind].
  assert (Hw : 2 ^ 14 < word_modulus) by reflexivity.
  pose proof HK.
  destruct (shiftUntilNextUnoccupiedOrbital_total
              (mkShiftState (shift_address s) (wrap (shift_q s + 1)) (shift_e s)
                 (shift_sign s))) as (s' & Hs' & Hq' & He'); cbn [shift_e shift_q].
  - lia.
  - rewrite wrap_small by lia. lia.
  - rewrite Hs'. cbn [mbind outcome_bind]. cbn [shift_e shift_q] in *.
    rewrite wrap_small in Hq' by lia. apply IH; lia.
Qed.

Lemma annihilation_loop_total I entries :
  0 <= N -> Z.of_nat (length entries) = pairs ->
  exists entries', annihilation_loop b onv I entries = Ok entries' /\
    Z.of_nat (length entries') = pairs.
Proof.
  intros HN0 Hlen. unfold annihilation_loop. fold K N.
  apply (for_range_invariant
           (fun (_ : Z) (t : list (list Triplet)) => Z.of_nat (length t) = pairs));
    [assumption|assumption|].
  intros e1 t He1 Ht.
  assert (Hw : 2 ^ 14 < word_modulus) by reflexivity.
  pose proof HK. pose proof HN.
  destruct (occupationIndexOf_total e1 He1) as (p & -> & Hp). cbn [mbind outcome_bind].
  pose proof (pair_index_range K p p ltac:(lia) ltac:(lia) HK) as Hidx.
  fold pairs in Hidx.
  destruct (emplace_back_total (pair_index K p p) (mkTriplet I I 1) t ltac:(lia))
    as (t1 & H1 & Hl1).
  rewrite H1. cbn [mbind outcome_bind].
  destruct (shiftUntilNextUnoccupiedOrbital_total
              (mkShiftState (wrap (I - vertexWeight b p (wrap (e1 + 1))))
                 (wrap (p + 1)) (wrap (e1 + 1)) 1)) as (s & Hs & Hq & He);
    cbn [shift_e shift_q].
  - rewrite wrap_small by lia. lia.
  - rewrite wrap_small by lia. lia.
  - rewrite Hs. cbn [mbind outcome_bind]. cbn [shift_e shift_q] in *.
    rewrite !(wrap_small (_ + 1)) in * by lia.
    apply creation_loop_total; lia.
Qed.
End CouplingsOfOneONV.

Lemma collectOneElectronCouplings_total M N b entries :
  1 <= N <= M -> M <= 64 -> N <= 31 -> construct M N = Ok b ->
  Z.of_nat (length entries) = wrap (M * wrap (M + 1)) / 2 ->
  exists entries', collectOneElectronCouplings b (binomC M N) entries = Ok entries' /\
    Z.of_nat (length entries') = wrap (M * wrap (M + 1)) / 2.
Proof.
  intros HN HM HN31 Hb Hlen.
  assert (HNM : 0 <= N <= M) by lia.
  pose proof (basis_orbitals M N b HNM HM Hb) as EK.
  pose proof (basis_electrons M N b HNM HM Hb) as EN.
  unfold collectOneElectronCouplings.
  unfold constructONVFromAddress, transformONVCorrespondingToAddress.
  rewrite (representationOf_0 M N b) by (lia || assumption). cbn [mbind outcome_bind].
  rewrite EK, EN. unfold replaceRepresentationWith. cbn [onv_M onv_N].
  set (L := all_onvs (Z.to_nat M) (Z.to_nat N)).
  set (dim := binomC M N).
  set (pairs := wrap (M * wrap (M + 1)) / 2) in *.
  assert (HL : Z.of_nat (length L) = dim) by apply all_onvs_length.
  assert (Hdim : 1 <= dim < word_modulus).
  { pose proof (binom_word (Z.to_nat M) (Z.to_nat N) ltac:(lia)). unfold dim, binomC in *.
    pose proof (binom_pos (Z.to_nat M) (Z.to_nat N) ltac:(lia)). lia. }
  destruct (for_range_invariant
    (fun I (st : SpinUnresolvedONV * list (list Triplet)) =>
       Z.of_nat (length st.2) = pairs /\
       exists x, L !! Z.to_nat (Z.min I (dim - 1)) = Some x /\ st.1 = mkONV M N x)
    (fun I (st : SpinUnresolvedONV * list (list Triplet)) =>
       entries ← annihilation_loop b st.1 I st.2;
       if I <? wrap (dim - 1)
       then onv' ← transformONVToNextPermutation st.1; Ok (onv', entries)
       else Ok (st.1, entries))
    0 dim (mkONV M N (2 ^ N - 1), entries))
    as (st & Hst & Hfinal & _).
  - lia.
  - split; [assumption|]. exists (2 ^ N - 1). split; [|reflexivity].
    replace (Z.to_nat (Z.min 0 (dim - 1))) with O by lia.
    unfold L. rewrite all_onvs_first by lia. f_equal. f_equal. f_equal. lia.
  - intros I [onv t] HI [Ht (x & Hx & Honv)]. cbn [fst snd] in *. subst onv.
    replace (Z.to_nat (Z.min I (dim - 1))) with (Z.to_nat I) in Hx by lia.
    rewrite (wrap_small (dim - 1)) by lia.
    assert (Hin : x ∈ L) by (apply list_elem_of_lookup; eauto).
    pose proof (all_onvs_range _ _ _ Hin) as Hxr.
    pose proof (all_onvs_popcount _ _ _ Hin) as Hpc. unfold popcount in Hpc.
    destruct (annihilation_loop_total b (mkONV M N x)) with (I := I) (entries := t)
      as (t1 & -> & Hl1); cbn [unsignedRepresentation]; rewrite ?EK, ?EN; try lia.
    { apply (set_bits_range M x); [lia|]. now rewrite Z2Nat.id in Hxr by lia. }
    rewrite EK in Hl1. fold pairs in Hl1. cbn [mbind outcome_bind].
    destruct (Z.ltb_spec I (dim - 1)) as [Hlt|Hge].
    + destruct (lookup_lt_is_Some_2 L (S (Z.to_nat I)) ltac:(lia)) as [y Hy].
      unfold transformONVToNextPermutation. cbn [unsignedRepresentation].
      rewrite (all_onvs_next (Z.to_nat M) (Z.to_nat N) (Z.to_nat I) x y) by (lia || assumption).
      cbn [mbind outcome_bind]. eexists. split; [reflexivity|]. cbn [fst snd].
      split; [assumption|]. exists y. split; [|reflexivity].
      now replace (Z.to_nat (Z.min (I + 1) (dim - 1))) with (S (Z.to_nat I)) by lia.
    + eexists. split; [reflexivity|]. cbn [fst snd].
      split; [assumption|]. exists x. split; [|reflexivity].
      now replace (Z.to_nat (Z.min (I + 1) (dim - 1))) with (Z.to_nat I) by lia.
  - rewrite Hst. cbn [mbind outcome_bind]. exists st.2. split; [reflexivity|assumption].
Qed.

Lemma calculateOneElectronCouplings_total bc M N b r :
  1 <= N <= M -> M <= 64 -> N <= 31 -> construct M N = Ok b ->
  calculateDimension bc (M - 1) (N - 1) = Ok r ->
  exists mats, calculateOneElectronCouplings bc b = Ok mats /\
    Z.of_nat (length mats) = M * (M + 1) / 2.
Proof.
  intros HN HM HN31 Hb Hr.
  assert (HNM : 0 <= N <= M) by lia.
  assert (Hw : 2 ^ 14 < word_modulus) by reflexivity.
  assert (HB : 0 <= M * (M + 1) <= 64 * 65).
  { split; [apply Z.mul_nonneg_nonneg; lia|]. apply Z.mul_le_mono_nonneg; lia. }
  assert (Hpairs : wrap (M * wrap (M + 1)) / 2 = M * (M + 1) / 2).
  { rewrite (wrap_small (M + 1)) by lia. rewrite wrap_small by lia. reflexivity. }
  assert (0 <= M * (M + 1) / 2) by (apply Z.div_pos; lia).
  unfold calculateOneElectronCouplings.
  rewrite (basis_dimension M N b HNM HM Hb). cbn [mbind outcome_bind]. cbv zeta.
  rewrite (basis_orbitals M N b HNM HM Hb), (basis_electrons M N b HNM HM Hb).
  destruct (Z.eqb_spec N 0); [lia|].
  rewrite (wrap_small (M - 1)), (wrap_small (N - 1)) by lia.
  rewrite Hr. cbn [mbind outcome_bind].
  destruct (collectOneElectronCouplings_total M N b
              (replicate (Z.to_nat (wrap (M * wrap (M + 1)) / 2)) []) HN HM HN31 Hb)
    as (entries & -> & Hlen).
  { rewrite length_replicate. lia. }
  cbn [mbind outcome_bind]. eexists. split; [reflexivity|].
  rewrite length_zip_with, length_replicate. lia.
Qed.

(** C4.  Whenever [calculateOneElectronCouplings] returns, for any basis
    whatsoever, every sparse matrix it returns (one per orbital pair [(p,q)])
    holds, next to each off-diagonal triplet [(I, J, sign)], the mirrored
    triplet [(J, I, sign)] with the same sign.  And it does return, with one
    matrix per orbital pair, for every basis constructed with [N <= M <= 64]
    and [N <= 31], when the call of [calculateDimension] that sizes the
    reservations returns. *)
Theorem one_electron_couplings_hermitian
    (binomial_coefficient : Z -> Z -> outcome double) (b : SpinUnresolvedONVBasis) :
  (forall mats, calculateOneElectronCouplings binomial_coefficient b = Ok mats ->
     Forall (fun m => hermitian (sparse_triplets m)) mats) /\
  (forall M N r, 0 <= N <= M -> M <= 64 -> N <= 31 -> construct M N = Ok b ->
     calculateDimension binomial_coefficient (M - 1) (N - 1) = Ok r ->
     exists mats, calculateOneElectronCouplings binomial_coefficient b = Ok mats /\
       Z.of_nat (length mats) = M * (M + 1) / 2).
Proof.
  split.
  - intros mats. apply calculateOneElectronCouplings_hermitian.
  - intros M N r HN HM HN31 Hb Hr.
    destruct (Z.eq_dec N 0) as [->|Hne].
    + assert (Hw : 2 ^ 14 < word_modulus) by reflexivity.
      assert (HB : 0 <= M * (M + 1) <= 64 * 65).
      { split; [apply Z.mul_nonneg_nonneg; lia|]. apply Z.mul_le_mono_nonneg; lia. }
      assert (0 <= M * (M + 1) / 2) by (apply Z.div_pos; lia).
      unfold calculateOneElectronCouplings.
      rewrite (basis_dimension M 0 b HN HM Hb). cbn [mbind outcome_bind]. cbv zeta.
      rewrite (basis_orbitals M 0 b HN HM Hb), (basis_electrons M 0 b HN HM Hb).
      change (0 =? 0) with true. cbv iota.
      eexists. split; [reflexivity|]. rewrite length_replicate.
      rewrite (wrap_small (M + 1)) by lia. rewrite wrap_small by lia. lia.
    + apply (calculateOneElectronCouplings_total _ M N b r); (lia || assumption).
Qed.

(** C4 on the basis of 3 orbitals and 2 electrons, written out; the
    double handed to the reservation is 2. *)
Lemma one_electron_couplings_hermitian_witness :
  exists b mats,
    construct 3 2 = Ok b /\
    calculateOneElectronCouplings
      (fun _ _ => Ok (S754_finite false 4503599627370496 (-51))) b = Ok mats /\
    mats !! 2%nat = Some (mkSparseMatrix 3 3 [mkTriplet 0 2 (-1); mkTriplet 2 0 (-1)]) /\
    Forall (fun m => hermitian (sparse_triplets m)) mats.
Proof.
  exists (mkONVBasis 3 2 [[1; 0; 0]; [1; 1; 0]; [0; 2; 1]; [0; 0; 3]]). eexists.
  split; [vm_compute; reflexivity|].
  split; [vm_compute; reflexivity|].
  split; [reflexivity|].
  eapply (proj1 (one_electron_couplings_hermitian
                   (fun _ _ => Ok (S754_finite false 4503599627370496 (-51)))
                   (mkONVBasis 3 2 [[1; 0; 0]; [1; 1; 0]; [0; 2; 1]; [0; 0; 3]]))).
  vm_compute. reflexivity.
Defined.

(** ** The basis without electrons *)

Lemma zero_electron_basis_wrapping (M : Z) :
  0 <= M -> M + 1 < word_modulus ->
  exists b, construct M 0 = Ok b /\
    dimension b = Ok 1 /\
    representationOf b 0 = Ok 0 /\
    forall binomial_coefficient,
      calculateOneElectronCouplings binomial_coefficient b
      = Ok (replicate (Z.to_nat (wrap (M * wrap (M + 1)) / 2)) (mkSparseMatrix 1 1 [])).
Proof.
  intros HM Hw.
  destruct (construct_table M 0 ltac:(lia) Hw) as (t & Hc & _).
  exists (mkONVBasis M 0 t). split; [assumption|].
  assert (Hdim : dimension (mkONVBasis M 0 t) = Ok 1).
  { unfold dimension. cbn [numberOfOrbitals numberOfElectrons].
    change (Z.to_nat 0) with O.
    rewrite <- binom_closed by lia. rewrite binom_0_r. reflexivity. }
  split; [assumption|]. split; [reflexivity|].
  intros bc. unfold calculateOneElectronCouplings.
  rewrite Hdim. reflexivity.
Qed.

(** C10 (as amended).  For every [M] with [M * (M + 1)] a [size_t], the basis
    of [M] orbitals and no electrons is constructed, its dimension is 1,
    [representationOf(0)] is the all-zero bitstring, and
    [calculateOneElectronCouplings] returns [M * (M + 1) / 2] sparse matrices
    of size 1 x 1 without entries; no error is raised. *)
Theorem zero_electron_basis (binomial_coefficient : Z -> Z -> outcome double) (M : Z) :
  0 <= M -> M * (M + 1) < word_modulus ->
  exists b, construct M 0 = Ok b /\
    dimension b = Ok 1 /\
    representationOf b 0 = Ok 0 /\
    calculateOneElectronCouplings binomial_coefficient b
      = Ok (replicate (Z.to_nat (M * (M + 1) / 2)) (mkSparseMatrix 1 1 [])).
Proof.
  intros HM Hprod.
  assert (Hw : M + 1 < word_modulus).
  { destruct (Z.eq_dec M 0) as [->|]; [reflexivity|].
    assert (1 * (M + 1) <= M * (M + 1)) by (apply Z.mul_le_mono_nonneg_r; lia). lia. }
  destruct (zero_electron_basis_wrapping M HM Hw) as (b & Hc & Hd & Hr & Hm).
  exists b. repeat split; try assumption.
  rewrite Hm. rewrite (wrap_small (M + 1)) by lia.
  rewrite wrap_small; [reflexivity|].
  split; [apply Z.mul_nonneg_nonneg; lia|assumption].
Qed.

(** C10 at 3 orbitals. *)
Lemma zero_electron_basis_witness :
  exists b, construct 3 0 = Ok b /\
    dimension b = Ok 1 /\
    representationOf b 0 = Ok 0 /\
    calculateOneElectronCouplings (fun _ _ => Ok (S754_zero false)) b
      = Ok (replicate (Z.to_nat (3 * (3 + 1) / 2)) (mkSparseMatrix 1 1 [])).
Proof.
  apply (zero_electron_basis (fun _ _ => Ok (S754_zero false)) 3); [lia|reflexivity].
Defined.

(** C10 as stated fails: for [M = 2^32] and no electrons the count
    [K * (K + 1) / 2] wraps around in [size_t]; [2^31] matrices are returned,
    not [M * (M + 1) / 2 = 2^63 + 2^31]. *)
Lemma zero_electron_couplings_wrap_at_2_32 :
  exists b, construct (2 ^ 32) 0 = Ok b /\
    forall binomial_coefficient, exists mats,
      calculateOneElectronCouplings binomial_coefficient b = Ok mats /\
      Z.of_nat (length mats) = 2 ^ 31 /\
      Z.of_nat (length mats) <> 2 ^ 32 * (2 ^ 32 + 1) / 2.
Proof.
  destruct (zero_electron_basis_wrapping (2 ^ 32)) as (b & Hc & _ & _ & Hm);
    [discriminate|reflexivity|].
  exists b. split; [assumption|]. intros bc. eexists. split; [apply Hm|].
  rewrite length_replicate, Z2Nat.id by (vm_compute; discriminate).
  split; [reflexivity|]. vm_compute. discriminate.
Qed.

(** ** The DIIS step *)

Lemma dense_shape_replicate R C v : dense_shape R C (replicate R (replicate C v)).
Proof.
  split; [apply length_replicate|].
  intros i row H. apply lookup_replicate in H as [-> _]. apply length_replicate.
Qed.

Lemma dense_at_replicate R C v i j :
  0 <= i < Z.of_nat R -> 0 <= j < Z.of_nat C ->
  dense_at (replicate R (replicate C v)) i j = Some v.
Proof.
  intros Hi Hj. unfold dense_at.
  rewrite lookup_replicate_2 by lia. apply lookup_replicate_2. lia.
Qed.

Lemma dense_set_ok R C B i j v :
  dense_shape R C B -> 0 <= i < Z.of_nat R -> 0 <= j < Z.of_nat C ->
  exists B', dense_set i j v B = Ok B' /\ dense_shape R C B' /\
    forall i' j', 0 <= i' -> 0 <= j' ->
      dense_at B' i' j' = if (i' =? i) && (j' =? j) then Some v else dense_at B i' j'.
Proof.
  intros [HR HC] Hi Hj. unfold dense_set.
  destruct (lookup_lt_is_Some_2 B (Z.to_nat i)) as [row Hrow]; [lia|].
  rewrite Hrow. pose proof (HC _ _ Hrow) as Hlen.
  destruct (decide (Z.to_nat j < length row)%nat) as [Hlt|]; [|lia].
  eexists. split; [reflexivity|]. split.
  - split; [now rewrite length_insert|].
    intros k r Hk. destruct (decide (k = Z.to_nat i)) as [->|Hne].
    + rewrite list_lookup_insert_eq in Hk by lia. inversion Hk; subst.
      now rewrite length_insert.
    + rewrite list_lookup_insert_ne in Hk by congruence. eauto.
  - intros i' j' Hi' Hj'. unfold dense_at.
    destruct (Z.eqb_spec i' i) as [->|Hne]; simpl.
    + rewrite list_lookup_insert_eq by lia. rewrite Hrow.
      destruct (Z.eqb_spec j' j) as [->|Hne'].
      * now rewrite list_lookup_insert_eq by lia.
      * rewrite list_lookup_insert_ne by lia. reflexivity.
    + rewrite list_lookup_insert_ne by lia. reflexivity.
Qed.

Lemma at_index_ok {A} (l : list A) i x :
  l !! Z.to_nat i = Some x -> at_index l i = Ok x.
Proof. intros H. unfold at_index. now rewrite H. Qed.

Lemma double_minus_one_times_one : double_mul double_minus_one double_one = double_minus_one.
Proof. vm_compute. reflexivity. Qed.

Section DIISStep.
Context {Matrix HamiltonianParameters : Type}.
Context {env : DIISEnvironment Matrix HamiltonianParameters}.

Lemma entry_at_stage_row_end errors n i i' j' :
  0 <= j' -> entry_at_stage errors n i n i' j' = entry_at_stage errors n (i + 1) 0 i' j'.
Proof.
  intros Hj. unfold entry_at_stage.
  destruct (Z.ltb_spec i' n), (Z.ltb_spec j' n), (Z.ltb_spec i' i), (Z.eqb_spec i' i),
    (Z.ltb_spec i' (i + 1)), (Z.eqb_spec i' (i + 1)), (Z.ltb_spec j' 0);
    simpl; try reflexivity; lia.
Qed.

Lemma entry_at_stage_final errors n i' j' :
  0 <= i' <= n -> 0 <= j' <= n ->
  entry_at_stage errors n n 0 i' j' = augmented_entry errors n i' j'.
Proof.
  intros Hi Hj. unfold entry_at_stage, augmented_entry.
  destruct (Z.ltb_spec i' n), (Z.ltb_spec j' n), (Z.eqb_spec i' n), (Z.ltb_spec j' 0);
    simpl; try reflexivity; lia.
Qed.

Lemma build_B_ok (errors : list Matrix) :
  let n := Z.of_nat (length errors) in
  n + 1 < word_modulus ->
  exists B, build_B errors n = Ok B /\
    dense_shape (S (length errors)) (S (length errors)) B /\
    forall i j, 0 <= i <= n -> 0 <= j <= n ->
      dense_at B i j = augmented_entry errors n i j.
Proof.
  intros n Hn. unfold build_B.
  rewrite (wrap_small (n + 1)) by lia.
  replace (Z.to_nat (n + 1)) with (S (length errors)) by lia.
  rewrite double_minus_one_times_one.
  set (R := S (length errors)).
  destruct (dense_set_ok R R (replicate R (replicate R double_minus_one)) n n double_zero)
    as (B0 & -> & Hshape0 & Hat0); [apply dense_shape_replicate|lia|lia|].
  cbn [mbind outcome_bind].
  destruct (for_range_invariant
    (fun i B => dense_shape R R B /\
       forall i' j', 0 <= i' <= n -> 0 <= j' <= n ->
         dense_at B i' j' = entry_at_stage errors n i 0 i' j')
    (fun i B =>
       for_range 0 n (fun j B =>
         e_i ← at_index errors i;
         e_j ← at_index errors j;
         dense_set i j (mat_trace (mat_mul (mat_transpose e_i) e_j)) B) B)
    0 n B0) as (B & HB & Hshape & Hat).
  - lia.
  - split; [assumption|]. intros i' j' Hi' Hj'.
    rewrite Hat0 by lia. rewrite dense_at_replicate by lia.
    unfold entry_at_stage.
    destruct (Z.ltb_spec i' n), (Z.ltb_spec j' n), (Z.eqb_spec i' n), (Z.eqb_spec j' n),
      (Z.ltb_spec i' 0), (Z.eqb_spec i' 0), (Z.ltb_spec j' 0);
      simpl; try reflexivity; lia.
  - intros i B1 Hi [Hshape1 Hat1].
    destruct (for_range_invariant
      (fun j B => dense_shape R R B /\
         forall i' j', 0 <= i' <= n -> 0 <= j' <= n ->
           dense_at B i' j' = entry_at_stage errors n i j i' j')
      (fun j B =>
         e_i ← at_index errors i;
         e_j ← at_index errors j;
         dense_set i j (mat_trace (mat_mul (mat_transpose e_i) e_j)) B)
      0 n B1) as (B2 & HB2 & Hshape2 & Hat2).
    + lia.
    + split; assumption.
    + intros j B3 Hj [Hshape3 Hat3].
      destruct (lookup_lt_is_Some_2 errors (Z.to_nat i) ltac:(lia)) as [e_i He_i].
      destruct (lookup_lt_is_Some_2 errors (Z.to_nat j) ltac:(lia)) as [e_j He_j].
      rewrite (at_index_ok _ _ _ He_i), (at_index_ok _ _ _ He_j).
      cbn [mbind outcome_bind].
      destruct (dense_set_ok R R B3 i j (mat_trace (mat_mul (mat_transpose e_i) e_j)))
        as (B4 & -> & Hshape4 & Hat4); [assumption|lia|lia|].
      eexists. split; [reflexivity|]. split; [assumption|].
      intros i' j' Hi' Hj'. rewrite Hat4 by lia. rewrite Hat3 by lia.
      unfold entry_at_stage, augmented_entry.
      destruct (Z.eqb_spec i' i) as [Ei|Hni]; destruct (Z.eqb_spec j' j) as [Ej|Hnj];
        try subst i'; try subst j'; cbn [andb];
        repeat match goal with
        | |- context [?a <? ?b] => destruct (Z.ltb_spec a b)
        | |- context [?a =? ?b] => destruct (Z.eqb_spec a b)
        end; cbn [andb orb]; rewrite ?He_i, ?He_j; try reflexivity; try lia.
    + exists B2. split; [assumption|]. split; [assumption|].
      intros i' j' Hi' Hj'. rewrite Hat2 by lia. apply entry_at_stage_row_end. lia.
  - exists B. split; [assumption|]. split; [assumption|].
    intros i j Hi Hj. rewrite Hat by lia. apply entry_at_stage_final; lia.
Qed.

Lemma build_b_ok (len : nat) :
  let n := Z.of_nat len in
  n + 1 < word_modulus ->
  exists b, build_b n = Ok b /\ length b = S len /\
    forall i, 0 <= i <= n -> b !! Z.to_nat i = Some (rhs_entry n i).
Proof.
  intros n Hn. unfold build_b, vector_set.
  rewrite (wrap_small (n + 1)) by lia.
  replace (Z.to_nat (n + 1)) with (S len) by lia.
  rewrite length_replicate.
  destruct (decide (Z.to_nat n < S len)%nat) as [_|]; [|lia].
  eexists. split; [reflexivity|]. split; [now rewrite length_insert, length_replicate|].
  intros i Hi. unfold rhs_entry. destruct (Z.eqb_spec i n) as [->|Hne].
  - apply list_lookup_insert_eq. rewrite length_replicate. lia.
  - rewrite list_lookup_insert_ne by lia. apply lookup_replicate_2. lia.
Qed.

Lemma combine_focks_ok (y : list double) (focks : list Matrix) (zero : Matrix) :
  (length focks <= length y)%nat ->
  combine_focks y focks (Z.of_nat (length focks)) zero
  = Ok (linear_combination y focks zero).
Proof.
  intros Hlen. unfold combine_focks, linear_combination.
  set (step := fun (acc : Matrix) (yF : double * Matrix) => mat_add acc (mat_scale yF.1 yF.2)).
  destruct (for_range_invariant
    (fun i f => f = foldl step zero (take (Z.to_nat i) (zip y focks)))
    (fun i f_AO =>
       y_i ← at_index y i;
       F_i ← at_index focks i;
       Ok (mat_add f_AO (mat_scale y_i F_i)))
    0 (Z.of_nat (length focks)) zero) as (f & -> & ->).
  - lia.
  - reflexivity.
  - intros i f Hi ->.
    destruct (lookup_lt_is_Some_2 y (Z.to_nat i) ltac:(lia)) as [y_i Hy].
    destruct (lookup_lt_is_Some_2 focks (Z.to_nat i) ltac:(lia)) as [F_i HF].
    rewrite (at_index_ok _ _ _ Hy), (at_index_ok _ _ _ HF). cbn [mbind outcome_bind].
    eexists. split; [reflexivity|].
    replace (Z.to_nat (i + 1)) with (S (Z.to_nat i)) by lia.
    rewrite (take_S_r _ _ (y_i, F_i)).
    + rewrite foldl_app. reflexivity.
    + apply lookup_zip_with_Some. eauto.
  - f_equal. f_equal. apply take_ge. rewrite length_zip. lia.
Qed.

(** C6.  Let [n] be the number of error matrices once the current pair is
    appended.  When [n] is below the minimum subspace dimension, the call
    returns the plain Fock matrix, hands no linear system to the solver and
    cannot fail.  When [n] has reached the minimum (the two deques being of
    one length, as the solver keeps them, and the linear solver returning as
    many unknowns as the system has), the call hands the solver exactly one
    system [(B, b)] of dimension [n + 1], with [B(i,j) = trace(e_i^T e_j)]
    for [i, j < n], -1 along the border, 0 in the corner and [b] zero but
    for -1 in its last entry, and returns the combination of the stored Fock
    matrices with the first [n] entries of the solution.  In both cases the
    deques lose their oldest entry when [n] exceeds the maximum. *)
Theorem calculateNewFockMatrix_step
    (slv : DIISRHFSCFSolver Matrix HamiltonianParameters) (D_AO : Matrix) :
  let S := get_S (ham_par slv) in
  let f_AO := calculateRHFAOFockMatrix D_AO (ham_par slv) in
  let focks := fock_matrix_deque slv ++ [f_AO] in
  let errors := error_matrix_deque slv ++ [error_matrix_of f_AO D_AO S] in
  let n := Z.of_nat (length errors) in
  let collapse := maximum_subspace_dimension slv <? n in
  let slv' := mkDIISRHFSCFSolver (ham_par slv) (minimum_subspace_dimension slv)
                (maximum_subspace_dimension slv)
                (if collapse then tail focks else focks)
                (if collapse then tail errors else errors) in
  (n < minimum_subspace_dimension slv ->
     calculateNewFockMatrix slv D_AO = Ok (mkDIISStep f_AO slv' [])) /\
  (minimum_subspace_dimension slv <= n ->
     length (fock_matrix_deque slv) = length (error_matrix_deque slv) ->
     n + 1 < word_modulus ->
     (forall B b, length (householderQR_solve B b) = length b) ->
     exists B b,
       dense_shape (Z.to_nat (n + 1)) (Z.to_nat (n + 1)) B /\
       (forall i j, 0 <= i <= n -> 0 <= j <= n ->
          dense_at B i j = augmented_entry errors n i j) /\
       length b = Z.to_nat (n + 1) /\
       (forall i, 0 <= i <= n -> b !! Z.to_nat i = Some (rhs_entry n i)) /\
       calculateNewFockMatrix slv D_AO
       = Ok (mkDIISStep
               (linear_combination (householderQR_solve B b) focks
                  (mat_zero (mat_cols S) (mat_cols S)))
               slv' [(B, b)])).
Proof.
  intros S f_AO focks errors n collapse slv'. split.
  - intros Hn. unfold calculateNewFockMatrix.
    fold S f_AO focks errors n collapse.
    destruct (Z.leb_spec (minimum_subspace_dimension slv) n); [lia|]. reflexivity.
  - intros Hn Hlen Hsize Hsolve. unfold calculateNewFockMatrix.
    fold S f_AO focks errors n collapse.
    destruct (Z.leb_spec (minimum_subspace_dimension slv) n); [|lia].
    destruct (build_B_ok errors Hsize) as (B & HB & Hshape & Hat).
    destruct (build_b_ok (length errors) Hsize) as (b & Hb & Hblen & Hbat).
    exists B, b.
    replace (Z.to_nat (n + 1)) with (Datatypes.S (length errors)) by lia.
    repeat (split; [assumption|]).
    fold n in HB, Hb. rewrite HB. cbn [mbind outcome_bind].
    rewrite Hb. cbn [mbind outcome_bind].
    assert (Hfocks : n = Z.of_nat (length focks)).
    { unfold n, errors, focks. rewrite !length_app. cbn [length]. lia. }
    rewrite Hfocks. rewrite combine_focks_ok.
    + reflexivity.
    + rewrite Hsolve, Hblen. lia.
Qed.
End DIISStep.

(** C6 at the first step of [fresh_solver] in the scalar environment, for the
    density 2: the error is [2 * 2 * 1 - 1 * 2 * 2]. *)
Lemma calculateNewFockMatrix_step_witness :
  exists B b,
    dense_shape 2 2 B /\
    (forall i j, 0 <= i <= 1 -> 0 <= j <= 1 ->
       dense_at B i j
       = augmented_entry (env := scalar_environment)
           [error_matrix_of (env := scalar_environment) double_two double_two double_one]
           1 i j) /\
    length b = 2%nat /\
    (forall i, 0 <= i <= 1 -> b !! Z.to_nat i = Some (rhs_entry 1 i)) /\
    calculateNewFockMatrix (env := scalar_environment) fresh_solver double_two
    = Ok (mkDIISStep
            (linear_combination (env := scalar_environment)
               (householderQR_solve (DIISEnvironment := scalar_environment) B b)
               [double_two] double_zero)
            (mkDIISRHFSCFSolver tt 1 6 [double_two]
               [error_matrix_of (env := scalar_environment) double_two double_two double_one])
            [(B, b)]).
Proof.
  apply (proj2 (calculateNewFockMatrix_step (env := scalar_environment)
                  fresh_solver double_two)).
  - vm_compute. discriminate.
  - reflexivity.
  - reflexivity.
  - intros [|[|t [|t' [|t'' r]]] rows] [|b0 [|b1 [|b2 b]]]; reflexivity.
Defined.

(** ** The addressing scheme as an order isomorphism *)

Lemma all_onvs_index M N x :
  0 <= x < 2 ^ Z.of_nat M -> popcount x = N ->
  exists i, all_onvs M N !! i = Some x /\ Z.of_nat i < binom M N.
Proof.
  intros Hx Hp.
  pose proof (all_onvs_complete M N x Hx Hp) as Hin.
  apply list_elem_of_lookup in Hin as [i Hi]. exists i. split; [assumption|].
  rewrite <- all_onvs_length. apply lookup_lt_Some in Hi. lia.
Qed.

Lemma all_onvs_index_order M N i j x y :
  all_onvs M N !! i = Some x -> all_onvs M N !! j = Some y ->
  (x < y <-> (i < j)%nat).
Proof.
  intros Hi Hj. split.
  - intros Hlt. destruct (Nat.lt_trichotomy i j) as [H|[H|H]]; [assumption| |].
    + subst j. rewrite Hi in Hj. injection Hj as <-. lia.
    + pose proof (all_onvs_increasing M N j i y x H Hj Hi). lia.
  - intros H. exact (all_onvs_increasing M N i j x y H Hi Hj).
Qed.

(** X2.  In a basis constructed with [N <= M <= 64], [addressOf] maps the
    representations with [N] bits set below bit [M] onto the addresses
    [0 .. C(M,N) - 1], one to one and in increasing order. *)
Theorem addressOf_order_isomorphism (M N : Z) (b : SpinUnresolvedONVBasis) :
  0 <= N <= M -> M <= 64 -> construct M N = Ok b ->
  (forall c, 0 <= c < 2 ^ M -> popcount c = Z.to_nat N ->
     exists a, addressOf b c = Some a /\ 0 <= a < binomC M N) /\
  (forall c1 c2 a1 a2,
     0 <= c1 < 2 ^ M -> popcount c1 = Z.to_nat N ->
     0 <= c2 < 2 ^ M -> popcount c2 = Z.to_nat N ->
     addressOf b c1 = Some a1 -> addressOf b c2 = Some a2 ->
     (c1 < c2 <-> a1 < a2)) /\
  (forall a, 0 <= a < binomC M N ->
     exists c, 0 <= c < 2 ^ M /\ popcount c = Z.to_nat N /\ addressOf b c = Some a).
Proof.
  intros HN HM Hb.
  assert (Hidx : forall c, 0 <= c < 2 ^ M -> popcount c = Z.to_nat N ->
            exists i, all_onvs (Z.to_nat M) (Z.to_nat N) !! i = Some c /\
                      Z.of_nat i < binomC M N /\ addressOf b c = Some (Z.of_nat i)).
  { intros c Hc Hp.
    destruct (all_onvs_index (Z.to_nat M) (Z.to_nat N) c) as (i & Hi & Hlt);
      [rewrite Z2Nat.id by lia; assumption|assumption|].
    exists i. split; [assumption|]. split; [exact Hlt|].
    exact (addressOf_all_onvs M N b HN HM Hb i c Hi). }
  split; [|split].
  - intros c Hc Hp. destruct (Hidx c Hc Hp) as (i & _ & Hlt & Ha).
    exists (Z.of_nat i). split; [assumption|lia].
  - intros c1 c2 a1 a2 Hc1 Hp1 Hc2 Hp2 Ha1 Ha2.
    destruct (Hidx c1 Hc1 Hp1) as (i & Hi & _ & Ei).
    destruct (Hidx c2 Hc2 Hp2) as (j & Hj & _ & Ej).
    rewrite Ei in Ha1. rewrite Ej in Ha2. injection Ha1 as <-. injection Ha2 as <-.
    rewrite (all_onvs_index_order _ _ i j c1 c2 Hi Hj). lia.
  - intros a Ha.
    destruct (lookup_lt_is_Some_2 (all_onvs (Z.to_nat M) (Z.to_nat N)) (Z.to_nat a))
      as [c Hc].
    { pose proof (all_onvs_length (Z.to_nat M) (Z.to_nat N)). unfold binomC in Ha. lia. }
    assert (Hin : c ∈ all_onvs (Z.to_nat M) (Z.to_nat N)) by (apply list_elem_of_lookup; eauto).
    exists c. split.
    { pose proof (all_onvs_range _ _ _ Hin) as Hr. now rewrite Z2Nat.id in Hr by lia. }
    split; [exact (all_onvs_popcount _ _ _ Hin)|].
    rewrite (addressOf_all_onvs M N b HN HM Hb _ _ Hc). f_equal. lia.
Qed.

(** X2 in the basis of 5 orbitals and 2 electrons. *)
Lemma addressOf_order_isomorphism_witness :
  exists b, construct 5 2 = Ok b /\
    (forall c, 0 <= c < 2 ^ 5 -> popcount c = Z.to_nat 2 ->
       exists a, addressOf b c = Some a /\ 0 <= a < binomC 5 2) /\
    (forall c1 c2 a1 a2,
       0 <= c1 < 2 ^ 5 -> popcount c1 = Z.to_nat 2 ->
       0 <= c2 < 2 ^ 5 -> popcount c2 = Z.to_nat 2 ->
       addressOf b c1 = Some a1 -> addressOf b c2 = Some a2 ->
       (c1 < c2 <-> a1 < a2)) /\
    (forall a, 0 <= a < binomC 5 2 ->
       exists c, 0 <= c < 2 ^ 5 /\ popcount c = Z.to_nat 2 /\ addressOf b c = Some a).
Proof.
  destruct (construct_table 5 2 ltac:(lia) ltac:(reflexivity)) as (t & Ht & _).
  exists (mkONVBasis 5 2 t). split; [exact Ht|].
  apply (addressOf_order_isomorphism 5 2 _); [lia|lia|exact Ht].
Defined.

(** ** The next permutation *)

(** X3.  For a representation [x] with [N] bits set below bit [M <= 64]
    that is not the greatest one, [nextPermutationOf] returns the least
    integer above [x] with [N] bits set; it lies below bit [M] too. *)
Theorem nextPermutationOf_successor (M N x : Z) :
  0 <= N <= M -> M <= 64 ->
  0 <= x < 2 ^ M -> popcount x = Z.to_nat N -> x <> 2 ^ M - 2 ^ (M - N) ->
  exists y, nextPermutationOf x = Ok y /\ x < y < 2 ^ M /\ popcount y = Z.to_nat N /\
    forall z, x < z -> popcount z = Z.to_nat N -> y <= z.
Proof.
  intros HN HM Hx Hp Hlast.
  set (L := all_onvs (Z.to_nat M) (Z.to_nat N)).
  destruct (all_onvs_index (Z.to_nat M) (Z.to_nat N) x) as (i & Hi & _);
    [rewrite Z2Nat.id by lia; assumption|assumption|]. fold L in Hi.
  assert (Hnext : (S i < length L)%nat).
  { pose proof (lookup_lt_Some _ _ _ Hi) as Hlt.
    destruct (decide (length L = S i)) as [E|]; [|lia].
    pose proof (all_onvs_last (Z.to_nat M) (Z.to_nat N) i ltac:(lia) E) as Hl.
    fold L in Hl. rewrite Hi in Hl. injection Hl as Hl.
    rewrite Z2Nat.id in Hl by lia.
    replace (Z.of_nat (Z.to_nat M - Z.to_nat N)) with (M - N) in Hl by lia. contradiction. }
  destruct (lookup_lt_is_Some_2 L (S i) Hnext) as [y Hy].
  assert (Hin : y ∈ L) by (apply list_elem_of_lookup; eauto).
  pose proof (all_onvs_range _ _ _ Hin) as Hyr. rewrite Z2Nat.id in Hyr by lia.
  exists y. split; [exact (all_onvs_next (Z.to_nat M) (Z.to_nat N) i x y ltac:(lia) Hi Hy)|].
  split.
  { split; [|lia]. exact (all_onvs_increasing _ _ i (S i) x y ltac:(lia) Hi Hy). }
  split; [exact (all_onvs_popcount _ _ _ Hin)|].
  intros z Hz Hpz. destruct (Z.lt_ge_cases z (2 ^ M)) as [Hzr|]; [|lia].
  destruct (all_onvs_index (Z.to_nat M) (Z.to_nat N) z) as (k & Hk & _);
    [rewrite Z2Nat.id by lia; lia|assumption|]. fold L in Hk.
  apply (all_onvs_index_order _ _ i k x z Hi Hk) in Hz.
  destruct (decide (k = S i)) as [->|Hne].
  - rewrite Hy in Hk. injection Hk as <-. lia.
  - pose proof (all_onvs_increasing _ _ (S i) k y z ltac:(lia) Hy Hk). lia.
Qed.

(** X3 at [x = 01101] (13) among 5 orbitals. *)
Lemma nextPermutationOf_successor_witness :
  exists y, nextPermutationOf 13 = Ok y /\ 13 < y < 2 ^ 5 /\ popcount y = Z.to_nat 3 /\
    forall z, 13 < z -> popcount z = Z.to_nat 3 -> y <= z.
Proof.
  apply (nextPermutationOf_successor 5 3 13);
    first [lia | reflexivity | (vm_compute; discriminate)].
Defined.

Lemma nextPermutationOf_last_64 (n : nat) :
  (2 <= n <= 64)%nat ->
  nextPermutationOf (2 ^ 64 - 2 ^ (64 - Z.of_nat n)) = Ok (2 ^ (Z.of_nat n - 1) - 1).
Proof.
  intros Hn.
  do 65 (destruct n as [|n]; [first [lia | vm_compute; reflexivity]|]). lia.
Qed.

(** X4.  The greatest representation with [N >= 1] bits set below bit
    [M <= 64] is [2^M - 2^(M-N)].  Its next permutation is no
    representation of the basis: below 64 orbitals it is
    [2^M + 2^(N-1) - 1], which has bit [M] set; with 64 orbitals the
    computation wraps around to [2^(N-1) - 1], which has [N - 1] bits set, or,
    for [N = 1], shifts by 64 bits, which has no defined behaviour. *)
Theorem nextPermutationOf_last_leaves_basis (M N : Z) :
  1 <= N <= M -> M <= 64 ->
  (M < 64 -> nextPermutationOf (2 ^ M - 2 ^ (M - N)) = Ok (2 ^ M + 2 ^ (N - 1) - 1)) /\
  (M = 64 -> nextPermutationOf (2 ^ M - 2 ^ (M - N))
             = if N =? 1 then Undefined else Ok (2 ^ (N - 1) - 1)) /\
  (forall y, nextPermutationOf (2 ^ M - 2 ^ (M - N)) = Ok y ->
     ~ (0 <= y < 2 ^ M /\ popcount y = Z.to_nat N)).
Proof.
  intros HN HM.
  assert (Hlt : M < 64 ->
            nextPermutationOf (2 ^ M - 2 ^ (M - N)) = Ok (2 ^ M + 2 ^ (N - 1) - 1)).
  { intros HM64.
    pose proof (nextPermutationOf_run 0 (M - N) N ltac:(lia) ltac:(lia) ltac:(lia)) as Hrun.
    replace (M - N + N) with M in Hrun by lia.
    rewrite !Z.mul_0_l, !Z.add_0_l in Hrun.
    replace ((2 ^ N - 1) * 2 ^ (M - N)) with (2 ^ M - 2 ^ (M - N)) in Hrun.
    - rewrite Hrun; [f_equal; lia|]. apply pow2_word. lia.
    - rewrite Z.mul_sub_distr_r, <- Z.pow_add_r by lia.
      replace (N + (M - N)) with M by lia. lia. }
  assert (H64 : M = 64 -> nextPermutationOf (2 ^ M - 2 ^ (M - N))
                          = if N =? 1 then Undefined else Ok (2 ^ (N - 1) - 1)).
  { intros ->. destruct (Z.eqb_spec N 1) as [->|Hne]; [vm_compute; reflexivity|].
    pose proof (nextPermutationOf_last_64 (Z.to_nat N) ltac:(lia)) as H.
    rewrite Z2Nat.id in H by lia. exact H. }
  split; [assumption|]. split; [assumption|].
  intros y Hy [Hyr Hpy].
  destruct (Z.lt_ge_cases M 64) as [HM64|HM64].
  - rewrite (Hlt HM64) in Hy. injection Hy as <-.
    assert (0 < 2 ^ (N - 1)) by (apply pow2_pos; lia). lia.
  - rewrite (H64 ltac:(lia)) in Hy.
    destruct (Z.eqb_spec N 1); [discriminate|]. injection Hy as <-.
    assert (0 < 2 ^ (N - 1)) by (apply pow2_pos; lia).
    pose proof (popcount_le (N - 1) (2 ^ (N - 1) - 1) ltac:(lia) ltac:(lia)). lia.
Qed.

(** X4 among 5 orbitals, for 2 electrons: [11000] goes to [100001]. *)
Lemma nextPermutationOf_last_leaves_basis_witness :
  nextPermutationOf (2 ^ 5 - 2 ^ (5 - 2)) = Ok (2 ^ 5 + 2 ^ (2 - 1) - 1) /\
  (forall y, nextPermutationOf (2 ^ 5 - 2 ^ (5 - 2)) = Ok y ->
     ~ (0 <= y < 2 ^ 5 /\ popcount y = Z.to_nat 2)).
Proof.
  destruct (nextPermutationOf_last_leaves_basis 5 2 ltac:(lia) ltac:(lia)) as (H1 & _ & H3).
  split; [apply H1; lia|exact H3].
Defined.

(** ** The sweep of [forEach], continued *)

(** X5.  In a basis with [0 < N <= M <= 64] and [N <= 31], [forEach] hands
    every configuration of the basis (every representation with [N] bits
    set below bit [M]) to the callback, in exactly one invocation, together
    with its address. *)
Theorem forEach_visits_each_once (M N : Z) :
  0 < N <= M -> M <= 64 -> N <= 31 ->
  exists b calls, construct M N = Ok b /\ forEach b = Ok calls /\
    forall c, 0 <= c < 2 ^ M -> popcount c = Z.to_nat N ->
      exists i, calls !! i = Some (mkONV M N c, Z.of_nat i) /\
        addressOf b c = Some (Z.of_nat i) /\
        forall j onv a, calls !! j = Some (onv, a) ->
          unsignedRepresentation onv = c -> j = i.
Proof.
  intros HN HM HN31.
  destruct (construct_table M N ltac:(lia) ltac:(unfold word_modulus; lia)) as (t & Hb & _).
  set (b := mkONVBasis M N t) in *.
  exists b, (enumeration M N). split; [assumption|].
  split; [apply (forEach_enumeration M N b); (lia || assumption)|].
  intros c Hc Hp.
  destruct (all_onvs_index (Z.to_nat M) (Z.to_nat N) c) as (i & Hi & _);
    [rewrite Z2Nat.id by lia; assumption|assumption|].
  exists i. split; [now apply enumeration_lookup|].
  split; [apply (addressOf_all_onvs M N b); (lia || assumption)|].
  intros j onv a Hj Hrep. unfold enumeration in Hj. rewrite list_lookup_imap in Hj.
  destruct (all_onvs (Z.to_nat M) (Z.to_nat N) !! j) as [x|] eqn:Hx; [|discriminate].
  injection Hj as <- <-. cbn [unsignedRepresentation] in Hrep. subst x.
  exact (NoDup_lookup _ _ _ _ (all_onvs_NoDup _ _) Hx Hi).
Qed.

(** X5 in the basis of 5 orbitals and 2 electrons. *)
Lemma forEach_visits_each_once_witness :
  exists b calls, construct 5 2 = Ok b /\ forEach b = Ok calls /\
    forall c, 0 <= c < 2 ^ 5 -> popcount c = Z.to_nat 2 ->
      exists i, calls !! i = Some (mkONV 5 2 c, Z.of_nat i) /\
        addressOf b c = Some (Z.of_nat i) /\
        forall j onv a, calls !! j = Some (onv, a) ->
          unsignedRepresentation onv = c -> j = i.
Proof.
  apply (forEach_visits_each_once 5 2); lia.
Defined.

(** X6.  Without electrons the basis has the one configuration 0:
    [forEach] invokes the callback once, with the empty ONV and address 0. *)
Theorem forEach_without_electrons (M : Z) :
  0 <= M -> M + 1 < word_modulus ->
  exists b, construct M 0 = Ok b /\ forEach b = Ok [(mkONV M 0 0, 0)].
Proof.
  intros HM Hw.
  destruct (construct_table M 0 ltac:(lia) Hw) as (t & Hc & _).
  exists (mkONVBasis M 0 t). split; [assumption|].
  unfold forEach.
  assert (Hdim : dimension (mkONVBasis M 0 t) = Ok 1).
  { unfold dimension. cbn [numberOfOrbitals numberOfElectrons].
    change (Z.to_nat 0) with O.
    rewrite <- binom_closed by lia. rewrite binom_0_r. reflexivity. }
  rewrite Hdim. reflexivity.
Qed.

(** X6 for 4 orbitals. *)
Lemma forEach_without_electrons_witness :
  exists b, construct 4 0 = Ok b /\ forEach b = Ok [(mkONV 4 0 0, 0)].
Proof.
  apply (forEach_without_electrons 4); [lia|reflexivity].
Defined.

(** ** Decoding addresses in increasing order *)

(** X7.  In a basis constructed with [N <= M <= 31], [representationOf]
    is strictly increasing on the addresses [0 .. C(M,N) - 1]; it starts, for
    address 0, at the configuration with the lowest [N] orbitals occupied and
    ends, for the last address, at the one with the highest [N] occupied. *)
Theorem representationOf_increasing (M N : Z) (b : SpinUnresolvedONVBasis) :
  0 <= N <= M -> M <= 31 -> construct M N = Ok b ->
  representationOf b 0 = Ok (2 ^ N - 1) /\
  representationOf b (binomC M N - 1) = Ok (2 ^ M - 2 ^ (M - N)) /\
  (forall a1 a2 r1 r2, 0 <= a1 < a2 -> a2 < binomC M N ->
     representationOf b a1 = Ok r1 -> representationOf b a2 = Ok r2 -> r1 < r2).
Proof.
  intros HN HM Hb.
  set (L := all_onvs (Z.to_nat M) (Z.to_nat N)).
  assert (HL : Z.of_nat (length L) = binomC M N) by apply all_onvs_length.
  assert (Hpos : 0 < binomC M N)
    by (unfold binomC; apply binom_pos; lia).
  assert (Hdec : forall a x, L !! a = Some x -> representationOf b (Z.of_nat a) = Ok x)
    by (intros a x; apply (representationOf_all_onvs M N b HN HM Hb)).
  split; [|split].
  - pose proof (all_onvs_first (Z.to_nat M) (Z.to_nat N) ltac:(lia)) as H0.
    rewrite Z2Nat.id in H0 by lia. exact (Hdec 0%nat _ H0).
  - pose proof (all_onvs_last (Z.to_nat M) (Z.to_nat N) (Z.to_nat (binomC M N - 1))
                  ltac:(lia) ltac:(fold L; lia)) as Hl.
    rewrite Z2Nat.id in Hl by lia.
    replace (Z.of_nat (Z.to_nat M - Z.to_nat N)) with (M - N) in Hl by lia.
    pose proof (Hdec _ _ Hl) as H. rewrite Z2Nat.id in H by lia. exact H.
  - intros a1 a2 r1 r2 Ha1 Ha2 H1 H2.
    destruct (lookup_lt_is_Some_2 L (Z.to_nat a1) ltac:(lia)) as [x1 Hx1].
    destruct (lookup_lt_is_Some_2 L (Z.to_nat a2) ltac:(lia)) as [x2 Hx2].
    pose proof (Hdec _ _ Hx1) as E1. pose proof (Hdec _ _ Hx2) as E2.
    rewrite Z2Nat.id in E1, E2 by lia.
    rewrite E1 in H1. rewrite E2 in H2. injection H1 as <-. injection H2 as <-.
    exact (all_onvs_increasing _ _ (Z.to_nat a1) (Z.to_nat a2) x1 x2 ltac:(lia) Hx1 Hx2).
Qed.

(** X7 in the basis of 5 orbitals and 2 electrons. *)
Lemma representationOf_increasing_witness :
  exists b, construct 5 2 = Ok b /\
    representationOf b 0 = Ok (2 ^ 2 - 1) /\
    representationOf b (binomC 5 2 - 1) = Ok (2 ^ 5 - 2 ^ (5 - 2)) /\
    (forall a1 a2 r1 r2, 0 <= a1 < a2 -> a2 < binomC 5 2 ->
       representationOf b a1 = Ok r1 -> representationOf b a2 = Ok r2 -> r1 < r2).
Proof.
  destruct (construct_table 5 2 ltac:(lia) ltac:(reflexivity)) as (t & Ht & _).
  exists (mkONVBasis 5 2 t). split; [exact Ht|].
  apply (representationOf_increasing 5 2 _); [lia|lia|exact Ht].
Defined.

(** ** The position of an orbital pair among the coupling matrices *)

Section PairIndex.
Variable K : Z.
Hypothesis HK : 0 <= K <= 2 ^ 31.

Let word_bound : 2 ^ 63 + 2 ^ 33 < word_modulus.
Proof. reflexivity. Qed.

Let K_bound : K <= 2147483648.
Proof. change 2147483648 with (2 ^ 31). lia. Qed.

Lemma triangle_bounds p :
  0 <= p <= K -> 0 <= p * (K + K + 1 - p) <= 2 ^ 63 + 2 ^ 31.
Proof.
  intros Hp. pose proof K_bound. split; [apply Z.mul_nonneg_nonneg; lia|].
  transitivity (2147483648 * (2147483648 + 2147483648 + 1)); [|reflexivity].
  apply Z.mul_le_mono_nonneg; lia.
Qed.

Lemma triangle_step p :
  (p + 1) * (K + K + 1 - (p + 1)) / 2 = p * (K + K + 1 - p) / 2 + (K - p).
Proof.
  replace ((p + 1) * (K + K + 1 - (p + 1))) with (p * (K + K + 1 - p) + (K - p) * 2) by ring.
  apply Z.div_add. lia.
Qed.

Lemma triangle_mono (d : nat) p :
  0 <= p -> p + Z.of_nat d <= K ->
  p * (K + K + 1 - p) / 2 <= (p + Z.of_nat d) * (K + K + 1 - (p + Z.of_nat d)) / 2.
Proof.
  induction d as [|d IH]; intros Hp Hd.
  - replace (p + Z.of_nat 0) with p by lia. lia.
  - replace (p + Z.of_nat (S d)) with (p + Z.of_nat d + 1) by lia.
    rewrite triangle_step. specialize (IH Hp ltac:(lia)). lia.
Qed.

Lemma triangle_full : K * (K + K + 1 - K) / 2 = K * (K + 1) / 2.
Proof. f_equal. ring. Qed.

Lemma pair_index_exact p q :
  0 <= p <= q -> q < K ->
  pair_index K p q = p * (K + K + 1 - p) / 2 + q - p.
Proof.
  intros Hp Hq. unfold pair_index.
  pose proof (triangle_bounds p ltac:(lia)) as HA.
  pose proof word_bound. pose proof K_bound.
  assert (2 ^ 63 + 2 ^ 31 < 2 ^ 63 + 2 ^ 33) by reflexivity.
  rewrite (wrap_small (K + K + 1 - p)) by lia.
  rewrite (wrap_small (p * _)) by lia.
  assert (0 <= p * (K + K + 1 - p) / 2 <= 2 ^ 63 + 2 ^ 31).
  { split; [apply Z.div_pos; lia|]. apply Z.div_le_upper_bound; lia. }
  rewrite (wrap_small (_ / 2 + q)) by lia.
  rewrite wrap_small by lia. lia.
Qed.

Lemma pair_index_row_end p q :
  0 <= p <= q -> q < K ->
  pair_index K p q < (p + 1) * (K + K + 1 - (p + 1)) / 2.
Proof.
  intros Hp Hq. rewrite pair_index_exact by lia. rewrite triangle_step. lia.
Qed.

Lemma triangle_search (n : nat) k :
  Z.of_nat n <= K -> 0 <= k < Z.of_nat n * (K + K + 1 - Z.of_nat n) / 2 ->
  exists p, 0 <= p < Z.of_nat n /\
    p * (K + K + 1 - p) / 2 <= k < (p + 1) * (K + K + 1 - (p + 1)) / 2.
Proof.
  induction n as [|n IH]; intros Hn Hk.
  - change (Z.of_nat 0) with 0 in Hk. rewrite Z.mul_0_l in Hk.
    change (0 / 2) with 0 in Hk. lia.
  - destruct (Z.lt_ge_cases k (Z.of_nat n * (K + K + 1 - Z.of_nat n) / 2)) as [Hlt|Hge].
    + destruct (IH ltac:(lia) ltac:(lia)) as (p & Hp & Hpk). exists p. split; [lia|assumption].
    + exists (Z.of_nat n). split; [lia|]. split; [lia|].
      replace (Z.of_nat n + 1) with (Z.of_nat (S n)) by lia. lia.
Qed.

(** X8.  For up to [2^31] orbitals, the position
    [p * (K + K + 1 - p) / 2 + q - p] that [calculateOneElectronCouplings]
    gives the orbital pair [(p, q)], [p <= q < K], lies among the
    [K * (K + 1) / 2] matrices allocated, increases with [(p, q)] in
    lexicographic order (so that different pairs get different matrices, in
    the ascending order that the function documents), and every matrix is
    the one of some pair. *)
Theorem pair_index_enumerates_pairs :
  (forall p q, 0 <= p <= q -> q < K -> 0 <= pair_index K p q < K * (K + 1) / 2) /\
  (forall p q p' q', 0 <= p <= q -> q < K -> 0 <= p' <= q' -> q' < K ->
     p < p' \/ (p = p' /\ q < q') -> pair_index K p q < pair_index K p' q') /\
  (forall k, 0 <= k < K * (K + 1) / 2 ->
     exists p q, 0 <= p <= q /\ q < K /\ pair_index K p q = k).
Proof.
  split; [|split].
  - intros p q Hp Hq. split.
    + rewrite pair_index_exact by lia.
      pose proof (triangle_bounds p ltac:(lia)).
      assert (0 <= p * (K + K + 1 - p) / 2) by (apply Z.div_pos; lia). lia.
    + pose proof (pair_index_row_end p q Hp Hq) as Hend.
      pose proof (triangle_mono (Z.to_nat (K - (p + 1))) (p + 1) ltac:(lia) ltac:(lia)) as Hm.
      replace (p + 1 + Z.of_nat (Z.to_nat (K - (p + 1)))) with K in Hm by lia.
      rewrite triangle_full in Hm. lia.
  - intros p q p' q' Hp Hq Hp' Hq' [Hlt|[-> Hlt]].
    + pose proof (pair_index_row_end p q Hp Hq) as Hend.
      pose proof (triangle_mono (Z.to_nat (p' - (p + 1))) (p + 1) ltac:(lia) ltac:(lia)) as Hm.
      replace (p + 1 + Z.of_nat (Z.to_nat (p' - (p + 1)))) with p' in Hm by lia.
      rewrite (pair_index_exact p' q') by lia. lia.
    + rewrite !pair_index_exact by lia. lia.
  - intros k Hk.
    destruct (triangle_search (Z.to_nat K) k) as (p & Hp & Hpk).
    + lia.
    + rewrite Z2Nat.id by lia. rewrite triangle_full. assumption.
    + rewrite triangle_step in Hpk.
      exists p, (p + (k - p * (K + K + 1 - p) / 2)).
      split; [lia|]. split; [lia|]. rewrite pair_index_exact by lia. lia.
Qed.
End PairIndex.

(** X8 for 3 orbitals: the six pairs take the positions 0 to 5. *)
Lemma pair_index_enumerates_pairs_witness :
  (forall p q, 0 <= p <= q -> q < 3 -> 0 <= pair_index 3 p q < 3 * (3 + 1) / 2) /\
  (forall p q p' q', 0 <= p <= q -> q < 3 -> 0 <= p' <= q' -> q' < 3 ->
     p < p' \/ (p = p' /\ q < q') -> pair_index 3 p q < pair_index 3 p' q') /\
  (forall k, 0 <= k < 3 * (3 + 1) / 2 ->
     exists p q, 0 <= p <= q /\ q < 3 /\ pair_index 3 p q = k).
Proof.
  apply (pair_index_enumerates_pairs 3). split; [lia|discriminate].
Defined.

(** ** The DIIS subspace as a sliding window *)

Section DIISWindow.
Context {Matrix HamiltonianParameters : Type}.
Context {env : DIISEnvironment Matrix HamiltonianParameters}.

(** The solver object that a completed step leaves. *)
Lemma calculateNewFockMatrix_solver_after
    (slv : DIISRHFSCFSolver Matrix HamiltonianParameters) (D_AO : Matrix) step :
  calculateNewFockMatrix slv D_AO = Ok step ->
  let S := get_S (ham_par slv) in
  let f_AO := calculateRHFAOFockMatrix D_AO (ham_par slv) in
  let focks := fock_matrix_deque slv ++ [f_AO] in
  let errors := error_matrix_deque slv ++ [error_matrix_of f_AO D_AO S] in
  let collapse := maximum_subspace_dimension slv <? Z.of_nat (length errors) in
  solver_after step
  = mkDIISRHFSCFSolver (ham_par slv) (minimum_subspace_dimension slv)
      (maximum_subspace_dimension slv)
      (if collapse then tail focks else focks)
      (if collapse then tail errors else errors).
Proof.
  intros H S f_AO focks errors collapse. unfold calculateNewFockMatrix in H.
  fold S f_AO focks errors in H.
  apply outcome_bind_Ok in H as ([f systems] & _ & H).
  injection H as <-. reflexivity.
Qed.

Lemma calculateNewFockMatrix_total
    (slv : DIISRHFSCFSolver Matrix HamiltonianParameters) (D_AO : Matrix) :
  length (fock_matrix_deque slv) = length (error_matrix_deque slv) ->
  Z.of_nat (length (error_matrix_deque slv)) + 2 < word_modulus ->
  (forall B b, length (householderQR_solve B b) = length b) ->
  exists step, calculateNewFockMatrix slv D_AO = Ok step.
Proof.
  intros Hlen Hsize Hsolve. unfold calculateNewFockMatrix.
  set (S := get_S (ham_par slv)).
  set (f_AO := calculateRHFAOFockMatrix D_AO (ham_par slv)).
  set (focks := fock_matrix_deque slv ++ [f_AO]).
  set (errors := error_matrix_deque slv ++ [error_matrix_of f_AO D_AO S]).
  assert (Hn : Z.of_nat (length errors) + 1 < word_modulus).
  { unfold errors. rewrite length_app. cbn [length]. lia. }
  destruct (minimum_subspace_dimension slv <=? Z.of_nat (length errors)).
  - destruct (build_B_ok errors Hn) as (B & -> & _).
    destruct (build_b_ok (length errors) Hn) as (b & -> & Hblen & _).
    cbn [mbind outcome_bind].
    assert (Hfocks : Z.of_nat (length errors) = Z.of_nat (length focks)).
    { unfold errors, focks. rewrite !length_app. cbn [length]. lia. }
    rewrite Hfocks, combine_focks_ok by (rewrite Hsolve, Hblen; lia).
    eexists. reflexivity.
  - eexists. reflexivity.
Qed.

(** X9.  A step keeps the two deques of one length and of at most
    [maximum_subspace_dimension] entries: when they are full, the oldest
    pair is dropped.  The Fock matrix stored last is the plain one computed
    from the density, also when the step returns a DIIS combination, and
    the Hamiltonian parameters and the subspace bounds do not change. *)
Theorem calculateNewFockMatrix_keeps_window
    (slv : DIISRHFSCFSolver Matrix HamiltonianParameters) (D_AO : Matrix) :
  length (fock_matrix_deque slv) = length (error_matrix_deque slv) ->
  Z.of_nat (length (error_matrix_deque slv)) <= maximum_subspace_dimension slv ->
  Z.of_nat (length (error_matrix_deque slv)) + 2 < word_modulus ->
  (forall B b, length (householderQR_solve B b) = length b) ->
  exists step, calculateNewFockMatrix slv D_AO = Ok step /\
    let slv' := solver_after step in
    let f_AO := calculateRHFAOFockMatrix D_AO (ham_par slv) in
    length (fock_matrix_deque slv') = length (error_matrix_deque slv') /\
    Z.of_nat (length (error_matrix_deque slv')) <= maximum_subspace_dimension slv' /\
    (Z.of_nat (length (error_matrix_deque slv)) < maximum_subspace_dimension slv ->
       fock_matrix_deque slv' = fock_matrix_deque slv ++ [f_AO]) /\
    (Z.of_nat (length (error_matrix_deque slv)) = maximum_subspace_dimension slv ->
       fock_matrix_deque slv' = tail (fock_matrix_deque slv ++ [f_AO])) /\
    (1 <= maximum_subspace_dimension slv ->
       list.last (fock_matrix_deque slv') = Some f_AO /\
       list.last (error_matrix_deque slv')
       = Some (error_matrix_of f_AO D_AO (get_S (ham_par slv)))) /\
    ham_par slv' = ham_par slv /\
    minimum_subspace_dimension slv' = minimum_subspace_dimension slv /\
    maximum_subspace_dimension slv' = maximum_subspace_dimension slv.
Proof.
  intros Hlen Hmax Hsize Hsolve.
  destruct (calculateNewFockMatrix_total slv D_AO Hlen Hsize Hsolve) as [step Hstep].
  exists step. split; [assumption|].
  pose proof (calculateNewFockMatrix_solver_after slv D_AO step Hstep) as Hafter.
  cbv zeta in Hafter. cbv zeta. rewrite Hafter.
  cbn [fock_matrix_deque error_matrix_deque ham_par minimum_subspace_dimension
       maximum_subspace_dimension].
  set (f_AO := calculateRHFAOFockMatrix D_AO (ham_par slv)).
  set (e := error_matrix_of f_AO D_AO (get_S (ham_par slv))).
  rewrite length_app. cbn [length].
  destruct (Z.ltb_spec (maximum_subspace_dimension slv)
              (Z.of_nat (length (error_matrix_deque slv) + 1))) as [Hfull|Hroom].
  - assert (Hf : exists F Fs, fock_matrix_deque slv ++ [f_AO] = F :: Fs /\
                   length Fs = length (fock_matrix_deque slv) /\
                   (1 <= maximum_subspace_dimension slv -> list.last Fs = Some f_AO)).
    { destruct (fock_matrix_deque slv) as [|F Fs] eqn:E.
      - exists f_AO, []. repeat split. intros H1. rewrite <- Hlen in Hfull.
        cbn [length] in Hfull. lia.
      - exists F, (Fs ++ [f_AO]). repeat split.
        + rewrite length_app. cbn [length]. lia.
        + intros _. apply last_snoc. }
    assert (He : exists E Es, error_matrix_deque slv ++ [e] = E :: Es /\
                   length Es = length (error_matrix_deque slv) /\
                   (1 <= maximum_subspace_dimension slv -> list.last Es = Some e)).
    { destruct (error_matrix_deque slv) as [|E Es] eqn:E'.
      - exists e, []. repeat split. intros H1. cbn [length] in Hfull. lia.
      - exists E, (Es ++ [e]). repeat split.
        + rewrite length_app. cbn [length]. lia.
        + intros _. apply last_snoc. }
    destruct Hf as (F & Fs & -> & HFs & HlastF).
    destruct He as (E & Es & -> & HEs & HlastE).
    cbn [tail]. repeat split; try reflexivity; try lia; auto.
  - repeat split; try reflexivity; try lia.
    + rewrite !length_app. cbn [length]. lia.
    + rewrite length_app. cbn [length]. lia.
    + apply last_snoc.
    + apply last_snoc.
Qed.
End DIISWindow.

(** X9 at the first step of [fresh_solver] in the scalar environment. *)
Lemma calculateNewFockMatrix_keeps_window_witness :
  exists step,
    calculateNewFockMatrix (env := scalar_environment) fresh_solver double_two = Ok step /\
    let slv' := solver_after step in
    let f_AO := double_two in
    length (fock_matrix_deque slv') = length (error_matrix_deque slv') /\
    Z.of_nat (length (error_matrix_deque slv')) <= maximum_subspace_dimension slv' /\
    (Z.of_nat (length (error_matrix_deque fresh_solver))
       < maximum_subspace_dimension fresh_solver ->
       fock_matrix_deque slv' = fock_matrix_deque fresh_solver ++ [f_AO]) /\
    (Z.of_nat (length (error_matrix_deque fresh_solver))
       = maximum_subspace_dimension fresh_solver ->
       fock_matrix_deque slv' = tail (fock_matrix_deque fresh_solver ++ [f_AO])) /\
    (1 <= maximum_subspace_dimension fresh_solver ->
       list.last (fock_matrix_deque slv') = Some f_AO /\
       list.last (error_matrix_deque slv')
       = Some (error_matrix_of (env := scalar_environment) f_AO double_two double_one)) /\
    ham_par slv' = ham_par fresh_solver /\
    minimum_subspace_dimension slv' = minimum_subspace_dimension fresh_solver /\
    maximum_subspace_dimension slv' = maximum_subspace_dimension fresh_solver.
Proof.
  apply (calculateNewFockMatrix_keeps_window (env := scalar_environment)
           fresh_solver double_two).
  - reflexivity.
  - vm_compute. discriminate.
  - reflexivity.
  - intros [|[|t [|t' [|t'' r]]] rows] [|b0 [|b1 [|b2 b]]]; reflexivity.
Defined.

(** ** Two-electron coupling counts *)

Lemma wrap_mul_l a b : wrap (wrap a * b) = wrap (a * b).
Proof. unfold wrap. apply Z.mul_mod_idemp_l. discriminate. Qed.

Lemma wrap_mul_r a b : wrap (a * wrap b) = wrap (a * b).
Proof. unfold wrap. apply Z.mul_mod_idemp_r. discriminate. Qed.

Lemma pairs_among_succ c : pairs_among (c + 1) = pairs_among c + c.
Proof.
  unfold pairs_among.
  replace ((c + 1) * (c + 1 - 1)) with (c * (c - 1) + c * 2) by ring.
  apply Z.div_add. lia.
Qed.

Lemma pairs_among_double c : 2 * pairs_among c = c * (c - 1).
Proof.
  unfold pairs_among.
  assert (H : (c * (c - 1)) mod 2 = 0).
  { rewrite Z.mul_mod by lia.
    destruct (Z.mod_pos_bound c 2 ltac:(lia)) as [? ?].
    rewrite <- Zminus_mod_idemp_l.
    assert (Hc : c mod 2 = 0 \/ c mod 2 = 1) by lia.
    destruct Hc as [-> | ->]; reflexivity. }
  pose proof (Z.div_mod (c * (c - 1)) 2 ltac:(lia)). lia.
Qed.

Lemma binom_2 n : binom n 2 = pairs_among (Z.of_nat n).
Proof.
  induction n as [|n IH]; [reflexivity|].
  change (binom (S n) 2) with (binom n 2 + binom n 1).
  rewrite IH, binom_1_r, Nat2Z.inj_succ. unfold Z.succ.
  now rewrite pairs_among_succ.
Qed.

Lemma binomC_2 c : 0 <= c -> binomC c 2 = pairs_among c.
Proof.
  intros Hc. unfold binomC. change (Z.to_nat 2) with 2%nat.
  rewrite binom_2. now rewrite Z2Nat.id.
Qed.

Lemma pairs_among_small c : 0 <= c <= 1 -> pairs_among c = 0.
Proof.
  intros Hc. assert (E : c = 0 \/ c = 1) by lia. destruct E as [-> | ->]; reflexivity.
Qed.

Lemma pairs_among_nonneg c : 0 <= c -> 0 <= pairs_among c.
Proof. intros Hc. rewrite <- binomC_2 by assumption. apply binomC_nonneg. Qed.

Lemma calculateDimension_exact bc M N d c :
  bc (M mod 2 ^ 32) (N mod 2 ^ 32) = Ok d -> double_is d c -> 0 <= c < word_modulus ->
  calculateDimension bc M N = Ok c.
Proof.
  intros Hd His Hc. unfold calculateDimension. rewrite Hd. cbn [mbind outcome_bind].
  apply double_is_trunc in His. unfold converter_convert.
  destruct d as [s|s| |s m e]; try discriminate; rewrite His.
  - injection His as <-. reflexivity.
  - destruct (Z.leb_spec c (-1)); [lia|].
    destruct (Z.leb_spec word_modulus c); [lia|]. reflexivity.
Qed.

Lemma calculateDimension_pairs bc c :
  exact_pairs bc -> 2 <= c <= 64 -> calculateDimension bc c 2 = Ok (pairs_among c).
Proof.
  intros Hbc Hc. destruct (Hbc c Hc) as (d & Hd & His).
  rewrite binomC_2 in His by lia.
  apply (calculateDimension_exact bc c 2 d); [|assumption|].
  - change (2 mod 2 ^ 32) with 2. rewrite Z.mod_small; [assumption|].
    split; [lia|]. apply Z.le_lt_trans with 64; [lia|reflexivity].
  - split; [apply pairs_among_nonneg; lia|].
    unfold pairs_among. apply Z.div_lt_upper_bound; [lia|].
    apply Z.le_lt_trans with (64 * 64); [|reflexivity].
    apply Z.mul_le_mono_nonneg; lia.
Qed.

(** *** The sums over the electrons of one configuration *)

Lemma inner_sum_app V e l1 l2 :
  inner_sum V e (l1 ++ l2)
  = inner_sum V e l1 + inner_sum V (e + Z.of_nat (length l1)) l2.
Proof.
  revert e. induction l1 as [|q l1 IH]; intros e.
  - cbn [app inner_sum length]. now rewrite Z.add_0_r.
  - cbn [app inner_sum length]. rewrite IH.
    replace (e + 1 + Z.of_nat (length l1)) with (e + Z.of_nat (S (length l1))) by lia.
    lia.
Qed.

Lemma two_coupling_sum_snoc V e l q :
  two_coupling_sum V e (l ++ [q])
  = two_coupling_sum V e l + (V + (e + Z.of_nat (length l)) - q)
    + Z.of_nat (length l) * pair_term V (e + Z.of_nat (length l)) q.
Proof.
  revert e. induction l as [|p l IH]; intros e.
  - cbn [app two_coupling_sum inner_sum length]. change (Z.of_nat 0) with 0.
    rewrite Z.add_0_r. lia.
  - cbn [app two_coupling_sum length]. rewrite IH, inner_sum_app.
    cbn [inner_sum]. rewrite Nat2Z.inj_succ.
    replace (e + 1 + Z.of_nat (length l)) with (e + Z.succ (Z.of_nat (length l))) by lia.
    lia.
Qed.

Lemma pair_term_more_virtuals V e q : pair_term (V + 1) e q = pair_term V e q + V.
Proof.
  unfold pair_term. cbv zeta.
  replace (V + 1 + e - q) with (V + e - q + 1) by lia.
  rewrite pairs_among_succ. ring.
Qed.

Lemma inner_sum_more_virtuals V e l :
  inner_sum (V + 1) e l = inner_sum V e l + V * Z.of_nat (length l).
Proof.
  revert e. induction l as [|q l IH]; intros e.
  - cbn [inner_sum length]. lia.
  - cbn [inner_sum length]. rewrite IH, pair_term_more_virtuals. lia.
Qed.

Lemma two_coupling_sum_more_virtuals V e l :
  two_coupling_sum (V + 1) e l
  = two_coupling_sum V e l + Z.of_nat (length l) + V * pairs_among (Z.of_nat (length l)).
Proof.
  revert e. induction l as [|p l IH]; intros e.
  - cbn [two_coupling_sum length]. change (pairs_among (Z.of_nat 0)) with 0. lia.
  - cbn [two_coupling_sum length]. rewrite IH, inner_sum_more_virtuals.
    rewrite Nat2Z.inj_succ. unfold Z.succ. rewrite pairs_among_succ. ring.
Qed.

Lemma two_coupling_rounds_all V e l :
  two_coupling_rounds V e l (length l) = two_coupling_sum V e l.
Proof.
  revert e. induction l as [|p l IH]; intros e; [reflexivity|].
  cbn [length two_coupling_rounds two_coupling_sum]. now rewrite IH.
Qed.

Lemma two_coupling_rounds_succ V e l k p :
  l !! k = Some p ->
  two_coupling_rounds V e l (S k)
  = two_coupling_rounds V e l k
    + ((V + (e + Z.of_nat k) - p) + inner_sum V (e + Z.of_nat k + 1) (drop (S k) l)).
Proof.
  revert e l. induction k as [|k IH]; intros e l Hk.
  - destruct l as [|p0 l]; [discriminate|]. injection Hk as ->.
    cbn [two_coupling_rounds drop]. change (Z.of_nat 0) with 0.
    rewrite !Z.add_0_r. change (drop 0 l) with l.
    destruct l; cbn [two_coupling_rounds]; lia.
  - destruct l as [|p0 l]; [discriminate|]. cbn [lookup list_lookup] in Hk.
    change (two_coupling_rounds V e (p0 :: l) (S (S k)))
      with ((V + e - p0) + inner_sum V (e + 1) l + two_coupling_rounds V (e + 1) l (S k)).
    rewrite (IH (e + 1) l Hk).
    change (two_coupling_rounds V e (p0 :: l) (S k))
      with ((V + e - p0) + inner_sum V (e + 1) l + two_coupling_rounds V (e + 1) l k).
    change (drop (S (S k)) (p0 :: l)) with (drop (S k) l).
    rewrite Nat2Z.inj_succ.
    replace (e + 1 + Z.of_nat k) with (e + Z.succ (Z.of_nat k)) by lia. lia.
Qed.

(** *** The electrons of a configuration of the basis *)

Lemma occupied_orbital_range M N x e p :
  x ∈ all_onvs M N -> set_bits x !! e = Some p ->
  Z.of_nat e <= p <= Z.of_nat M - Z.of_nat N + Z.of_nat e.
Proof.
  revert N x e p. induction M as [|M IH]; intros [|N] x e p Hx Hp.
  - apply list_elem_of_singleton in Hx. subst. discriminate.
  - inversion Hx.
  - rewrite all_onvs_0 in Hx. apply list_elem_of_singleton in Hx. subst. discriminate.
  - apply list_elem_of_lookup in Hx as [i Hi].
    apply all_onvs_lookup_succ in Hi as [Hi|[_ (y & Hy & ->)]].
    + assert (Hin : x ∈ all_onvs M (S N)) by (apply list_elem_of_lookup; eauto).
      pose proof (IH _ _ _ _ Hin Hp). lia.
    + assert (Hin : y ∈ all_onvs M N) by (apply list_elem_of_lookup; eauto).
      pose proof (all_onvs_popcount _ _ _ Hin) as Hpc. unfold popcount in Hpc.
      pose proof (all_onvs_range _ _ _ Hin) as Hr.
      assert (N <= M)%nat.
      { destruct (decide (N <= M)%nat); [assumption|].
        rewrite all_onvs_gt in Hin by lia. inversion Hin. }
      rewrite set_bits_high in Hp by lia.
      apply lookup_app_Some in Hp as [Hp|[Hge Hp]].
      * pose proof (IH _ _ _ _ Hin Hp). lia.
      * rewrite Hpc in *. apply list_lookup_singleton_Some in Hp as [He <-]. lia.
Qed.

Lemma pair_term_bounds V e q :
  0 <= V + e - q <= V -> V <= 64 -> 0 <= pair_term V e q <= 8192.
Proof.
  intros Hc HV. unfold pair_term. cbv zeta.
  set (c := V + e - q) in *.
  assert (0 <= (V - c) * c <= 64 * 64).
  { split; [apply Z.mul_nonneg_nonneg; lia|apply Z.mul_le_mono_nonneg; lia]. }
  assert (0 <= pairs_among c) by (apply pairs_among_nonneg; lia).
  assert (pairs_among c <= 64 * 64).
  { destruct (Z.eq_dec c 0) as [->|Hne]; [discriminate|].
    unfold pairs_among. apply Z.div_le_upper_bound; [lia|].
    apply Z.le_trans with (64 * 64); [apply Z.mul_le_mono_nonneg; lia|lia]. }
  lia.
Qed.

Lemma inner_sum_bounds V e l :
  V <= 64 ->
  (forall i q, l !! i = Some q -> 0 <= V + (e + Z.of_nat i) - q <= V) ->
  0 <= inner_sum V e l <= 8192 * Z.of_nat (length l).
Proof.
  intros HV. revert e. induction l as [|q l IH]; intros e Hl.
  - cbn [inner_sum length]. lia.
  - cbn [inner_sum length].
    pose proof (Hl 0%nat q eq_refl) as H0. change (Z.of_nat 0) with 0 in H0.
    rewrite Z.add_0_r in H0.
    pose proof (pair_term_bounds V e q H0 HV).
    assert (0 <= inner_sum V (e + 1) l <= 8192 * Z.of_nat (length l)).
    { apply IH. intros i q' Hi. pose proof (Hl (S i) q' Hi) as Hsi.
      rewrite Nat2Z.inj_succ in Hsi.
      now replace (e + 1 + Z.of_nat i) with (e + Z.succ (Z.of_nat i)) by lia. }
    lia.
Qed.

Lemma two_coupling_sum_bounds V e l :
  V <= 64 ->
  (forall i q, l !! i = Some q -> 0 <= V + (e + Z.of_nat i) - q <= V) ->
  0 <= two_coupling_sum V e l
    <= 64 * Z.of_nat (length l) + 8192 * (Z.of_nat (length l) * Z.of_nat (length l)).
Proof.
  intros HV. revert e. induction l as [|p l IH]; intros e Hl.
  - cbn [two_coupling_sum length]. lia.
  - cbn [two_coupling_sum length].
    pose proof (Hl 0%nat p eq_refl) as H0. change (Z.of_nat 0) with 0 in H0.
    rewrite Z.add_0_r in H0.
    assert (Hshift : forall i q, l !! i = Some q ->
              0 <= V + (e + 1 + Z.of_nat i) - q <= V).
    { intros i q' Hi. pose proof (Hl (S i) q' Hi) as Hsi.
      rewrite Nat2Z.inj_succ in Hsi.
      now replace (e + 1 + Z.of_nat i) with (e + Z.succ (Z.of_nat i)) by lia. }
    pose proof (inner_sum_bounds V (e + 1) l HV Hshift).
    pose proof (IH (e + 1) Hshift).
    rewrite Nat2Z.inj_succ. set (n := Z.of_nat (length l)) in *.
    assert (0 <= n) by (unfold n; lia).
    replace (Z.succ n * Z.succ n) with (n * n + 2 * n + 1) by ring. lia.
Qed.

Lemma occupationIndexOf_lookup M N x e p :
  set_bits x !! Z.to_nat e = Some p -> occupationIndexOf (mkONV M N x) e = Ok p.
Proof. intros H. unfold occupationIndexOf. cbn [unsignedRepresentation]. now rewrite H. Qed.

(** The loops of [countTwoElectronCouplings], for a configuration of the
    basis and a binomial routine that is exact on pairs. *)
Lemma countTwoElectronCouplings_sum bc b M N x :
  numberOfOrbitals b = M -> numberOfElectrons b = N -> exact_pairs bc ->
  0 <= N <= M -> M <= 64 -> x ∈ all_onvs (Z.to_nat M) (Z.to_nat N) ->
  countTwoElectronCouplings bc b (mkONV M N x)
  = Ok (two_coupling_sum (M - N) 0 (set_bits x)).
Proof.
  intros EM EN Hbc HN HM Hx.
  set (L := set_bits x). set (V := M - N).
  assert (Hw : 2 ^ 30 < word_modulus) by reflexivity.
  assert (HL : length L = Z.to_nat N) by exact (all_onvs_popcount _ _ _ Hx).
  assert (Hrange : forall e p, L !! e = Some p -> 0 <= V + Z.of_nat e - p <= V).
  { intros e p Hp. pose proof (occupied_orbital_range _ _ _ _ _ Hx Hp). unfold V. lia. }
  unfold countTwoElectronCouplings. rewrite EM, EN. cbv zeta.
  rewrite (wrap_small (M - N)) by lia. fold V.
  match goal with
  | |- for_range 0 N ?body 0 = _ =>
      destruct (for_range_invariant
        (fun e c => c = wrap (two_coupling_rounds V 0 L (Z.to_nat e))) body 0 N 0)
        as (c & Hc & ->)
  end.
  - lia.
  - reflexivity.
  - intros e c He ->. cbv beta.
    destruct (lookup_lt_is_Some_2 L (Z.to_nat e) ltac:(lia)) as [p Hp].
    rewrite (occupationIndexOf_lookup M N x e p Hp).
    cbn [mbind outcome_bind].
    rewrite (wrap_small (e + 1)) by lia.
    rewrite wrap_sub_l, wrap_add.
    set (A := two_coupling_rounds V 0 L (Z.to_nat e) + (V + e - p)).
    match goal with
    | |- exists t', for_range (e + 1) N ?body ?s = Ok t' /\ _ =>
        destruct (for_range_invariant
          (fun j cc => cc = wrap (A + inner_sum V (e + 1)
                                     (take (Z.to_nat (j - (e + 1)))
                                        (drop (S (Z.to_nat e)) L))))
          body (e + 1) N s) as (cc & Hcc & ->)
    end.
    + lia.
    + rewrite Z.sub_diag. cbn [Z.to_nat take inner_sum]. now rewrite Z.add_0_r.
    + intros j cc Hj ->. cbv beta.
      destruct (lookup_lt_is_Some_2 L (Z.to_nat j) ltac:(lia)) as [q Hq].
      rewrite (occupationIndexOf_lookup M N x j q Hq).
      cbn [mbind outcome_bind].
      pose proof (Hrange _ _ Hq) as Hcq. rewrite Z2Nat.id in Hcq by lia.
      rewrite wrap_sub_l. rewrite (wrap_small (V + j - q)) by lia.
      set (cq := V + j - q) in *.
      rewrite (wrap_small (V - cq)) by lia.
      set (I := inner_sum V (e + 1) (take (Z.to_nat (j - (e + 1))) (drop (S (Z.to_nat e)) L))).
      assert (Htake : inner_sum V (e + 1)
                        (take (Z.to_nat (j + 1 - (e + 1))) (drop (S (Z.to_nat e)) L))
                      = I + pair_term V j q).
      { replace (Z.to_nat (j + 1 - (e + 1))) with (S (Z.to_nat (j - (e + 1)))) by lia.
        rewrite (take_S_r _ _ q).
        - rewrite inner_sum_app. cbn [inner_sum]. rewrite length_take, length_drop.
          fold I.
          replace (e + 1 + Z.of_nat (Z.to_nat (j - (e + 1)) `min` (length L - S (Z.to_nat e))))
            with j by lia.
          lia.
        - rewrite lookup_drop.
          now replace (S (Z.to_nat e) + Z.to_nat (j - (e + 1)))%nat with (Z.to_nat j) by lia. }
      rewrite Htake.
      assert (Hterm : pair_term V j q = (V - cq) * cq + pairs_among cq) by reflexivity.
      destruct (Z.ltb_spec 1 cq) as [Hbig|Hsmall].
      * rewrite (calculateDimension_pairs bc cq Hbc) by lia.
        cbn [mbind outcome_bind]. eexists. split; [reflexivity|].
        rewrite wrap_add, wrap_add_l. f_equal. lia.
      * eexists. split; [reflexivity|].
        rewrite wrap_add. rewrite Hterm, pairs_among_small by lia. f_equal. lia.
    + exists (wrap (A + inner_sum V (e + 1)
                          (take (Z.to_nat (N - (e + 1))) (drop (S (Z.to_nat e)) L)))).
      split; [assumption|].
      rewrite take_ge by (rewrite length_drop; lia).
      replace (Z.to_nat (e + 1)) with (S (Z.to_nat e)) by lia.
      rewrite (two_coupling_rounds_succ V 0 L (Z.to_nat e) p Hp).
      unfold A. f_equal. rewrite Z.add_0_l, Z2Nat.id by lia. lia.
  - rewrite Hc. f_equal. rewrite <- HL, two_coupling_rounds_all.
    apply wrap_small.
    pose proof (two_coupling_sum_bounds V 0 L ltac:(unfold V; lia)
                  ltac:(intros i q Hq; rewrite Z.add_0_l; eauto)) as Hb.
    assert (0 <= Z.of_nat (length L) <= 64) by lia.
    assert (Z.of_nat (length L) * Z.of_nat (length L) <= 64 * 64)
      by (apply Z.mul_le_mono_nonneg; lia).
    assert (64 * 64 + 8192 * (64 * 64) < 2 ^ 30) by reflexivity.
    lia.
Qed.

(** *** The sum over all configurations *)

Lemma two_coupling_sum_total M N :
  let V := Z.of_nat M - Z.of_nat N in
  8 * sum_Z ((fun x => two_coupling_sum V 0 (set_bits x)) <$> all_onvs M N)
  = binom M N * (4 * V * Z.of_nat N + V * (V - 1) * Z.of_nat N * (Z.of_nat N - 1)).
Proof.
  cbv zeta. revert N. induction M as [|M IH]; intros [|N].
  - simpl. lia.
  - simpl. lia.
  - rewrite all_onvs_0. cbn [fmap list_fmap sum_Z foldr set_bits two_coupling_sum].
    change (Z.of_nat 0) with 0. ring.
  - rewrite all_onvs_succ, fmap_app, sum_Z_app.
    rewrite (sum_Z_fmap_ext _
      (fun x => two_coupling_sum (Z.of_nat M - Z.of_nat (S N)) 0 (set_bits x))
      (all_onvs M (S N))
      (Z.of_nat (S N)
       + (Z.of_nat M - Z.of_nat (S N)) * pairs_among (Z.of_nat (S N)))).
    2:{ intros x Hx.
        pose proof (all_onvs_popcount _ _ _ Hx) as Hp. unfold popcount in Hp.
        replace (Z.of_nat (S M) - Z.of_nat (S N)) with (Z.of_nat M - Z.of_nat (S N) + 1) by lia.
        rewrite two_coupling_sum_more_virtuals, Hp. lia. }
    rewrite <- list_fmap_compose.
    rewrite (sum_Z_fmap_ext _
      (fun x => two_coupling_sum (Z.of_nat M - Z.of_nat N) 0 (set_bits x))
      (all_onvs M N) 0).
    2:{ intros y Hy. unfold compose.
        pose proof (all_onvs_popcount _ _ _ Hy) as Hp. unfold popcount in Hp.
        pose proof (all_onvs_range _ _ _ Hy) as Hr.
        rewrite set_bits_high by lia. rewrite two_coupling_sum_snoc, Hp.
        replace (Z.of_nat (S M) - Z.of_nat (S N)) with (Z.of_nat M - Z.of_nat N) by lia.
        unfold pair_term. cbv zeta.
        replace (Z.of_nat M - Z.of_nat N + (0 + Z.of_nat N) - Z.of_nat M) with 0 by lia.
        change (pairs_among 0) with 0. lia. }
    pose proof (IH (S N)) as H1. pose proof (IH N) as H2.
    pose proof (binom_absorb M N) as Habs.
    pose proof (pairs_among_double (Z.of_nat (S N))) as Hpa.
    rewrite (all_onvs_length M (S N)).
    change (binom (S M) (S N)) with (binom M (S N) + binom M N).
    set (s1 := sum_Z (_ <$> all_onvs M (S N))) in *.
    set (s2 := sum_Z (_ <$> all_onvs M N)) in *.
    rewrite !Nat2Z.inj_succ in *.
    set (u := binom M (S N)) in *. set (v := binom M N) in *.
    set (m := Z.of_nat M) in *. set (n := Z.of_nat N) in *.
    set (pa := pairs_among (Z.succ n)) in *.
    replace (Z.succ m - Z.succ n) with (m - n) by lia.
    replace (Z.succ n) with (n + 1) in * by lia.
    set (W := m - n) in *.
    replace (m - (n + 1)) with (W - 1) in * by (unfold W; lia).
    transitivity (8 * s1 + 8 * s2 + (8 * (n + 1) + 4 * (W - 1) * (2 * pa)) * u); [ring|].
    rewrite H1, H2, Hpa.
    transitivity (((n + 1) * u) * (4 * (W - 1) + (W - 1) * (W - 1 - 1) * n + 8
                                   + 4 * (W - 1) * n)
                  + v * (4 * W * n + W * (W - 1) * n * (n - 1))); [ring|].
    transitivity (((n + 1) * u) * (W * (4 + (W - 1) * n))
                  + v * ((n + 1) * W * (4 + (W - 1) * n))); [|ring].
    rewrite Habs. fold W. ring.
Qed.

Lemma rounded_binomial_exact_pairs : exact_pairs rounded_binomial.
Proof.
  intros n Hn. exists (binary_normalize 53 1024 (binomC n 2) 0 false). split.
  - unfold rounded_binomial. destruct (Z.leb_spec 2 n); [reflexivity|lia].
  - replace n with (Z.of_nat (Z.to_nat n)) by lia.
    assert (Hk : (2 <= Z.to_nat n <= 64)%nat) by lia.
    generalize dependent (Z.to_nat n). clear. intros k Hk.
    do 65 (destruct k as [|k]; [first [lia | vm_compute; reflexivity]|]). lia.
Qed.

Lemma countTotalOneElectronCouplings_value M N b :
  0 <= N <= M -> M <= 64 -> construct M N = Ok b ->
  countTotalOneElectronCouplings b = Ok (wrap ((M - N) * N * binomC M N)).
Proof.
  intros HN HM Hb. unfold countTotalOneElectronCouplings.
  rewrite (basis_dimension M N b) by (lia || assumption).
  rewrite (basis_orbitals M N b), (basis_electrons M N b) by (lia || assumption).
  cbn [mbind outcome_bind].
  rewrite (wrap_small (M - N)) by (unfold word_modulus; lia). reflexivity.
Qed.

(** X10.  In a basis constructed with [N <= M <= 64], with a binomial
    routine that is exact on pairs, [countTotalTwoElectronCouplings()]
    returns [C(M-N,2) * N * (N-1) * C(M,N)], reduced modulo [2^64] and then
    halved, plus the one-electron total [(M-N) * N * C(M,N)], modulo [2^64]:
    that is [C(M-N,2) * C(N,2) * C(M,N) + (M-N) * N * C(M,N)] whenever the
    (unhalved) sum is below [2^64].  With fewer than two virtual orbitals the
    routine is not called at all, and the result is the one-electron
    total. *)
Theorem two_electron_coupling_total
    (binomial_coefficient : Z -> Z -> outcome double) (M N : Z)
    (b : SpinUnresolvedONVBasis) :
  0 <= N <= M -> M <= 64 -> construct M N = Ok b ->
  (exact_pairs binomial_coefficient ->
     countTotalTwoElectronCouplings binomial_coefficient b
     = Ok (wrap (wrap (pairs_among (M - N) * N * (N - 1) * binomC M N) / 2
                 + (M - N) * N * binomC M N))) /\
  (exact_pairs binomial_coefficient ->
     pairs_among (M - N) * N * (N - 1) * binomC M N + (M - N) * N * binomC M N
       < word_modulus ->
     countTotalTwoElectronCouplings binomial_coefficient b
     = Ok (pairs_among (M - N) * pairs_among N * binomC M N
           + (M - N) * N * binomC M N)) /\
  (M - N < 2 ->
     countTotalTwoElectronCouplings binomial_coefficient b
     = countTotalOneElectronCouplings b).
Proof.
  intros HN HM Hb.
  assert (Hw : 2 ^ 30 < word_modulus) by reflexivity.
  pose proof (countTotalOneElectronCouplings_value M N b HN HM Hb) as Hone.
  assert (Hval : exact_pairs binomial_coefficient ->
     countTotalTwoElectronCouplings binomial_coefficient b
     = Ok (wrap (wrap (pairs_among (M - N) * N * (N - 1) * binomC M N) / 2
                 + (M - N) * N * binomC M N))).
  { intros Hbc. unfold countTotalTwoElectronCouplings. rewrite Hone.
    rewrite (basis_orbitals M N b), (basis_electrons M N b) by (lia || assumption).
    cbv zeta. rewrite (wrap_small (M - N)) by lia.
    destruct (Z.leb_spec 2 (M - N)) as [Hbig|Hsmall].
    - rewrite (calculateDimension_pairs _ (M - N) Hbc) by lia.
      rewrite (basis_dimension M N b) by (lia || assumption).
      cbn [mbind outcome_bind]. f_equal.
      assert (E : wrap (wrap (pairs_among (M - N) * N) * wrap (N - 1))
                  = wrap (pairs_among (M - N) * N * (N - 1)))
        by (rewrite wrap_mul_l, wrap_mul_r; reflexivity).
      rewrite E, wrap_mul_l, wrap_add_r. reflexivity.
    - cbn [mbind outcome_bind]. f_equal.
      rewrite (pairs_among_small (M - N)) by lia.
      rewrite !Z.mul_0_l. change (wrap 0 / 2) with 0.
      rewrite wrap_add_r. reflexivity. }
  split; [exact Hval|]. split.
  - intros Hbc Hlt. rewrite (Hval Hbc). f_equal.
    pose proof (pairs_among_nonneg (M - N) ltac:(lia)) as HpV.
    pose proof (pairs_among_double N) as HdN.
    pose proof (binomC_nonneg M N) as Hdim.
    assert (HP : pairs_among (M - N) * N * (N - 1) * binomC M N
                 = (pairs_among (M - N) * pairs_among N * binomC M N) * 2).
    { rewrite <- (Z.mul_assoc (pairs_among (M - N)) N (N - 1)), <- HdN. ring. }
    assert (0 <= pairs_among (M - N) * pairs_among N * binomC M N).
    { apply Z.mul_nonneg_nonneg; [apply Z.mul_nonneg_nonneg|]; try assumption.
      apply pairs_among_nonneg. lia. }
    assert (0 <= (M - N) * N * binomC M N).
    { apply Z.mul_nonneg_nonneg; [apply Z.mul_nonneg_nonneg|]; lia. }
    rewrite HP in *. rewrite (wrap_small (_ * 2)) by lia.
    rewrite Z.div_mul by lia. apply wrap_small. lia.
  - intros Hsmall. unfold countTotalTwoElectronCouplings.
    rewrite (basis_orbitals M N b), (basis_electrons M N b) by (lia || assumption).
    cbv zeta. rewrite (wrap_small (M - N)) by lia.
    destruct (Z.leb_spec 2 (M - N)); [lia|]. rewrite Hone.
    cbn [mbind outcome_bind]. rewrite Z.add_0_l. now rewrite wrap_wrap.
Qed.

(** X10 in the basis of 5 orbitals and 2 electrons, with the rounding
    routine: 30 double and 60 single excitations. *)
Lemma two_electron_coupling_total_witness :
  exists b, construct 5 2 = Ok b /\
    countTotalTwoElectronCouplings rounded_binomial b = Ok 90 /\
    countTotalTwoElectronCouplings rounded_binomial b
    = Ok (pairs_among (5 - 2) * pairs_among 2 * binomC 5 2 + (5 - 2) * 2 * binomC 5 2).
Proof.
  destruct (construct_table 5 2 ltac:(lia) ltac:(reflexivity)) as (t & Ht & _).
  exists (mkONVBasis 5 2 t). split; [exact Ht|].
  destruct (two_electron_coupling_total rounded_binomial 5 2 (mkONVBasis 5 2 t)
              ltac:(lia) ltac:(lia) Ht) as (_ & H & _).
  split; apply (H rounded_binomial_exact_pairs); reflexivity.
Defined.

(** X11.  In a basis constructed with [N <= M <= 64], with a binomial
    routine that is exact on pairs, [countTwoElectronCouplings] returns for
    every configuration, and twice the sum of what it returns over all the
    configurations of the basis is
    [C(M-N,2) * C(N,2) * C(M,N) + (M-N) * N * C(M,N)], the total of
    [countTotalTwoElectronCouplings]. *)
Theorem two_electron_coupling_counts
    (binomial_coefficient : Z -> Z -> outcome double) (M N : Z) :
  0 <= N <= M -> M <= 64 -> exact_pairs binomial_coefficient ->
  exists b, construct M N = Ok b /\
    let onvs := all_onvs (Z.to_nat M) (Z.to_nat N) in
    NoDup onvs /\ Z.of_nat (length onvs) = binomC M N /\
    (forall x, x ∈ onvs <-> 0 <= x < 2 ^ M /\ popcount x = Z.to_nat N) /\
    exists counts,
      Forall2 (fun x c =>
                 countTwoElectronCouplings binomial_coefficient b (mkONV M N x) = Ok c)
              onvs counts /\
      2 * sum_Z counts
      = pairs_among (M - N) * pairs_among N * binomC M N + (M - N) * N * binomC M N.
Proof.
  intros HN HM Hbc.
  destruct (construct_table M N ltac:(lia) ltac:(unfold word_modulus; lia)) as (t & Hb & _).
  set (b := mkONVBasis M N t) in *.
  exists b. split; [assumption|]. cbv zeta.
  split; [apply all_onvs_NoDup|].
  split; [apply all_onvs_length|].
  split.
  { intros x. rewrite all_onvs_spec. now rewrite Z2Nat.id by lia. }
  exists ((fun x => two_coupling_sum (M - N) 0 (set_bits x))
            <$> all_onvs (Z.to_nat M) (Z.to_nat N)).
  split.
  - apply Forall2_fmap_r. apply Forall_Forall2_diag. apply Forall_forall.
    intros x Hx. apply list_elem_of_In in Hx.
    apply (countTwoElectronCouplings_sum binomial_coefficient b M N x);
      try reflexivity; try assumption; lia.
  - pose proof (two_coupling_sum_total (Z.to_nat M) (Z.to_nat N)) as Ht.
    cbv zeta in Ht. rewrite !Z2Nat.id in Ht by lia.
    pose proof (pairs_among_double (M - N)) as HdV.
    pose proof (pairs_among_double N) as HdN.
    unfold binomC.
    set (s := sum_Z _) in *. set (d := binom _ _) in *.
    set (pV := pairs_among (M - N)) in *. set (pN := pairs_among N) in *.
    assert (E : (M - N) * (M - N - 1) * N * (N - 1) = 4 * (pV * pN)).
    { rewrite <- (Z.mul_assoc _ N (N - 1)), <- HdV, <- HdN. ring. }
    rewrite E in Ht.
    assert (8 * s = 4 * (pV * pN * d + (M - N) * N * d)) by (rewrite Ht; ring).
    lia.
Qed.

(** X11 in the basis of 4 orbitals and 2 electrons, with the rounding
    routine. *)
Lemma two_electron_coupling_counts_witness :
  exists b, construct 4 2 = Ok b /\
    let onvs := all_onvs (Z.to_nat 4) (Z.to_nat 2) in
    NoDup onvs /\ Z.of_nat (length onvs) = binomC 4 2 /\
    (forall x, x ∈ onvs <-> 0 <= x < 2 ^ 4 /\ popcount x = Z.to_nat 2) /\
    exists counts,
      Forall2 (fun x c =>
                 countTwoElectronCouplings rounded_binomial b (mkONV 4 2 x) = Ok c)
              onvs counts /\
      2 * sum_Z counts
      = pairs_among (4 - 2) * pairs_among 2 * binomC 4 2 + (4 - 2) * 2 * binomC 4 2.
Proof.
  apply (two_electron_coupling_counts rounded_binomial 4 2);
    [lia | lia | exact rounded_binomial_exact_pairs].
Defined.

(** ** Addresses beyond the last one *)

Section Clamp.
Variables (M N : Z) (b : SpinUnresolvedONVBasis).
Hypothesis HN : 0 <= N <= M.
Hypothesis HM : M <= 31.
Hypothesis Hb : construct M N = Ok b.

Lemma representationOf_loop_clamp (p : nat) :
  forall (m : nat) a r,
  (1 <= m <= p)%nat -> Z.of_nat p <= M -> Z.of_nat m <= N ->
  Z.of_nat p - Z.of_nat m <= M - N ->
  binom p m - 1 <= a < word_modulus -> 0 <= r ->
  representationOf_loop b p (Z.of_nat m) a r
  = Ok (Z.lor r (2 ^ Z.of_nat p - 2 ^ (Z.of_nat p - Z.of_nat m))).
Proof.
  induction p as [|p IH]; intros m a r Hm HpM HmN Hband Ha Hr; [lia|].
  destruct m as [|m]; [lia|].
  cbn [representationOf_loop].
  rewrite (basis_weight M N b) by (lia || assumption).
  assert (Hw : weight_spec M N (Z.of_nat p) (Z.of_nat (S m)) = binom p (S m)).
  { unfold weight_spec.
    destruct (Z.leb_spec (Z.of_nat p) M); [|lia].
    destruct (Z.leb_spec (Z.of_nat (S m)) N); [|lia].
    destruct (Z.leb_spec (Z.of_nat p - Z.of_nat (S m)) (M - N)); [|lia].
    simpl andb. cbv iota. unfold binomC.
    rewrite !Nat2Z.id. apply wrap_small. apply binom_word. lia. }
  rewrite Hw.
  change (binom (S p) (S m)) with (binom p (S m) + binom p m) in Ha.
  pose proof (binom_pos p m ltac:(lia)) as Hpos.
  pose proof (binom_nonneg p (S m)) as Hnn.
  destruct (Z.leb_spec (binom p (S m)) a) as [_|]; [|lia].
  unfold int_one_shl. destruct (Z.ltb_spec (Z.of_nat p) 31); [|lia].
  cbn [mbind outcome_bind].
  pose proof (pow2_word (Z.of_nat p) ltac:(lia)).
  rewrite (wrap_small (2 ^ Z.of_nat p)) by lia.
  replace (wrap (Z.of_nat (S m) - 1)) with (Z.of_nat m)
    by (rewrite wrap_small; unfold word_modulus; lia).
  rewrite (wrap_small (a - binom p (S m))) by lia.
  destruct (Z.eqb_spec (Z.of_nat m) 0) as [E0|Hne].
  - f_equal. f_equal. assert (m = O) by lia. subst m.
    rewrite Nat2Z.inj_succ, Z.pow_succ_r by lia.
    replace (Z.succ (Z.of_nat p) - Z.of_nat 1) with (Z.of_nat p) by lia. lia.
  - rewrite IH; try lia.
    + f_equal. rewrite <- Z.lor_assoc. f_equal.
      pose proof (pow2_pos (Z.of_nat p - Z.of_nat m) ltac:(lia)).
      pose proof (pow2_le_mono (Z.of_nat p - Z.of_nat m) (Z.of_nat p) ltac:(lia)).
      replace (2 ^ Z.of_nat p) with (1 * 2 ^ Z.of_nat p + 0) at 1 by lia.
      replace (2 ^ Z.of_nat p - 2 ^ (Z.of_nat p - Z.of_nat m))
        with (0 * 2 ^ Z.of_nat p + (2 ^ Z.of_nat p - 2 ^ (Z.of_nat p - Z.of_nat m))) by lia.
      rewrite lor_join by lia. rewrite Z.lor_0_r, Z.lor_0_l.
      rewrite Nat2Z.inj_succ, Z.pow_succ_r by lia.
      replace (Z.succ (Z.of_nat p) - Z.of_nat (S m)) with (Z.of_nat p - Z.of_nat m) by lia.
      lia.
    + apply Z.lor_nonneg. lia.
Qed.

(** X12.  In a basis constructed with [N <= M <= 31], [representationOf]
    checks no bound: every address from the last one, [C(M,N) - 1], on is
    decoded as the last configuration, the one with the highest [N]
    orbitals occupied. *)
Theorem representationOf_clamps_large_addresses (a : Z) :
  binomC M N - 1 <= a < word_modulus ->
  representationOf b a = Ok (2 ^ M - 2 ^ (M - N)).
Proof.
  intros Ha. unfold representationOf.
  assert (HM64 : M <= 64) by lia.
  rewrite (basis_electrons M N b HN HM64 Hb), (basis_orbitals M N b HN HM64 Hb).
  destruct (Z.eqb_spec N 0) as [->|Hne].
  - f_equal. rewrite Z.sub_0_r. lia.
  - pose proof (representationOf_loop_clamp (Z.to_nat M) (Z.to_nat N) a 0) as H.
    rewrite !Z2Nat.id in H by lia. rewrite H; try lia.
    + now rewrite Z.lor_0_l.
    + unfold binomC in Ha. lia.
Qed.
End Clamp.

(** X12 in the basis of 5 orbitals and 2 electrons, at the address 1000. *)
Lemma representationOf_clamps_large_addresses_witness :
  exists b, construct 5 2 = Ok b /\ representationOf b 1000 = Ok (2 ^ 5 - 2 ^ (5 - 2)).
Proof.
  destruct (construct_table 5 2 ltac:(lia) ltac:(reflexivity)) as (t & Ht & _).
  exists (mkONVBasis 5 2 t). split; [exact Ht|].
  apply (representationOf_clamps_large_addresses 5 2 _); [lia|lia|exact Ht|].
  split; [vm_compute; discriminate|reflexivity].
Defined.

(** ** More than 31 electrons *)

(** X13.  In a basis constructed with [33 <= N <= M <= 64],
    [representationOf(0)] shifts the [int] constant 1 by [N - 1 >= 32]
    bits, which has no defined behaviour; so have
    [constructONVFromAddress(0)] and [forEach], which start from it.  With
    [N = 32], [representationOf(0)] returns the word with all 64 bits set
    instead of the one with the lowest 32. *)
Theorem representationOf_beyond_int_width (M N : Z) (b : SpinUnresolvedONVBasis) :
  32 <= N <= M -> M <= 64 -> construct M N = Ok b ->
  (N = 32 -> representationOf b 0 = Ok (2 ^ 64 - 1)) /\
  (33 <= N ->
     representationOf b 0 = Undefined /\
     constructONVFromAddress b 0 = Undefined /\
     forEach b = Undefined).
Proof.
  intros HN HM Hb.
  assert (HN0 : 0 <= N <= M) by lia.
  pose proof (basis_electrons M N b HN0 HM Hb) as EN.
  pose proof (basis_orbitals M N b HN0 HM Hb) as EM.
  assert (Hstart : representationOf b 0
                   = representationOf_loop b (Z.to_nat N) N 0 0).
  { unfold representationOf. rewrite EN, EM.
    destruct (Z.eqb_spec N 0); [lia|].
    apply (representationOf_loop_skip M N b HN0 HM Hb); lia. }
  assert (Hzero : vertexWeight b (N - 1) N = 0).
  { rewrite (basis_weight M N b HN0 HM Hb) by lia.
    apply weight_spec_outside_band; lia. }
  split.
  - intros HN32. rewrite Hstart.
    replace (Z.to_nat N) with (S (Z.to_nat (N - 1))) by lia.
    cbn [representationOf_loop]. rewrite Z2Nat.id by lia. rewrite Hzero.
    change (0 <=? 0) with true. cbv iota.
    unfold int_one_shl.
    destruct (Z.ltb_spec (N - 1) 31); [lia|].
    destruct (Z.eqb_spec (N - 1) 31); [|lia].
    cbn [mbind outcome_bind].
    rewrite (wrap_small (N - 1)) by (unfold word_modulus; lia).
    destruct (Z.eqb_spec (N - 1) 0); [lia|].
    change (wrap (0 - 0)) with 0.
    replace (N - 1) with (Z.of_nat (Z.to_nat (N - 1))) at 2 by lia.
    rewrite (representationOf_loop_fill M N b HN0 HM Hb (Z.to_nat (N - 1))).
    + replace (Z.of_nat (Z.to_nat (N - 1))) with 31 by lia. reflexivity.
    + lia.
    + vm_compute. discriminate.
  - intros H33.
    assert (Hrep : representationOf b 0 = Undefined).
    { rewrite Hstart.
      replace (Z.to_nat N) with (S (Z.to_nat (N - 1))) by lia.
      cbn [representationOf_loop]. rewrite Z2Nat.id by lia. rewrite Hzero.
      change (0 <=? 0) with true. cbv iota.
      unfold int_one_shl.
      destruct (Z.ltb_spec (N - 1) 31); [lia|].
      destruct (Z.eqb_spec (N - 1) 31); [lia|]. reflexivity. }
    assert (Hcons : constructONVFromAddress b 0 = Undefined).
    { unfold constructONVFromAddress, transformONVCorrespondingToAddress.
      now rewrite Hrep. }
    split; [assumption|]. split; [assumption|].
    unfold forEach. rewrite (basis_dimension M N b HN0 HM Hb).
    cbn [mbind outcome_bind]. now rewrite Hcons.
Qed.

(** X13 in the basis of 34 orbitals and 33 electrons. *)
Lemma representationOf_beyond_int_width_witness :
  exists b, construct 34 33 = Ok b /\
    representationOf b 0 = Undefined /\
    constructONVFromAddress b 0 = Undefined /\
    forEach b = Undefined.
Proof.
  destruct (construct_table 34 33 ltac:(lia) ltac:(reflexivity)) as (t & Ht & _).
  exists (mkONVBasis 34 33 t). split; [exact Ht|].
  apply (representationOf_beyond_int_width 34 33 _); [lia|lia|exact Ht|lia].
Defined.

(** ** The shape of the table *)

(** X14.  The constructor leaves a table of [M + 1] rows of [N + 1] entries
    each, and every entry is a [size_t]. *)
Theorem vertex_weights_shape (M N : Z) (b : SpinUnresolvedONVBasis) :
  0 <= N <= M -> M + 1 < word_modulus -> construct M N = Ok b ->
  Z.of_nat (length (vertex_weights b)) = M + 1 /\
  Forall (fun row => Z.of_nat (length row) = N + 1 /\
                     Forall (fun w => 0 <= w < word_modulus) row) (vertex_weights b).
Proof.
  intros HN HM Hb.
  destruct (construct_table M N HN HM) as (t & Ht & [Hrows Hcols] & Hval).
  rewrite Ht in Hb. injection Hb as <-. cbn [vertex_weights].
  split; [lia|].
  apply Forall_lookup_2. intros i row Hrow.
  pose proof (Hcols i row Hrow) as Hlen. split; [lia|].
  apply Forall_lookup_2. intros j w Hw.
  pose proof (Hval (Z.of_nat i) (Z.of_nat j) ltac:(lia) ltac:(lia)) as Hv.
  unfold table_lookup in Hv. rewrite !Nat2Z.id, Hrow, Hw in Hv.
  change (default 0 (Some w)) with w in Hv. rewrite Hv. unfold weight_spec.
  destruct (_ && _); [apply wrap_range|]. unfold word_modulus. lia.
Qed.

(** X14 for 5 orbitals and 2 electrons. *)
Lemma vertex_weights_shape_witness :
  exists b, construct 5 2 = Ok b /\
    Z.of_nat (length (vertex_weights b)) = 5 + 1 /\
    Forall (fun row => Z.of_nat (length row) = 2 + 1 /\
                       Forall (fun w => 0 <= w < word_modulus) row) (vertex_weights b).
Proof.
  destruct (construct_table 5 2 ltac:(lia) ltac:(reflexivity)) as (t & Ht & _).
  exists (mkONVBasis 5 2 t). split; [exact Ht|].
  apply (vertex_weights_shape 5 2 _); [lia|reflexivity|exact Ht].
Defined.

(** ** The counts at the two ends of the basis *)

Lemma set_bits_low_run (n : nat) :
  set_bits (2 ^ Z.of_nat (S n) - 1) = set_bits (2 ^ Z.of_nat n - 1) ++ [Z.of_nat n].
Proof.
  pose proof (pow2_pos (Z.of_nat n) ltac:(lia)).
  rewrite Nat2Z.inj_succ, Z.pow_succ_r by lia.
  replace (2 * 2 ^ Z.of_nat n - 1) with (2 ^ Z.of_nat n + (2 ^ Z.of_nat n - 1)) by lia.
  apply set_bits_high; lia.
Qed.

Lemma set_bits_high_run (V : Z) (n : nat) :
  0 <= V ->
  set_bits (2 ^ (V + Z.of_nat (S n)) - 2 ^ V)
  = set_bits (2 ^ (V + Z.of_nat n) - 2 ^ V) ++ [V + Z.of_nat n].
Proof.
  intros HV.
  pose proof (pow2_pos V HV).
  pose proof (pow2_le_mono V (V + Z.of_nat n) ltac:(lia)).
  rewrite Nat2Z.inj_succ.
  replace (V + Z.succ (Z.of_nat n)) with (Z.succ (V + Z.of_nat n)) by lia.
  rewrite Z.pow_succ_r by lia.
  replace (2 * 2 ^ (V + Z.of_nat n) - 2 ^ V)
    with (2 ^ (V + Z.of_nat n) + (2 ^ (V + Z.of_nat n) - 2 ^ V)) by lia.
  apply set_bits_high; lia.
Qed.

Lemma length_set_bits_low_run (n : nat) : length (set_bits (2 ^ Z.of_nat n - 1)) = n.
Proof.
  induction n as [|n IH]; [reflexivity|].
  rewrite set_bits_low_run, length_app, IH. cbn [length]. lia.
Qed.

Lemma length_set_bits_high_run (V : Z) (n : nat) :
  0 <= V -> length (set_bits (2 ^ (V + Z.of_nat n) - 2 ^ V)) = n.
Proof.
  intros HV. induction n as [|n IH].
  - change (Z.of_nat 0) with 0. rewrite Z.add_0_r, Z.sub_diag. reflexivity.
  - rewrite set_bits_high_run, length_app, IH by assumption. cbn [length]. lia.
Qed.

Lemma coupling_sum_low_run V (n : nat) :
  coupling_sum V 0 (set_bits (2 ^ Z.of_nat n - 1)) = Z.of_nat n * V.
Proof.
  induction n as [|n IH]; [reflexivity|].
  rewrite set_bits_low_run, coupling_sum_app, IH, length_set_bits_low_run.
  cbn [coupling_sum]. lia.
Qed.

Lemma coupling_sum_high_run V (n : nat) :
  0 <= V -> coupling_sum V 0 (set_bits (2 ^ (V + Z.of_nat n) - 2 ^ V)) = 0.
Proof.
  intros HV. induction n as [|n IH].
  - change (Z.of_nat 0) with 0. rewrite Z.add_0_r, Z.sub_diag. reflexivity.
  - rewrite set_bits_high_run, coupling_sum_app, IH, length_set_bits_high_run by assumption.
    cbn [coupling_sum]. lia.
Qed.

Lemma two_coupling_sum_low_run V (n : nat) :
  two_coupling_sum V 0 (set_bits (2 ^ Z.of_nat n - 1))
  = Z.of_nat n * V + pairs_among (Z.of_nat n) * pairs_among V.
Proof.
  induction n as [|n IH]; [reflexivity|].
  rewrite set_bits_low_run, two_coupling_sum_snoc, IH, length_set_bits_low_run.
  unfold pair_term. cbv zeta.
  replace (V + (0 + Z.of_nat n) - Z.of_nat n) with V by lia.
  rewrite Nat2Z.inj_succ. unfold Z.succ. rewrite pairs_among_succ. ring.
Qed.

Lemma two_coupling_sum_high_run V (n : nat) :
  0 <= V -> two_coupling_sum V 0 (set_bits (2 ^ (V + Z.of_nat n) - 2 ^ V)) = 0.
Proof.
  intros HV. induction n as [|n IH].
  - change (Z.of_nat 0) with 0. rewrite Z.add_0_r, Z.sub_diag. reflexivity.
  - rewrite set_bits_high_run, two_coupling_sum_snoc, IH, length_set_bits_high_run
      by assumption.
    unfold pair_term. cbv zeta.
    replace (V + (0 + Z.of_nat n) - (V + Z.of_nat n)) with 0 by lia.
    change (pairs_among 0) with 0. lia.
Qed.

(** X15.  In a basis constructed with [N <= M <= 64], the configuration of
    address 0 (the lowest [N] orbitals occupied) couples to [N * (M-N)]
    configurations through a one-electron operator and to
    [C(N,2) * C(M-N,2)] more through a two-electron operator: all its single
    and double excitations have larger addresses.  The last configuration
    couples to none, and no configuration to more than [N * (M-N)] through
    a one-electron operator. *)
Theorem coupling_counts_at_the_ends
    (binomial_coefficient : Z -> Z -> outcome double) (M N : Z)
    (b : SpinUnresolvedONVBasis) :
  0 <= N <= M -> M <= 64 -> construct M N = Ok b -> exact_pairs binomial_coefficient ->
  countOneElectronCouplings b (mkONV M N (2 ^ N - 1)) = Ok (N * (M - N)) /\
  countOneElectronCouplings b (mkONV M N (2 ^ M - 2 ^ (M - N))) = Ok 0 /\
  countTwoElectronCouplings binomial_coefficient b (mkONV M N (2 ^ N - 1))
  = Ok (N * (M - N) + pairs_among N * pairs_among (M - N)) /\
  countTwoElectronCouplings binomial_coefficient b (mkONV M N (2 ^ M - 2 ^ (M - N)))
  = Ok 0 /\
  (forall x, 0 <= x < 2 ^ M -> popcount x = Z.to_nat N ->
     exists c, countOneElectronCouplings b (mkONV M N x) = Ok c /\ 0 <= c <= N * (M - N)).
Proof.
  intros HN HM Hb Hbc.
  pose proof (basis_electrons M N b HN HM Hb) as EN.
  pose proof (basis_orbitals M N b HN HM Hb) as EM.
  assert (Hw : 2 ^ 13 < word_modulus) by reflexivity.
  assert (HNV : 0 <= N * (M - N) <= 64 * 64).
  { split; [apply Z.mul_nonneg_nonneg; lia|apply Z.mul_le_mono_nonneg; lia]. }
  set (L := all_onvs (Z.to_nat M) (Z.to_nat N)).
  assert (Hfirst : 2 ^ N - 1 ∈ L).
  { apply list_elem_of_lookup. exists 0%nat.
    pose proof (all_onvs_first (Z.to_nat M) (Z.to_nat N) ltac:(lia)) as H.
    now rewrite Z2Nat.id in H by lia. }
  assert (Hlast : 2 ^ M - 2 ^ (M - N) ∈ L).
  { apply all_onvs_complete.
    - rewrite Z2Nat.id by lia.
      pose proof (pow2_pos (M - N) ltac:(lia)).
      pose proof (pow2_le_mono (M - N) M ltac:(lia)). lia.
    - unfold popcount.
      pose proof (length_set_bits_high_run (M - N) (Z.to_nat N) ltac:(lia)) as H.
      rewrite Z2Nat.id in H by lia. now replace (M - N + N) with M in H by lia. }
  assert (Hone : forall x, x ∈ L ->
            countOneElectronCouplings b (mkONV M N x)
            = Ok (coupling_sum (M - N) 0 (set_bits x)) /\
            0 <= coupling_sum (M - N) 0 (set_bits x) <= N * (M - N)).
  { intros x Hx. pose proof (coupling_sum_range _ _ _ Hx) as Hr.
    rewrite !Z2Nat.id in Hr by lia. split; [|assumption].
    rewrite (countOneElectronCouplings_sum b M N x EM EN HN);
      [|unfold word_modulus; lia|exact (all_onvs_popcount _ _ _ Hx)].
    f_equal. apply wrap_small. lia. }
  assert (Elow1 := coupling_sum_low_run (M - N) (Z.to_nat N)).
  assert (Ehigh1 := coupling_sum_high_run (M - N) (Z.to_nat N) ltac:(lia)).
  assert (Elow2 := two_coupling_sum_low_run (M - N) (Z.to_nat N)).
  assert (Ehigh2 := two_coupling_sum_high_run (M - N) (Z.to_nat N) ltac:(lia)).
  rewrite !Z2Nat.id in Elow1, Ehigh1, Elow2, Ehigh2 by lia.
  replace (M - N + N) with M in Ehigh1, Ehigh2 by lia.
  split; [rewrite (proj1 (Hone _ Hfirst)), Elow1; reflexivity|].
  split; [rewrite (proj1 (Hone _ Hlast)), Ehigh1; reflexivity|].
  split.
  { rewrite (countTwoElectronCouplings_sum _ b M N _ EM EN Hbc HN HM Hfirst), Elow2.
    reflexivity. }
  split.
  { rewrite (countTwoElectronCouplings_sum _ b M N _ EM EN Hbc HN HM Hlast), Ehigh2.
    reflexivity. }
  intros x Hx Hp.
  assert (Hin : x ∈ L).
  { apply all_onvs_complete; [|assumption]. now rewrite Z2Nat.id by lia. }
  destruct (Hone x Hin) as [Hc Hr]. eauto.
Qed.

(** X15 in the basis of 5 orbitals and 2 electrons, with the rounding
    routine. *)
Lemma coupling_counts_at_the_ends_witness :
  exists b, construct 5 2 = Ok b /\
    countOneElectronCouplings b (mkONV 5 2 (2 ^ 2 - 1)) = Ok (2 * (5 - 2)) /\
    countOneElectronCouplings b (mkONV 5 2 (2 ^ 5 - 2 ^ (5 - 2))) = Ok 0 /\
    countTwoElectronCouplings rounded_binomial b (mkONV 5 2 (2 ^ 2 - 1))
    = Ok (2 * (5 - 2) + pairs_among 2 * pairs_among (5 - 2)) /\
    countTwoElectronCouplings rounded_binomial b (mkONV 5 2 (2 ^ 5 - 2 ^ (5 - 2)))
    = Ok 0 /\
    (forall x, 0 <= x < 2 ^ 5 -> popcount x = Z.to_nat 2 ->
       exists c, countOneElectronCouplings b (mkONV 5 2 x) = Ok c /\ 0 <= c <= 2 * (5 - 2)).
Proof.
  destruct (construct_table 5 2 ltac:(lia) ltac:(reflexivity)) as (t & Ht & _).
  exists (mkONVBasis 5 2 t). split; [exact Ht|].
  apply (coupling_counts_at_the_ends rounded_binomial 5 2 _);
    [lia | lia | exact Ht | exact rounded_binomial_exact_pairs].
Defined.

(** ** The DIIS subspace over a run of steps *)

Lemma length_tail_snoc {A : Type} (l : list A) (x : A) :
  length (tail (l ++ [x])) = length l.
Proof.
  destruct l as [|y l]; [reflexivity|].
  cbn [app tail]. rewrite length_app. cbn [length]. lia.
Qed.

Section DIISRun.
Context {Matrix HamiltonianParameters : Type}.
Context {env : DIISEnvironment Matrix HamiltonianParameters}.

Lemma calculateNewFockMatrix_plain
    (slv : DIISRHFSCFSolver Matrix HamiltonianParameters) (D_AO : Matrix) :
  Z.of_nat (length (error_matrix_deque slv)) + 1 < minimum_subspace_dimension slv ->
  exists step, calculateNewFockMatrix slv D_AO = Ok step /\
    new_fock_matrix step = calculateRHFAOFockMatrix D_AO (ham_par slv) /\
    systems_solved step = [].
Proof.
  intros Hn. unfold calculateNewFockMatrix. rewrite length_app. cbn [length].
  destruct (Z.leb_spec (minimum_subspace_dimension slv)
              (Z.of_nat (length (error_matrix_deque slv) + 1))); [lia|].
  eexists. split; [reflexivity|]. split; reflexivity.
Qed.

Lemma calculateNewFockMatrix_combination
    (slv : DIISRHFSCFSolver Matrix HamiltonianParameters) (D_AO : Matrix) :
  let n := Z.of_nat (length (error_matrix_deque slv)) + 1 in
  minimum_subspace_dimension slv <= n ->
  length (fock_matrix_deque slv) = length (error_matrix_deque slv) ->
  n + 1 < word_modulus ->
  (forall B b, length (householderQR_solve B b) = length b) ->
  exists step B b, calculateNewFockMatrix slv D_AO = Ok step /\
    systems_solved step = [(B, b)] /\
    length b = Z.to_nat (n + 1) /\
    new_fock_matrix step
    = linear_combination (householderQR_solve B b)
        (fock_matrix_deque slv ++ [calculateRHFAOFockMatrix D_AO (ham_par slv)])
        (mat_zero (mat_cols (get_S (ham_par slv))) (mat_cols (get_S (ham_par slv)))).
Proof.
  intros n Hmin Hlen Hsize Hsolve. unfold calculateNewFockMatrix.
  set (S := get_S (ham_par slv)).
  set (f_AO := calculateRHFAOFockMatrix D_AO (ham_par slv)).
  set (focks := fock_matrix_deque slv ++ [f_AO]).
  set (errors := error_matrix_deque slv ++ [error_matrix_of f_AO D_AO S]).
  assert (En : Z.of_nat (length errors) = n).
  { unfold errors, n. rewrite length_app. cbn [length]. lia. }
  assert (Hn : Z.of_nat (length errors) + 1 < word_modulus) by lia.
  destruct (Z.leb_spec (minimum_subspace_dimension slv) (Z.of_nat (length errors)));
    [|lia].
  destruct (build_B_ok errors Hn) as (B & -> & _).
  destruct (build_b_ok (length errors) Hn) as (b & -> & Hblen & _).
  cbn [mbind outcome_bind].
  assert (Hfocks : Z.of_nat (length errors) = Z.of_nat (length focks)).
  { unfold errors, focks. rewrite !length_app. cbn [length]. lia. }
  rewrite Hfocks, combine_focks_ok by (rewrite Hsolve, Hblen; lia).
  eexists. exists B, b. split; [reflexivity|]. cbn [systems_solved new_fock_matrix].
  split; [reflexivity|]. split; [lia|reflexivity].
Qed.

Lemma after_steps_window (s0 s : DIISRHFSCFSolver Matrix HamiltonianParameters) (k : nat) :
  fock_matrix_deque s0 = [] -> error_matrix_deque s0 = [] ->
  0 <= maximum_subspace_dimension s0 ->
  after_steps s0 k s ->
  length (fock_matrix_deque s) = length (error_matrix_deque s) /\
  Z.of_nat (length (error_matrix_deque s))
  = Z.min (Z.of_nat k) (maximum_subspace_dimension s0) /\
  ham_par s = ham_par s0 /\
  minimum_subspace_dimension s = minimum_subspace_dimension s0 /\
  maximum_subspace_dimension s = maximum_subspace_dimension s0.
Proof.
  intros HF HE Hmax Hrun.
  induction Hrun as [|k s D_AO step Hrun IH Hstep].
  - rewrite HF, HE. cbn [length]. repeat split; lia.
  - destruct IH as (Hlen & Hsize & Hpar & Hmin & Hmx).
    rewrite (calculateNewFockMatrix_solver_after s D_AO step Hstep).
    cbn [fock_matrix_deque error_matrix_deque ham_par minimum_subspace_dimension
         maximum_subspace_dimension].
    set (f_AO := calculateRHFAOFockMatrix D_AO (ham_par s)).
    set (e := error_matrix_of f_AO D_AO (get_S (ham_par s))).
    rewrite length_app. cbn [length]. rewrite Hmx.
    destruct (Z.ltb_spec (maximum_subspace_dimension s0)
                (Z.of_nat (length (error_matrix_deque s) + 1))) as [Hfull|Hroom].
    + rewrite !length_tail_snoc.
      repeat split; try assumption; lia.
    + rewrite !length_app. cbn [length].
      repeat split; try assumption; lia.
Qed.

(** X16.  On a solver object that starts with empty deques and a maximum
    subspace dimension [>= 0], the call number [k + 1] of
    [calculateNewFockMatrix] works on [n = min (k + 1, maximum + 1)] error
    matrices, whatever the densities of the calls before were: [k] calls
    leave [n - 1] pairs in the deques.  While [n] is below the minimum
    subspace dimension the call returns the plain Fock matrix and solves
    nothing; from then on it solves one system of [n + 1] unknowns and
    returns the combination of the [n] Fock matrices stored.  So DIIS
    starts at call number [minimum], and never when the minimum exceeds
    the maximum by more than one. *)
Theorem calculateNewFockMatrix_over_a_run
    (s0 s : DIISRHFSCFSolver Matrix HamiltonianParameters) (k : nat) (D_AO : Matrix) :
  fock_matrix_deque s0 = [] -> error_matrix_deque s0 = [] ->
  0 <= maximum_subspace_dimension s0 ->
  after_steps s0 k s ->
  let n := Z.min (Z.of_nat k + 1) (maximum_subspace_dimension s0 + 1) in
  let f_AO := calculateRHFAOFockMatrix D_AO (ham_par s0) in
  length (fock_matrix_deque s) = length (error_matrix_deque s) /\
  Z.of_nat (length (error_matrix_deque s)) = n - 1 /\
  (n < minimum_subspace_dimension s0 ->
     exists step, calculateNewFockMatrix s D_AO = Ok step /\
       new_fock_matrix step = f_AO /\ systems_solved step = []) /\
  (minimum_subspace_dimension s0 <= n -> n + 1 < word_modulus ->
   (forall B b, length (householderQR_solve B b) = length b) ->
     exists step B b, calculateNewFockMatrix s D_AO = Ok step /\
       systems_solved step = [(B, b)] /\
       length b = Z.to_nat (n + 1) /\
       new_fock_matrix step
       = linear_combination (householderQR_solve B b) (fock_matrix_deque s ++ [f_AO])
           (mat_zero (mat_cols (get_S (ham_par s0))) (mat_cols (get_S (ham_par s0))))) /\
  (maximum_subspace_dimension s0 + 1 < minimum_subspace_dimension s0 ->
     exists step, calculateNewFockMatrix s D_AO = Ok step /\
       new_fock_matrix step = f_AO /\ systems_solved step = []).
Proof.
  intros HF HE Hmax Hrun n f_AO.
  destruct (after_steps_window s0 s k HF HE Hmax Hrun) as (Hlen & Hsize & Hpar & Hmin & Hmx).
  assert (En : Z.of_nat (length (error_matrix_deque s)) + 1 = n) by (unfold n; lia).
  split; [assumption|]. split; [lia|].
  unfold f_AO. rewrite <- Hpar, <- Hmin.
  split; [|split].
  - intros Hn. apply calculateNewFockMatrix_plain. lia.
  - intros Hn Hword Hsolve. rewrite <- En.
    apply calculateNewFockMatrix_combination; try assumption; lia.
  - intros Hn. apply calculateNewFockMatrix_plain. lia.
Qed.
End DIISRun.

(** X16 at the second call on [fresh_solver] in the scalar environment, after
    a first call with the density 2: with a minimum of 1, the second call
    solves a system of three unknowns. *)
Lemma calculateNewFockMatrix_over_a_run_witness :
  exists s, after_steps (env := scalar_environment) fresh_solver 1 s /\
    length (fock_matrix_deque s) = 1%nat /\
    exists step B b,
      calculateNewFockMatrix (env := scalar_environment) s double_one = Ok step /\
      systems_solved step = [(B, b)] /\ length b = 3%nat.
Proof.
  assert (Hrun : after_steps (env := scalar_environment) fresh_solver 1
                   (solver_after
                      (mkDIISStep double_two
                         (mkDIISRHFSCFSolver tt 1 6 [double_two] [double_zero])
                         [([[double_zero; double_minus_one];
                            [double_minus_one; double_zero]],
                           [double_zero; double_minus_one])]))).
  { apply (after_steps_S (env := scalar_environment) fresh_solver 0 fresh_solver double_two).
    - apply after_steps_0.
    - vm_compute. reflexivity. }
  eexists. split; [exact Hrun|].
  destruct (calculateNewFockMatrix_over_a_run (env := scalar_environment)
              fresh_solver _ 1 double_one eq_refl eq_refl ltac:(vm_compute; discriminate) Hrun)
    as (Hlen & Hsize & _ & Hdiis & _).
  split; [reflexivity|].
  destruct Hdiis as (step & B & b & Hstep & Hsys & Hb & _).
  - vm_compute. discriminate.
  - reflexivity.
  - intros [|[|t [|t' [|t'' r]]] rows] [|b0 [|b1 [|b2 bs]]]; reflexivity.
  - exists step, B, b. repeat split; assumption.
Defined.

(** ** Stepping through the basis *)

Lemma all_onvs_consecutive (M N : nat) (a : Z) :
  0 <= a -> a + 1 < binom M N ->
  exists x y, all_onvs M N !! Z.to_nat a = Some x /\ all_onvs M N !! S (Z.to_nat a) = Some y.
Proof.
  intros Ha Hlt. pose proof (all_onvs_length M N) as Hlen.
  destruct (lookup_lt_is_Some_2 (all_onvs M N) (Z.to_nat a) ltac:(lia)) as [x Hx].
  destruct (lookup_lt_is_Some_2 (all_onvs M N) (S (Z.to_nat a)) ltac:(lia)) as [y Hy].
  eauto.
Qed.

(** X17.  In a basis constructed with [N <= M <= 64], the next permutation
    of a configuration that is not the last one is the configuration of the
    next address.  Up to 31 orbitals, where [representationOf] decodes every
    address, moving an ONV to address [a] and then to its next permutation
    leaves the ONV that moving it to address [a + 1] does. *)
Theorem nextPermutationOf_advances_address (M N : Z) (b : SpinUnresolvedONVBasis) :
  0 <= N <= M -> M <= 64 -> construct M N = Ok b ->
  (forall c a, 0 <= c < 2 ^ M -> popcount c = Z.to_nat N ->
     addressOf b c = Some a -> a + 1 < binomC M N ->
     exists y, nextPermutationOf c = Ok y /\ addressOf b y = Some (a + 1)) /\
  (M <= 31 -> forall a onv, 0 <= a -> a + 1 < binomC M N ->
     exists onv1 onv2,
       transformONVCorrespondingToAddress b onv a = Ok onv1 /\
       transformONVToNextPermutation onv1 = Ok onv2 /\
       transformONVCorrespondingToAddress b onv (a + 1) = Ok onv2) /\
  (M <= 31 -> forall a, 0 <= a -> a + 1 < binomC M N ->
     exists onv1 onv2,
       constructONVFromAddress b a = Ok onv1 /\
       transformONVToNextPermutation onv1 = Ok onv2 /\
       constructONVFromAddress b (a + 1) = Ok onv2).
Proof.
  intros HN HM Hb.
  assert (Hmove : M <= 31 -> forall a onv, 0 <= a -> a + 1 < binomC M N ->
     exists onv1 onv2,
       transformONVCorrespondingToAddress b onv a = Ok onv1 /\
       transformONVToNextPermutation onv1 = Ok onv2 /\
       transformONVCorrespondingToAddress b onv (a + 1) = Ok onv2).
  { intros HM31 a onv Ha Hlt.
    destruct (all_onvs_consecutive (Z.to_nat M) (Z.to_nat N) a Ha Hlt) as (x & y & Hx & Hy).
    pose proof (representationOf_all_onvs M N b HN HM31 Hb _ _ Hx) as Rx.
    pose proof (representationOf_all_onvs M N b HN HM31 Hb _ _ Hy) as Ry.
    rewrite Z2Nat.id in Rx by lia.
    replace (Z.of_nat (S (Z.to_nat a))) with (a + 1) in Ry by lia.
    pose proof (all_onvs_next (Z.to_nat M) (Z.to_nat N) _ _ _ ltac:(lia) Hx Hy) as Hnext.
    unfold transformONVCorrespondingToAddress. rewrite Rx, Ry.
    cbn [mbind outcome_bind].
    eexists. eexists. split; [reflexivity|]. split; [|reflexivity].
    unfold transformONVToNextPermutation, replaceRepresentationWith.
    cbn [unsignedRepresentation onv_M onv_N]. rewrite Hnext. reflexivity. }
  split; [|split; [exact Hmove|]].
  - intros c a Hc Hp Ha Hlt.
    destruct (all_onvs_index (Z.to_nat M) (Z.to_nat N) c) as (i & Hi & _);
      [rewrite Z2Nat.id by lia; assumption|assumption|].
    pose proof (addressOf_all_onvs M N b HN HM Hb _ _ Hi) as Ei.
    rewrite Ei in Ha. injection Ha as <-.
    destruct (all_onvs_consecutive (Z.to_nat M) (Z.to_nat N) (Z.of_nat i) ltac:(lia) Hlt)
      as (x & y & Hx & Hy).
    rewrite Nat2Z.id in Hx, Hy.
    assert (x = c) by congruence. subst x.
    exists y. split.
    + exact (all_onvs_next (Z.to_nat M) (Z.to_nat N) _ _ _ ltac:(lia) Hi Hy).
    + rewrite (addressOf_all_onvs M N b HN HM Hb _ _ Hy). f_equal. lia.
  - intros HM31 a Ha Hlt. unfold constructONVFromAddress. now apply Hmove.
Qed.

(** X17 in the basis of 5 orbitals and 2 electrons. *)
Lemma nextPermutationOf_advances_address_witness :
  exists b, construct 5 2 = Ok b /\
    (forall c a, 0 <= c < 2 ^ 5 -> popcount c = Z.to_nat 2 ->
       addressOf b c = Some a -> a + 1 < binomC 5 2 ->
       exists y, nextPermutationOf c = Ok y /\ addressOf b y = Some (a + 1)) /\
    (5 <= 31 -> forall a, 0 <= a -> a + 1 < binomC 5 2 ->
       exists onv1 onv2,
         constructONVFromAddress b a = Ok onv1 /\
         transformONVToNextPermutation onv1 = Ok onv2 /\
         constructONVFromAddress b (a + 1) = Ok onv2).
Proof.
  destruct (construct_table 5 2 ltac:(lia) ltac:(reflexivity)) as (t & Ht & _).
  exists (mkONVBasis 5 2 t). split; [exact Ht|].
  destruct (nextPermutationOf_advances_address 5 2 _ ltac:(lia) ltac:(lia) Ht)
    as (H1 & _ & H3).
  split; assumption.
Defined.

(** ** One-electron couplings: the diagonal matrices *)

(** An invariant that every completed round carries from its index to the
    next is carried through the loop, when it completes. *)
Lemma for_loop_steps {St} (Inv : Z -> St -> Prop) (body : Z -> St -> outcome St) n i s s' :
  (forall j t t', i <= j < i + Z.of_nat n -> Inv j t -> body j t = Ok t' -> Inv (j + 1) t') ->
  Inv i s -> for_loop n i body s = Ok s' -> Inv (i + Z.of_nat n) s'.
Proof.
  revert i s. induction n as [|n IH]; intros i s Hstep Hs Hl; simpl in Hl.
  - injection Hl as <-. now replace (i + Z.of_nat 0) with i by lia.
  - destruct (body i s) as [t| |] eqn:Hb; try discriminate.
    replace (i + Z.of_nat (S n)) with (i + 1 + Z.of_nat n) by lia.
    apply (IH (i + 1) t); [|eapply Hstep; [lia|exact Hs|exact Hb]|exact Hl].
    intros j u u' Hj. apply Hstep. lia.
Qed.

Lemma for_range_steps {St} (Inv : Z -> St -> Prop) (body : Z -> St -> outcome St) lo hi s s' :
  lo <= hi ->
  (forall j t t', lo <= j < hi -> Inv j t -> body j t = Ok t' -> Inv (j + 1) t') ->
  Inv lo s -> for_range lo hi body s = Ok s' -> Inv hi s'.
Proof.
  intros Hle Hstep Hs Hl. unfold for_range in Hl.
  replace hi with (lo + Z.of_nat (Z.to_nat (hi - lo))) by lia.
  eapply for_loop_steps; [|exact Hs|exact Hl].
  intros j t t' Hj. apply Hstep. lia.
Qed.

(** *** Occupied orbitals and bits *)

Lemma set_bits_from_elem x i p :
  p ∈ set_bits_from x i <-> i <= p /\ Z.testbit (Z.pos x) (p - i) = true.
Proof.
  revert i. induction x as [x IH|x IH|]; intros i; cbn [set_bits_from].
  - rewrite elem_of_cons, IH, Pos2Z.inj_xI. split.
    + intros [->|[Hle Hb]].
      * split; [lia|]. rewrite Z.sub_diag. apply Z.testbit_odd_0.
      * split; [lia|]. replace (p - i) with (Z.succ (p - (i + 1))) by lia.
        rewrite Z.testbit_odd_succ by lia. assumption.
    + intros [Hle Hb]. destruct (Z.eq_dec p i) as [|Hne]; [now left|right].
      split; [lia|]. replace (p - i) with (Z.succ (p - (i + 1))) in Hb by lia.
      rewrite Z.testbit_odd_succ in Hb by lia. assumption.
  - rewrite IH, Pos2Z.inj_xO. split.
    + intros [Hle Hb]. split; [lia|].
      replace (p - i) with (Z.succ (p - (i + 1))) by lia.
      rewrite Z.testbit_even_succ by lia. assumption.
    + intros [Hle Hb]. destruct (Z.eq_dec p i) as [->|Hne].
      * rewrite Z.sub_diag, Z.testbit_even_0 in Hb. discriminate.
      * split; [lia|]. replace (p - i) with (Z.succ (p - (i + 1))) in Hb by lia.
        rewrite Z.testbit_even_succ in Hb by lia. assumption.
  - rewrite list_elem_of_singleton. split.
    + intros ->. split; [lia|]. rewrite Z.sub_diag. reflexivity.
    + intros [Hle Hb]. destruct (Z.eq_dec p i) as [|Hne]; [assumption|].
      replace (p - i) with (Z.succ (p - (i + 1))) in Hb by lia.
      change 1 with (2 * 0 + 1) in Hb.
      rewrite Z.testbit_odd_succ, Z.testbit_0_l in Hb by lia. discriminate.
Qed.

Lemma set_bits_elem x p : 0 <= x -> p ∈ set_bits x <-> Z.testbit x p = true.
Proof.
  intros Hx. destruct x as [|y|y]; try lia; cbn [set_bits].
  - rewrite Z.testbit_0_l. split; [intros H; inversion H|discriminate].
  - rewrite set_bits_from_elem, Z.sub_0_r. split; [now intros [_ H]|].
    intros H. split; [|assumption].
    destruct (Z.lt_ge_cases p 0) as [Hneg|]; [|assumption].
    rewrite Z.testbit_neg_r in H by assumption. discriminate.
Qed.

Lemma set_bits_from_NoDup x i : NoDup (set_bits_from x i).
Proof.
  revert i. induction x as [x IH|x IH|]; intros i; cbn [set_bits_from].
  - apply NoDup_cons_2; [|apply IH].
    rewrite set_bits_from_elem. lia.
  - apply IH.
  - apply NoDup_singleton.
Qed.

Lemma set_bits_NoDup x : NoDup (set_bits x).
Proof. destruct x; cbn [set_bits]; [apply NoDup_nil_2|apply set_bits_from_NoDup|apply NoDup_nil_2]. Qed.

(** *** Distinct pairs have distinct matrices *)

Lemma pair_index_lex K p q p' q' :
  0 <= K <= 2 ^ 31 -> 0 <= p <= q -> q < K -> 0 <= p' <= q' -> q' < K ->
  p < p' \/ (p = p' /\ q < q') -> pair_index K p q < pair_index K p' q'.
Proof.
  intros HK Hp Hq Hp' Hq' [Hlt|[-> Hlt]].
  - pose proof (pair_index_row_end K HK p q Hp Hq) as Hend.
    pose proof (triangle_mono K (Z.to_nat (p' - (p + 1))) (p + 1) ltac:(lia) ltac:(lia)) as Hm.
    replace (p + 1 + Z.of_nat (Z.to_nat (p' - (p + 1)))) with p' in Hm by lia.
    rewrite (pair_index_exact K HK p' q') by lia. lia.
  - rewrite !(pair_index_exact K HK) by lia. lia.
Qed.

Lemma pair_index_inj K p q p' q' :
  0 <= K <= 2 ^ 31 -> 0 <= p <= q -> q < K -> 0 <= p' <= q' -> q' < K ->
  pair_index K p q = pair_index K p' q' -> p = p' /\ q = q'.
Proof.
  intros HK Hp Hq Hp' Hq' E.
  destruct (Z.lt_trichotomy p p') as [H|[H|H]].
  - pose proof (pair_index_lex K p q p' q' HK Hp Hq Hp' Hq' ltac:(lia)). lia.
  - subst p'. destruct (Z.lt_trichotomy q q') as [H|[H|H]]; [|lia|].
    + pose proof (pair_index_lex K p q p q' HK Hp Hq Hp' Hq' ltac:(lia)). lia.
    + pose proof (pair_index_lex K p q' p q HK Hp' Hq' Hp Hq ltac:(lia)). lia.
  - pose proof (pair_index_lex K p' q' p q HK Hp' Hq' Hp Hq ltac:(lia)). lia.
Qed.

(** *** The triplets of one orbital *)

Lemma diagonal_triplets_app p I l1 l2 :
  diagonal_triplets p I (l1 ++ l2)
  = diagonal_triplets p I l1 ++ diagonal_triplets p (I + Z.of_nat (length l1)) l2.
Proof.
  revert I. induction l1 as [|x l1 IH]; intros I.
  - cbn [app diagonal_triplets length]. now replace (I + Z.of_nat 0) with I by lia.
  - cbn [app diagonal_triplets length]. rewrite IH, <- app_assoc.
    now replace (I + 1 + Z.of_nat (length l1)) with (I + Z.of_nat (S (length l1))) by lia.
Qed.

Lemma diagonal_triplets_elem p I l t :
  t ∈ diagonal_triplets p I l <->
  exists i x, l !! i = Some x /\ Z.testbit x p = true
              /\ t = mkTriplet (I + Z.of_nat i) (I + Z.of_nat i) 1.
Proof.
  revert I. induction l as [|y l IH]; intros I; cbn [diagonal_triplets].
  - split; [intros H; inversion H|intros (i & x & H & _); discriminate].
  - rewrite elem_of_app, IH. split.
    + intros [H|(i & x & Hi & Hb & ->)].
      * destruct (Z.testbit y p) eqn:Hy; [|inversion H].
        apply list_elem_of_singleton in H as ->.
        exists O, y. repeat split; [assumption|]. now rewrite Z.add_0_r.
      * exists (S i), x. repeat split; [assumption..|]. f_equal; lia.
    + intros ([|i] & x & Hi & Hb & ->).
      * injection Hi as ->. rewrite Hb. left. rewrite Z.add_0_r. now left.
      * right. exists i, x. repeat split; [assumption..|]. f_equal; lia.
Qed.

Lemma diagonal_triplets_NoDup p I l : NoDup (diagonal_triplets p I l).
Proof.
  revert I. induction l as [|y l IH]; intros I; cbn [diagonal_triplets].
  - apply NoDup_nil_2.
  - destruct (Z.testbit y p); [|apply IH].
    cbn [app]. apply NoDup_cons_2; [|apply IH].
    rewrite diagonal_triplets_elem. intros (i & x & _ & _ & E).
    injection E as E _. lia.
Qed.

Lemma length_diagonal_triplets_shift p I J l :
  length (diagonal_triplets p I l) = length (diagonal_triplets p J l).
Proof.
  revert I J. induction l as [|y l IH]; intros I J; cbn [diagonal_triplets]; [reflexivity|].
  rewrite !length_app, (IH (I + 1) (J + 1)). now destruct (Z.testbit y p).
Qed.

Lemma length_diagonal_triplets_high p I n l :
  0 <= p < n -> Forall (fun y => 0 <= y < 2 ^ n) l ->
  length (diagonal_triplets p I (Z.add (2 ^ n) <$> l)) = length (diagonal_triplets p I l).
Proof.
  intros Hp. revert I. induction l as [|y l IH]; intros I HF; [reflexivity|].
  apply Forall_cons_1 in HF as [Hy HF]. cbn [fmap list_fmap diagonal_triplets].
  change (list_fmap Z Z (Z.add (2 ^ n)) l) with (Z.add (2 ^ n) <$> l).
  rewrite !length_app, IH by assumption. f_equal.
  replace (Z.testbit (2 ^ n + y) p) with (Z.testbit y p); [reflexivity|].
  symmetry. replace (2 ^ n + y) with (1 * 2 ^ n + y) by lia.
  rewrite (testbit_join 1 y n p) by lia.
  destruct (Z.ltb_spec p n); [reflexivity|lia].
Qed.

Lemma length_diagonal_triplets_low p I n l :
  0 <= n <= p -> Forall (fun y => 0 <= y < 2 ^ n) l ->
  length (diagonal_triplets p I l) = O.
Proof.
  intros Hp. revert I. induction l as [|y l IH]; intros I HF; [reflexivity|].
  apply Forall_cons_1 in HF as [Hy HF]. cbn [diagonal_triplets].
  rewrite length_app, IH by assumption.
  replace (Z.testbit y p) with false; [reflexivity|].
  symmetry. apply (testbit_small_high y n p); lia.
Qed.

Lemma length_diagonal_triplets_top I n l :
  0 <= n -> Forall (fun y => 0 <= y < 2 ^ n) l ->
  length (diagonal_triplets n I (Z.add (2 ^ n) <$> l)) = length l.
Proof.
  intros Hn. revert I. induction l as [|y l IH]; intros I HF; [reflexivity|].
  apply Forall_cons_1 in HF as [Hy HF]. cbn [fmap list_fmap diagonal_triplets].
  change (list_fmap Z Z (Z.add (2 ^ n)) l) with (Z.add (2 ^ n) <$> l).
  rewrite length_app, IH by assumption.
  replace (Z.testbit (2 ^ n + y) n) with true; [reflexivity|].
  symmetry. replace (2 ^ n + y) with (1 * 2 ^ n + y) by lia.
  rewrite (testbit_join 1 y n n) by lia.
  rewrite Z.ltb_irrefl, Z.sub_diag. reflexivity.
Qed.

Lemma all_onvs_Forall_range M N :
  Forall (fun y => 0 <= y < 2 ^ Z.of_nat M) (all_onvs M N).
Proof. apply list.Forall_forall. intros y Hy. exact (all_onvs_range M N y Hy). Qed.

(** An orbital below [M + 1] is occupied in [C(M, N)] of the configurations
    of [N + 1] electrons in [M + 1] orbitals. *)
Lemma length_diagonal_triplets_all M N p I :
  0 <= p < Z.of_nat (S M) ->
  Z.of_nat (length (diagonal_triplets p I (all_onvs (S M) (S N)))) = binom M N.
Proof.
  revert N I. induction M as [|M IH]; intros N I Hp.
  - assert (p = 0) by lia. subst p. destruct N as [|N]; reflexivity.
  - rewrite all_onvs_succ, diagonal_triplets_app, length_app, Nat2Z.inj_add.
    set (I' := I + Z.of_nat (length (all_onvs (S M) (S N)))).
    pose proof (all_onvs_Forall_range (S M) (S N)) as HF1.
    pose proof (all_onvs_Forall_range (S M) N) as HF2.
    destruct (Z.lt_ge_cases p (Z.of_nat (S M))) as [Hlt|Hge].
    + rewrite IH by lia.
      rewrite (length_diagonal_triplets_high p I' (Z.of_nat (S M))) by (lia || assumption).
      destruct N as [|N].
      * rewrite all_onvs_0. cbn [diagonal_triplets]. rewrite Z.testbit_0_l.
        rewrite !binom_0_r. reflexivity.
      * rewrite IH by lia.
        change (binom (S M) (S N)) with (binom M (S N) + binom M N). reflexivity.
    + assert (p = Z.of_nat (S M)) by lia. subst p.
      rewrite (length_diagonal_triplets_low _ I (Z.of_nat (S M))) by (lia || assumption).
      rewrite length_diagonal_triplets_top by (lia || assumption).
      rewrite all_onvs_length. reflexivity.
Qed.

(** *** The loops *)

Section DiagonalOfOneONV.
Variables (b : SpinUnresolvedONVBasis) (onv : SpinUnresolvedONV).
Let K := numberOfOrbitals b.
Let N := numberOfElectrons b.
Hypothesis HK : 0 <= K <= 64.
Hypothesis Hcount : Z.of_nat (length (set_bits (unsignedRepresentation onv))) = N.
Hypothesis Hrange : Forall (fun p => 0 <= p < K) (set_bits (unsignedRepresentation onv)).

Let K_small : 0 <= K <= 2 ^ 31.
Proof. split; [lia|]. transitivity 64; [lia|discriminate]. Qed.

Let word_small : 2 ^ 14 < word_modulus.
Proof. reflexivity. Qed.

Lemma occupationIndexOf_Ok e p :
  occupationIndexOf onv e = Ok p ->
  set_bits (unsignedRepresentation onv) !! Z.to_nat e = Some p /\ 0 <= p < K.
Proof.
  unfold occupationIndexOf.
  destruct (set_bits (unsignedRepresentation onv) !! Z.to_nat e) as [p'|] eqn:E;
    intros H; try discriminate.
  injection H as <-. split; [reflexivity|].
  exact (Forall_lookup_1 _ _ _ _ Hrange E).
Qed.

(** The shift moves [q] upwards only. *)
Lemma shiftUntilNextUnoccupiedOrbital_loop_upwards remaining s s' :
  shiftUntilNextUnoccupiedOrbital_loop b onv remaining s = Ok s' ->
  shift_q s <= shift_q s'.
Proof.
  revert s. induction remaining as [|remaining IH]; intros s H;
    cbn [shiftUntilNextUnoccupiedOrbital_loop] in H.
  - injection H as <-. lia.
  - apply outcome_bind_Ok in H as (occ & Hocc & H).
    apply occupationIndexOf_Ok in Hocc as [_ Hocc].
    destruct (Z.eqb_spec (shift_q s) occ) as [Heq|Hne].
    + apply IH in H. cbn [shift_q] in H.
      pose proof word_small. rewrite wrap_small in H by lia. lia.
    + injection H as <-. lia.
Qed.

(** The creation loop of the orbital [p] appends to matrices of pairs
    [(p, q)] with [p < q] only. *)
Lemma creation_loop_diagonal I p rounds s entries entries' :
  creation_loop b onv K I p rounds s entries = Ok entries' ->
  0 <= p < shift_q s ->
  forall p', 0 <= p' < K ->
    entries' !! Z.to_nat (pair_index K p' p') = entries !! Z.to_nat (pair_index K p' p').
Proof.
  revert s entries. induction rounds as [|rounds IH]; intros s entries H Hp p' Hp';
    cbn [creation_loop] in H;
    destruct (Z.ltb_spec (shift_q s) K) as [Hlt|Hge];
    try discriminate; try (injection H as <-; reflexivity).
  apply outcome_bind_Ok in H as (e1 & H1 & H).
  apply outcome_bind_Ok in H as (e2 & H2 & H).
  apply outcome_bind_Ok in H as (s' & Hs' & H).
  unfold shiftUntilNextUnoccupiedOrbital in Hs'.
  apply shiftUntilNextUnoccupiedOrbital_loop_upwards in Hs'. cbn [shift_q] in Hs'.
  pose proof word_small. rewrite wrap_small in Hs' by lia.
  rewrite (IH s' e2 H ltac:(lia) p' Hp').
  apply emplace_back_Ok in H1 as (l1 & _ & ->).
  apply emplace_back_Ok in H2 as (l2 & _ & ->).
  assert (Hne : Z.to_nat (pair_index K p (shift_q s)) <> Z.to_nat (pair_index K p' p')).
  { intros E.
    pose proof (pair_index_range K p (shift_q s) ltac:(lia) Hlt ltac:(lia)).
    pose proof (pair_index_range K p' p' ltac:(lia) ltac:(lia) ltac:(lia)).
    destruct (pair_index_inj K p (shift_q s) p' p' K_small) as [E1 E2]; lia. }
  rewrite !list_lookup_insert_ne by assumption. reflexivity.
Qed.

(** The annihilation loop for the configuration of address [I] appends
    [(I, I, 1)] to the diagonal matrix of each occupied orbital, once, and
    leaves the other diagonal matrices as they are. *)
Lemma annihilation_loop_diagonal I entries entries' :
  0 <= N ->
  annihilation_loop b onv I entries = Ok entries' ->
  forall p l, 0 <= p < K ->
    entries !! Z.to_nat (pair_index K p p) = Some l ->
    entries' !! Z.to_nat (pair_index K p p)
    = Some (l ++ if bool_decide (p ∈ set_bits (unsignedRepresentation onv))
                 then [mkTriplet I I 1] else []).
Proof.
  intros HN0 H. unfold annihilation_loop in H. fold K N in H.
  set (occ := set_bits (unsignedRepresentation onv)) in *.
  assert (Hfinal : forall p l, 0 <= p < K ->
            entries !! Z.to_nat (pair_index K p p) = Some l ->
            entries' !! Z.to_nat (pair_index K p p)
            = Some (l ++ if bool_decide (p ∈ take (Z.to_nat N) occ)
                         then [mkTriplet I I 1] else [])).
  { refine (for_range_steps
              (fun e t => forall p l, 0 <= p < K ->
                 entries !! Z.to_nat (pair_index K p p) = Some l ->
                 t !! Z.to_nat (pair_index K p p)
                 = Some (l ++ if bool_decide (p ∈ take (Z.to_nat e) occ)
                              then [mkTriplet I I 1] else []))
              _ 0 N entries entries' HN0 _ _ H).
    - intros e t t' He Ht Hbody p' l Hp' Hl. cbv beta in Hbody.
      apply outcome_bind_Ok in Hbody as (p & Hocc & Hbody).
      apply occupationIndexOf_Ok in Hocc as [Hocc Hp]. fold occ in Hocc.
      apply outcome_bind_Ok in Hbody as (t1 & H1 & Hbody).
      apply outcome_bind_Ok in Hbody as (s & Hs & Hbody).
      unfold shiftUntilNextUnoccupiedOrbital in Hs.
      apply shiftUntilNextUnoccupiedOrbital_loop_upwards in Hs. cbn [shift_q] in Hs.
      pose proof word_small. rewrite wrap_small in Hs by lia.
      rewrite (creation_loop_diagonal _ _ _ _ _ _ Hbody ltac:(lia) p' Hp').
      apply emplace_back_Ok in H1 as (l1 & Hl1 & ->).
      replace (Z.to_nat (e + 1)) with (S (Z.to_nat e)) by lia.
      rewrite (take_S_r _ _ _ Hocc).
      destruct (Z.eq_dec p' p) as [->|Hne].
      + rewrite list_lookup_insert_eq by (eapply lookup_lt_Some; eassumption).
        rewrite (Ht p l Hp Hl) in Hl1. injection Hl1 as <-.
        assert (Hnot : p ∉ take (Z.to_nat e) occ).
        { intros Hin. apply list_elem_of_lookup in Hin as [i Hi].
          apply lookup_take_Some in Hi as [Hi Hlt].
          pose proof (NoDup_lookup _ _ _ _ (set_bits_NoDup _) Hi Hocc). lia. }
        rewrite (bool_decide_eq_false_2 _ Hnot), app_nil_r.
        rewrite bool_decide_eq_true_2; [reflexivity|].
        apply elem_of_app. right. now left.
      + assert (Hidx : Z.to_nat (pair_index K p p) <> Z.to_nat (pair_index K p' p')).
        { intros E.
          pose proof (pair_index_range K p p ltac:(lia) ltac:(lia) ltac:(lia)).
          pose proof (pair_index_range K p' p' ltac:(lia) ltac:(lia) ltac:(lia)).
          destruct (pair_index_inj K p p p' p' K_small) as [E1 E2]; lia. }
        rewrite list_lookup_insert_ne by assumption.
        rewrite (Ht p' l Hp' Hl).
        replace (bool_decide (p' ∈ take (Z.to_nat e) occ ++ [p]))
          with (bool_decide (p' ∈ take (Z.to_nat e) occ)); [reflexivity|].
        apply bool_decide_ext. rewrite elem_of_app, list_elem_of_singleton.
        split; [now left|]. intros [?|?]; [assumption|contradiction].
    - intros p l Hp Hl. change (Z.to_nat 0) with O. cbn [take].
      rewrite bool_decide_eq_false_2 by (intros Hin; inversion Hin).
      now rewrite app_nil_r. }
  intros p l Hp Hl. rewrite (Hfinal p l Hp Hl).
  rewrite take_ge by (fold occ in Hcount; lia). reflexivity.
Qed.
End DiagonalOfOneONV.

Lemma collectOneElectronCouplings_diagonal M N b entries entries' :
  1 <= N <= M -> M <= 64 -> N <= 31 -> construct M N = Ok b ->
  collectOneElectronCouplings b (binomC M N) entries = Ok entries' ->
  forall p l, 0 <= p < M ->
    entries !! Z.to_nat (pair_index M p p) = Some l ->
    entries' !! Z.to_nat (pair_index M p p)
    = Some (l ++ diagonal_triplets p 0 (all_onvs (Z.to_nat M) (Z.to_nat N))).
Proof.
  intros HN HM HN31 Hb H.
  assert (HNM : 0 <= N <= M) by lia.
  pose proof (basis_orbitals M N b HNM HM Hb) as EK.
  pose proof (basis_electrons M N b HNM HM Hb) as EN.
  unfold collectOneElectronCouplings in H.
  unfold constructONVFromAddress, transformONVCorrespondingToAddress in H.
  rewrite (representationOf_0 M N b) in H by (lia || assumption).
  cbn [mbind outcome_bind] in H.
  rewrite EK, EN in H. unfold replaceRepresentationWith in H. cbn [onv_M onv_N] in H.
  set (L := all_onvs (Z.to_nat M) (Z.to_nat N)) in *.
  set (dim := binomC M N) in *.
  assert (HL : Z.of_nat (length L) = dim) by apply all_onvs_length.
  assert (Hdim : 1 <= dim < word_modulus).
  { pose proof (binom_word (Z.to_nat M) (Z.to_nat N) ltac:(lia)). unfold dim, binomC in *.
    pose proof (binom_pos (Z.to_nat M) (Z.to_nat N) ltac:(lia)). lia. }
  apply outcome_bind_Ok in H as (st & Hst & H). injection H as <-.
  assert (Hfinal :
    (exists x, L !! Z.to_nat (Z.min dim (dim - 1)) = Some x /\ st.1 = mkONV M N x) /\
    forall p l, 0 <= p < M ->
      entries !! Z.to_nat (pair_index M p p) = Some l ->
      st.2 !! Z.to_nat (pair_index M p p)
      = Some (l ++ diagonal_triplets p 0 (take (Z.to_nat dim) L))).
  { refine (for_range_steps
      (fun I (st : SpinUnresolvedONV * list (list Triplet)) =>
         (exists x, L !! Z.to_nat (Z.min I (dim - 1)) = Some x /\ st.1 = mkONV M N x) /\
         forall p l, 0 <= p < M ->
           entries !! Z.to_nat (pair_index M p p) = Some l ->
           st.2 !! Z.to_nat (pair_index M p p)
           = Some (l ++ diagonal_triplets p 0 (take (Z.to_nat I) L)))
      _ 0 dim _ st ltac:(lia) _ _ Hst).
    - intros I [onv t] [onv1 t'] HI [(x & Hx & Honv) Ht] Hbody. cbn [fst snd] in *.
      subst onv.
      replace (Z.to_nat (Z.min I (dim - 1))) with (Z.to_nat I) in Hx by lia.
      rewrite (wrap_small (dim - 1)) in Hbody by lia.
      assert (Hin : x ∈ L) by (apply list_elem_of_lookup; eauto).
      pose proof (all_onvs_range _ _ _ Hin) as Hxr.
      pose proof (all_onvs_popcount _ _ _ Hin) as Hpc. unfold popcount in Hpc.
      rewrite Z2Nat.id in Hxr by lia.
      apply outcome_bind_Ok in Hbody as (t1 & H1 & Hbody).
      pose proof (annihilation_loop_diagonal b (mkONV M N x)) as Hdiag.
      cbn [unsignedRepresentation] in Hdiag. rewrite EK, EN in Hdiag.
      specialize (Hdiag ltac:(lia) ltac:(lia) (set_bits_range M x ltac:(lia) Hxr)
                    I t t1 ltac:(lia) H1).
      assert (Hnew : forall p l, 0 <= p < M ->
                entries !! Z.to_nat (pair_index M p p) = Some l ->
                t1 !! Z.to_nat (pair_index M p p)
                = Some (l ++ diagonal_triplets p 0 (take (Z.to_nat (I + 1)) L))).
      { intros p l Hp Hl. rewrite (Hdiag p _ Hp (Ht p l Hp Hl)).
        assert (Eb : bool_decide (p ∈ set_bits x) = Z.testbit x p).
        { destruct (Z.testbit x p) eqn:Hbit.
          - apply bool_decide_eq_true_2. now apply set_bits_elem.
          - apply bool_decide_eq_false_2. rewrite set_bits_elem by lia. congruence. }
        rewrite Eb.
        replace (Z.to_nat (I + 1)) with (S (Z.to_nat I)) by lia.
        rewrite (take_S_r _ _ _ Hx), diagonal_triplets_app.
        rewrite length_take_le by lia. cbn [diagonal_triplets].
        rewrite app_nil_r, Z.add_0_l, Z2Nat.id by lia.
        rewrite app_assoc. reflexivity. }
      destruct (Z.ltb_spec I (dim - 1)) as [Hlt|Hge].
      + destruct (lookup_lt_is_Some_2 L (S (Z.to_nat I)) ltac:(lia)) as [y Hy].
        unfold transformONVToNextPermutation in Hbody.
        cbn [unsignedRepresentation] in Hbody.
        rewrite (all_onvs_next (Z.to_nat M) (Z.to_nat N) (Z.to_nat I) x y)
          in Hbody by (lia || assumption).
        cbn [mbind outcome_bind] in Hbody. injection Hbody as <- <-.
        split; [|exact Hnew]. exists y. split; [|reflexivity].
        now replace (Z.to_nat (Z.min (I + 1) (dim - 1))) with (S (Z.to_nat I)) by lia.
      + injection Hbody as <- <-.
        split; [|exact Hnew]. exists x. split; [|reflexivity].
        now replace (Z.to_nat (Z.min (I + 1) (dim - 1))) with (Z.to_nat I) by lia.
    - cbn [fst snd]. split.
      + exists (2 ^ N - 1). split; [|reflexivity].
        replace (Z.to_nat (Z.min 0 (dim - 1))) with O by lia.
        unfold L. rewrite all_onvs_first by lia. f_equal. f_equal. f_equal. lia.
      + intros p l Hp Hl. change (Z.to_nat 0) with O. cbn [take diagonal_triplets].
        now rewrite app_nil_r. }
  destruct Hfinal as [_ Hfinal]. intros p l Hp Hl.
  rewrite (Hfinal p l Hp Hl). rewrite take_ge by lia. reflexivity.
Qed.

(** X18.  In a basis constructed with [1 <= N <= M <= 64] and [N <= 31],
    when the call of [calculateDimension] that sizes the reservations
    returns, [calculateOneElectronCouplings] returns, and its matrix of the
    pair [(p, p)] is set from the triplets [(I, I, 1)] of the addresses [I]
    of the configurations with the orbital [p] occupied, each once and in
    ascending order of [I], and from nothing else.  There are
    [C(M-1, N-1)] of them, the number reserved. *)
Theorem one_electron_couplings_diagonal
    (binomial_coefficient : Z -> Z -> outcome double) (M N : Z)
    (b : SpinUnresolvedONVBasis) (r : Z) :
  1 <= N <= M -> M <= 64 -> N <= 31 -> construct M N = Ok b ->
  calculateDimension binomial_coefficient (M - 1) (N - 1) = Ok r ->
  exists mats, calculateOneElectronCouplings binomial_coefficient b = Ok mats /\
    forall p, 0 <= p < M ->
      exists ts,
        mats !! Z.to_nat (pair_index M p p)
        = Some (mkSparseMatrix (binomC M N) (binomC M N) ts) /\
        ts = diagonal_triplets p 0 (all_onvs (Z.to_nat M) (Z.to_nat N)) /\
        NoDup ts /\
        Z.of_nat (length ts) = binomC (M - 1) (N - 1) /\
        forall t, t ∈ ts <->
          exists c a, 0 <= c < 2 ^ M /\ popcount c = Z.to_nat N /\
            Z.testbit c p = true /\ addressOf b c = Some a /\ t = mkTriplet a a 1.
Proof.
  intros HN HM HN31 Hb Hr.
  assert (HNM : 0 <= N <= M) by lia.
  assert (Hw : 2 ^ 14 < word_modulus) by reflexivity.
  assert (HB : 0 <= M * (M + 1) <= 64 * 65).
  { split; [apply Z.mul_nonneg_nonneg; lia|]. apply Z.mul_le_mono_nonneg; lia. }
  set (pairs := wrap (M * wrap (M + 1)) / 2).
  assert (Hpairs : 0 <= pairs).
  { unfold pairs. rewrite (wrap_small (M + 1)) by lia. rewrite wrap_small by lia.
    apply Z.div_pos; lia. }
  destruct (collectOneElectronCouplings_total M N b
              (replicate (Z.to_nat pairs) []) HN HM HN31 Hb)
    as (entries & Hcollect & Hlen).
  { rewrite length_replicate. unfold pairs. lia. }
  unfold calculateOneElectronCouplings.
  rewrite (basis_dimension M N b HNM HM Hb). cbn [mbind outcome_bind]. cbv zeta.
  rewrite (basis_orbitals M N b HNM HM Hb), (basis_electrons M N b HNM HM Hb).
  destruct (Z.eqb_spec N 0); [lia|].
  rewrite (wrap_small (M - 1)), (wrap_small (N - 1)) by lia.
  rewrite Hr. cbn [mbind outcome_bind]. fold pairs. rewrite Hcollect.
  cbn [mbind outcome_bind]. eexists. split; [reflexivity|].
  intros p Hp.
  pose proof (pair_index_range M p p ltac:(lia) ltac:(lia) HM) as Hidx. fold pairs in Hidx.
  set (L := all_onvs (Z.to_nat M) (Z.to_nat N)).
  exists (diagonal_triplets p 0 L).
  split; [|split; [reflexivity|split; [apply diagonal_triplets_NoDup|split]]].
  - apply lookup_zip_with_Some.
    exists (mkSparseMatrix (binomC M N) (binomC M N) []), (diagonal_triplets p 0 L).
    split; [reflexivity|]. split; [apply lookup_replicate_2; lia|].
    rewrite (collectOneElectronCouplings_diagonal M N b _ entries HN HM HN31 Hb Hcollect
               p [] Hp); [reflexivity|].
    apply lookup_replicate_2. lia.
  - unfold L, binomC.
    replace (Z.to_nat M) with (S (Z.to_nat (M - 1))) by lia.
    replace (Z.to_nat N) with (S (Z.to_nat (N - 1))) by lia.
    apply length_diagonal_triplets_all. lia.
  - intros t. rewrite diagonal_triplets_elem. split.
    + intros (i & x & Hi & Hbit & ->).
      assert (Hin : x ∈ L) by (apply list_elem_of_lookup; eauto).
      pose proof (all_onvs_range _ _ _ Hin) as Hxr. rewrite Z2Nat.id in Hxr by lia.
      exists x, (Z.of_nat i). split; [assumption|].
      split; [exact (all_onvs_popcount _ _ _ Hin)|]. split; [assumption|].
      split; [exact (addressOf_all_onvs M N b HNM HM Hb _ _ Hi)|].
      now rewrite Z.add_0_l.
    + intros (c & a & Hc & Hpc & Hbit & Ha & ->).
      destruct (all_onvs_index (Z.to_nat M) (Z.to_nat N) c) as (i & Hi & _);
        [rewrite Z2Nat.id by lia; assumption|assumption|].
      rewrite (addressOf_all_onvs M N b HNM HM Hb _ _ Hi) in Ha. injection Ha as <-.
      exists i, c. split; [assumption|]. split; [assumption|]. now rewrite Z.add_0_l.
Qed.

(** X18 in the basis of 3 orbitals and 2 electrons; the double handed to the
    reservation is 2. *)
Lemma one_electron_couplings_diagonal_witness :
  exists b mats,
    construct 3 2 = Ok b /\
    calculateOneElectronCouplings
      (fun _ _ => Ok (S754_finite false 4503599627370496 (-51))) b = Ok mats /\
    forall p, 0 <= p < 3 ->
      exists ts,
        mats !! Z.to_nat (pair_index 3 p p)
        = Some (mkSparseMatrix (binomC 3 2) (binomC 3 2) ts) /\
        ts = diagonal_triplets p 0 (all_onvs (Z.to_nat 3) (Z.to_nat 2)) /\
        NoDup ts /\
        Z.of_nat (length ts) = binomC (3 - 1) (2 - 1) /\
        forall t, t ∈ ts <->
          exists c a, 0 <= c < 2 ^ 3 /\ popcount c = Z.to_nat 2 /\
            Z.testbit c p = true /\ addressOf b c = Some a /\ t = mkTriplet a a 1.
Proof.
  destruct (construct_table 3 2 ltac:(lia) ltac:(reflexivity)) as (t & Ht & _).
  exists (mkONVBasis 3 2 t).
  destruct (one_electron_couplings_diagonal
              (fun _ _ => Ok (S754_finite false 4503599627370496 (-51)))
              3 2 (mkONVBasis 3 2 t) 2) as (mats & Hmats & Hdiag);
    [lia | lia | lia | exact Ht | vm_compute; reflexivity |].
  exists mats. split; [exact Ht|]. split; assumption.
Defined.
